(** * The configuration lexer of syslog-ng (lib/cfg-lexer.c)

    A shallow embedding of the lexer facade: lexer contexts and keyword
    resolution, back-tick substitution, token blocks, block generators,
    the [cfg_lexer_lex] driver and user defined blocks, followed by the
    properties established about them.

    Conventions.
    - A [gchar *] that the code treats as a NUL terminated string is a
      [string] (the characters before the terminator); a pointer that may
      be NULL is an [option].
    - A [gint] is a [Z]; the only arithmetic the file performs on one, the
      increment and decrement of [preprocess_suppress_tokens], wraps at 32
      bits ([gint_wrap]).
    - Messages, calls of destroy notifiers and writes to the suppression
      counter are recorded in an event log carried by the [World].
    - Functions that are declared in headers which are not part of the
      sources at hand (the flex scanner, the bison parsers, the include
      stack primitives) are fields of the [Collaborators] class. *)

From Stdlib Require Import ZArith Lia Ascii String List Bool.
From stdpp Require Import base option list strings gmap sorting.

Local Open Scope Z_scope.

(* ================================================================== *)
(** ** Constants of the absent headers *)
(* ================================================================== *)

(** Token identifiers of the generated grammar header (cfg-grammar.h),
    which is not among the sources: they are parameters of the model. *)
Class GrammarTokens : Type := {
  LL_IDENTIFIER : Z;
  LL_STRING : Z;
  LL_TOKEN : Z;
  LL_PRAGMA : Z;
  LL_ERROR : Z;
  KW_INCLUDE : Z
}.

(** Modelled from the spec: the context enumeration of cfg-lexer.h, which
    is absent, in the order in which the specification lists its values;
    0 is not a member, it is what [cfg_lexer_get_context_type] returns on
    an empty stack and what a generator uses for "any context". *)
Definition LL_CONTEXT_ROOT : Z := 1.
Definition LL_CONTEXT_DESTINATION : Z := 2.
Definition LL_CONTEXT_SOURCE : Z := 3.
Definition LL_CONTEXT_PARSER : Z := 4.
Definition LL_CONTEXT_REWRITE : Z := 5.
Definition LL_CONTEXT_FILTER : Z := 6.
Definition LL_CONTEXT_LOG : Z := 7.
Definition LL_CONTEXT_BLOCK_DEF : Z := 8.
Definition LL_CONTEXT_BLOCK_REF : Z := 9.
Definition LL_CONTEXT_BLOCK_CONTENT : Z := 10.
Definition LL_CONTEXT_BLOCK_ARG : Z := 11.
Definition LL_CONTEXT_PRAGMA : Z := 12.
Definition LL_CONTEXT_FORMAT : Z := 13.
Definition LL_CONTEXT_TEMPLATE_FUNC : Z := 14.
Definition LL_CONTEXT_INNER_DEST : Z := 15.
Definition LL_CONTEXT_INNER_SRC : Z := 16.
Definition LL_CONTEXT_CLIENT_PROTO : Z := 17.
Definition LL_CONTEXT_SERVER_PROTO : Z := 18.

(** Modelled from the spec: the sentinel keyword name that stops keyword
    resolution (the macro CFG_KEYWORD_STOP of the absent cfg-lexer.h). *)
Definition CFG_KEYWORD_STOP : string := "@STOP@".

(** Modelled from the spec: the status of a keyword entry, "normal" or
    "obsolete" (the KWS_ enumeration of the absent cfg-lexer.h). *)
Inductive KeywordStatus : Type := KWS_NORMAL | KWS_OBSOLETE.

(** Modelled from the spec: [cfg_check_current_config_version] (cfg.h,
    absent) holds unless the required version exceeds the active version
    of the configuration. *)
Definition cfg_check_current_config_version (version req : Z) : bool :=
  req <=? version.

(** Wrap-around of a 32 bit signed [gint]. *)
Definition gint_wrap (z : Z) : Z := (z + 2 ^ 31) mod 2 ^ 32 - 2 ^ 31.
Definition G_MAXINT : Z := 2 ^ 31 - 1.

(* ================================================================== *)
(** ** Data model *)
(* ================================================================== *)

(** [CfgLexerKeyword]: one entry of a keyword table.  A table is the list
    of the entries before the terminating entry whose [kw_name] is NULL. *)
Record CfgLexerKeyword : Type := {
  kw_name : string;
  kw_token : Z;
  kw_req_version : Z;
  kw_status : KeywordStatus;
  kw_explain : option string
}.

(** [CfgLexerContext].  The frame holds its keyword table by value; that
    frames may share one table plays no role in what follows. *)
Record CfgLexerContext : Type := {
  ctx_type : Z;
  ctx_keywords : option (list CfgLexerKeyword);
  ctx_desc : string
}.

(** [YYLTYPE]: [lloc_level] is the index in the include stack of the
    level the location points to. *)
Record YYLTYPE : Type := {
  first_line : Z;
  first_column : Z;
  last_line : Z;
  last_column : Z;
  lloc_level : nat
}.

(** [YYSTYPE]: the members of the union that this file reads or writes are
    kept as separate fields. *)
Record YYSTYPE : Type := {
  yy_type : Z;
  yy_token : Z;
  yy_cptr : option string
}.

(** [CfgTokenBlock]. *)
Record CfgTokenBlock : Type := {
  tb_pos : nat;
  tb_tokens : list YYSTYPE
}.

(** [CfgArgs]: a hash table from strings to strings. *)
Abbreviation CfgArgs := (gmap string string).

(** [CfgBlockGenerator]: the generator function, its data and the destroy
    notifier are addresses; a NULL notifier is [None]. *)
Record CfgBlockGenerator : Type := {
  gen_context : Z;
  gen_name : string;
  gen_generator : Z;
  gen_generator_data : Z;
  gen_generator_data_free : option Z
}.

(** [CfgIncludeLevel], as far as this file looks into it. *)
Record CfgIncludeLevel : Type := {
  lvl_name : option string;
  lvl_lloc : YYLTYPE
}.

(** Tags of a structured message. *)
Inductive EvtTag : Type :=
| evt_tag_str (name : string) (value : option string)
| evt_tag_version (name : string) (major minor : Z)
| evt_tag_position (name : string) (line column : Z)
| evt_tag_id (id : string).

Inductive MsgLevel : Type := LevelError | LevelWarning | LevelDebug.

(** What the lexer does to the outside, in the order it does it. *)
Inductive Event : Type :=
| Message (level : MsgLevel) (desc : string) (tags : list EvtTag)
| DataFree (notify : Z) (data : Z)
| SuppressWrite (value : Z).

(** The process wide [configuration]. *)
Record GlobalConfig : Type := {
  version : Z;
  parsed_version : Z
}.

Section LexerState.

(** The handle of the flex scanner ([self->state]). *)
Context {yyscan_t : Type}.

(** [CfgLexer]. *)
Record CfgLexer : Type := {
  state : yyscan_t;
  include_stack : list CfgIncludeLevel;
  include_depth : nat;
  context_stack : list CfgLexerContext;
  token_blocks : list CfgTokenBlock;
  generators : list CfgBlockGenerator;
  preprocess_suppress_tokens : Z;
  preprocess_output : string;
  token_text : string;
  token_pretext : string;
  globals : CfgArgs
}.

(** The lexer together with the global configuration and the event log. *)
Record World : Type := {
  lexer : CfgLexer;
  configuration : GlobalConfig;
  events : list Event
}.

End LexerState.

Arguments CfgLexer : clear implicits.
Arguments World : clear implicits.

(* ================================================================== *)
(** ** Lexer contexts (cfg_lexer_push_context and friends) *)
(* ================================================================== *)

Section Contexts.
Context {yyscan_t : Type}.
Local Abbreviation CfgLexer := (CfgLexer yyscan_t).

Definition set_context_stack (self : CfgLexer) (l : list CfgLexerContext) : CfgLexer :=
  {| state := state self;
     include_stack := include_stack self;
     include_depth := include_depth self;
     context_stack := l;
     token_blocks := token_blocks self;
     generators := generators self;
     preprocess_suppress_tokens := preprocess_suppress_tokens self;
     preprocess_output := preprocess_output self;
     token_text := token_text self;
     token_pretext := token_pretext self;
     globals := globals self |}.

Definition cfg_lexer_get_context_type (self : CfgLexer) : Z :=
  match context_stack self with
  | context :: _ => ctx_type context
  | [] => 0
  end.

Definition cfg_lexer_get_context_description (self : CfgLexer) : string :=
  match context_stack self with
  | context :: _ => ctx_desc context
  | [] => "configuration"
  end.

Definition cfg_lexer_push_context (self : CfgLexer) (type : Z)
    (keywords : option (list CfgLexerKeyword)) (desc : string) : CfgLexer :=
  let context :=
    {| ctx_type := if type =? 0 then cfg_lexer_get_context_type self else type;
       ctx_keywords := keywords;
       ctx_desc := desc |} in
  set_context_stack self (context :: context_stack self).

Definition cfg_lexer_pop_context (self : CfgLexer) : CfgLexer :=
  match context_stack self with
  | _ :: rest => set_context_stack self rest
  | [] => self
  end.

End Contexts.

(* ================================================================== *)
(** ** Keyword resolution (cfg_lexer_lookup_keyword) *)
(* ================================================================== *)

(** The loop over [j] of lines 271-280 followed by the test of line 281:
    the loop advances while both strings have a character and stops early
    at a mismatch; the entry matches when both strings ended together. *)
Fixpoint keyword_spelling_matches (token kw : string) : bool :=
  match token, kw with
  | EmptyString, EmptyString => true
  | String t token', String k kw' =>
      if (Ascii.eqb t "-" || Ascii.eqb t "_")%bool
      then (if Ascii.eqb k "_" then keyword_spelling_matches token' kw' else false)
      else (if Ascii.eqb t k then keyword_spelling_matches token' kw' else false)
  | _, _ => false
  end.

(** How the scan of one keyword table (the loop over [i]) ends. *)
Inductive KeywordScan : Type :=
| ScanStop
| ScanReserved (i : nat) (k : CfgLexerKeyword)
| ScanToken (i : nat) (k : CfgLexerKeyword)
| ScanExhausted.

Fixpoint scan_keywords (cfg_version : Z) (token : string) (i : nat)
    (keywords : list CfgLexerKeyword) : KeywordScan :=
  match keywords with
  | [] => ScanExhausted
  | k :: rest =>
      if String.eqb (kw_name k) CFG_KEYWORD_STOP then ScanStop
      else if keyword_spelling_matches token (kw_name k) then
        (if cfg_check_current_config_version cfg_version (kw_req_version k)
         then ScanToken i k
         else ScanReserved i k)
      else scan_keywords cfg_version token (S i) rest
  end.

Definition set_kw_status (k : CfgLexerKeyword) (st : KeywordStatus) : CfgLexerKeyword :=
  {| kw_name := kw_name k; kw_token := kw_token k;
     kw_req_version := kw_req_version k; kw_status := st;
     kw_explain := kw_explain k |}.

Definition set_ctx_keywords (c : CfgLexerContext) (kws : list CfgLexerKeyword)
    : CfgLexerContext :=
  {| ctx_type := ctx_type c; ctx_keywords := Some kws; ctx_desc := ctx_desc c |}.

Definition set_cptr (v : YYSTYPE) (s : string) : YYSTYPE :=
  {| yy_type := yy_type v; yy_token := yy_token v; yy_cptr := Some s |}.

Definition reserved_word_warning (cfg_version : Z) (k : CfgLexerKeyword)
    (location : option (option string * YYLTYPE)) : Event :=
  Message LevelWarning
    "WARNING: Your configuration uses a newly introduced reserved word as identifier, please use a different name or enclose it in quotes"
    ([ evt_tag_str "keyword" (Some (kw_name k));
       evt_tag_version "config-version" (Z.shiftr cfg_version 8) (Z.land cfg_version 255);
       evt_tag_version "version" (Z.shiftr (kw_req_version k) 8)
                                 (Z.land (kw_req_version k) 255) ]
     ++ match location with
        | Some (filename, yylloc) =>
            [ evt_tag_str "filename" filename;
              evt_tag_position "line" (first_line yylloc) (first_column yylloc);
              evt_tag_id "MSG_RESERVED_WORD_USED" ]
        | None => []
        end).

Definition obsolete_keyword_warning (k : CfgLexerKeyword) : Event :=
  Message LevelWarning
    "Your configuration file uses an obsoleted keyword, please update your configuration"
    [ evt_tag_str "keyword" (Some (kw_name k));
      evt_tag_str "change" (kw_explain k);
      evt_tag_id "MSG_OBSOLATED_KEYWORD_USED" ].

Section KeywordLookup.
Context {tokens : GrammarTokens}.

(** The walk over the context stack (the [while (l)] loop).  The result is
    the returned token, the semantic value, the context stack with the
    status of a matched keyword reset, and the messages in the order of
    their emission. *)
Fixpoint lookup_keyword_in (cfg_version : Z) (location : option (option string * YYLTYPE))
    (token : string) (yylval : YYSTYPE) (l : list CfgLexerContext)
    : Z * YYSTYPE * list CfgLexerContext * list Event :=
  match l with
  | [] => (LL_IDENTIFIER, set_cptr yylval token, [], [])
  | context :: next =>
      let descend (warnings : list Event) :=
        let '(tok, v, next', evs) :=
          lookup_keyword_in cfg_version location token yylval next in
        (tok, v, context :: next', warnings ++ evs) in
      match ctx_keywords context with
      | None => descend []
      | Some keywords =>
          match scan_keywords cfg_version token 0 keywords with
          | ScanStop => (LL_IDENTIFIER, set_cptr yylval token, l, [])
          | ScanReserved _ k =>
              descend [reserved_word_warning cfg_version k location]
          | ScanToken i k =>
              (kw_token k,
               {| yy_type := LL_TOKEN; yy_token := kw_token k; yy_cptr := yy_cptr yylval |},
               set_ctx_keywords context (<[i := set_kw_status k KWS_NORMAL]> keywords) :: next,
               match kw_status k with
               | KWS_OBSOLETE => [obsolete_keyword_warning k]
               | KWS_NORMAL => []
               end)
          | ScanExhausted => descend []
          end
      end
  end.

Context {yyscan_t : Type}.

Definition level_name (self : CfgLexer yyscan_t) (yylloc : YYLTYPE) : option string :=
  match include_stack self !! lloc_level yylloc with
  | Some level => lvl_name level
  | None => None
  end.

Definition cfg_lexer_lookup_keyword (w : World yyscan_t) (yylval : YYSTYPE)
    (yylloc : option YYLTYPE) (token : string) : Z * YYSTYPE * World yyscan_t :=
  let self := lexer w in
  let location :=
    match yylloc with
    | Some loc => Some (level_name self loc, loc)
    | None => None
    end in
  let '(tok, v, stack, evs) :=
    lookup_keyword_in (version (configuration w)) location token yylval
                      (context_stack self) in
  (tok, v,
   {| lexer := set_context_stack self stack;
      configuration := configuration w;
      events := events w ++ evs |}).

End KeywordLookup.

(* ================================================================== *)
(** ** Outcomes *)
(* ================================================================== *)

(** A call either returns or stops the process: a failed [g_assert], a
    call through a NULL function pointer, a NULL string handed to
    [strcmp]. *)
Inductive Outcome (A : Type) : Type :=
| Returns (a : A)
| Aborts.
Arguments Returns {A} a.
Arguments Aborts {A}.

(* ================================================================== *)
(** ** Context names (lexer_contexts and the two lookups) *)
(* ================================================================== *)

(** The designated initialisers of [lexer_contexts], in the order of the
    source. *)
Definition lexer_contexts_initialisers : list (Z * string) :=
  [ (LL_CONTEXT_ROOT, "root");
    (LL_CONTEXT_DESTINATION, "destination");
    (LL_CONTEXT_SOURCE, "source");
    (LL_CONTEXT_PARSER, "parser");
    (LL_CONTEXT_REWRITE, "rewrite");
    (LL_CONTEXT_FILTER, "filter");
    (LL_CONTEXT_LOG, "log");
    (LL_CONTEXT_BLOCK_DEF, "block-def");
    (LL_CONTEXT_BLOCK_REF, "block-ref");
    (LL_CONTEXT_BLOCK_CONTENT, "block-content");
    (LL_CONTEXT_PRAGMA, "pragma");
    (LL_CONTEXT_FORMAT, "format");
    (LL_CONTEXT_TEMPLATE_FUNC, "template-func");
    (LL_CONTEXT_INNER_DEST, "inner-dest");
    (LL_CONTEXT_INNER_SRC, "inner-src");
    (LL_CONTEXT_CLIENT_PROTO, "client-proto");
    (LL_CONTEXT_SERVER_PROTO, "server-proto") ].

(** An array of unspecified size with designated initialisers has one
    element more than its largest designated index; the elements that are
    not designated are NULL. *)
Definition designated_array (inits : list (Z * string)) : list (option string) :=
  let size := S (Z.to_nat (foldr Z.max 0 (map fst inits))) in
  foldl (fun arr '(i, s) => <[Z.to_nat i := Some s]> arr) (replicate size None) inits.

Definition lexer_contexts : list (option string) :=
  designated_array lexer_contexts_initialisers.

(** The loop of [cfg_lexer_lookup_context_type_by_name] from index [i] on,
    [entries] being the elements of the array from [i]. *)
Fixpoint context_type_from (entries : list (option string)) (i : Z)
    (name : option string) : Outcome Z :=
  match entries with
  | [] => Returns 0
  | None :: rest => context_type_from rest (i + 1) name
  | Some s :: rest =>
      match name with
      | None => Aborts
      | Some n => if String.eqb s n then Returns i else context_type_from rest (i + 1) name
      end
  end.

Definition cfg_lexer_lookup_context_type_by_name (name : option string) : Outcome Z :=
  context_type_from lexer_contexts 0 name.

Definition cfg_lexer_lookup_context_name_by_type (type : Z) : Outcome (option string) :=
  if (0 <=? type) && (type <? Z.of_nat (length lexer_contexts))
  then Returns (default None (lexer_contexts !! Z.to_nat type))
  else Aborts.

(* ================================================================== *)
(** ** Argument maps (the cfg_args functions) *)
(* ================================================================== *)

(** [normalize_key] is declared in a header that is not among the
    sources. *)
Class StringUtils : Type := {
  normalize_key : string -> string
}.

(** The environment of the process. *)
Class ProcessEnvironment : Type := {
  g_getenv : string -> option string
}.

(** The order in which [g_hash_table_foreach] visits the pairs of a table
    is that of the buckets of the GLib hash table, which is not fixed by
    these sources: it is a parameter, of which only this is known, that
    every pair of the table is visited once.  (The order of a table may
    depend on its history; a function of the contents is as general for
    statements about a single iteration.) *)
Class HashTableOrder : Type := {
  g_hash_table_pairs : CfgArgs -> list (string * string);
  g_hash_table_pairs_all : forall m : CfgArgs, g_hash_table_pairs m ≡ₚ map_to_list m
}.

Section Args.
Context {utils : StringUtils} {table : HashTableOrder}.

Definition cfg_args_new : CfgArgs := ∅.

Definition cfg_args_set (self : CfgArgs) (name value : string) : CfgArgs :=
  <[normalize_key name := value]> self.

Definition cfg_args_get (self : CfgArgs) (name : string) : option string :=
  match self !! name with
  | Some value => Some value
  | None => self !! normalize_key name
  end.

(** [g_hash_table_foreach]: the pairs of the table are visited in the
    order of the table. *)
Definition cfg_args_foreach {S : Type} (self : CfgArgs)
    (func : string -> string -> S -> S) (user_data : S) : S :=
  foldl (fun acc '(k, v) => func k v acc) user_data (g_hash_table_pairs self).

(** The visitor of [cfg_args_validate]; [user_data] holds the bad key and
    the bad value, once found. *)
Definition cfg_args_validate_callback (defs : option CfgArgs) (k v : string)
    (bad : option (string * string)) : option (string * string) :=
  match bad with
  | Some _ => bad
  | None =>
      match defs with
      | None => Some (k, v)
      | Some d => match cfg_args_get d k with
                  | None => Some (k, v)
                  | Some _ => None
                  end
      end
  end.

Definition cfg_args_validate (self : CfgArgs) (defs : option CfgArgs) (context : string)
    : bool * list Event :=
  match cfg_args_foreach self (cfg_args_validate_callback defs) None with
  | Some (bad_key, bad_value) =>
      (false,
       [Message LevelError "Unknown argument"
          [ evt_tag_str "context" (Some context);
            evt_tag_str "arg" (Some bad_key);
            evt_tag_str "value" (Some bad_value) ]])
  | None => (true, [])
  end.

End Args.

(* ================================================================== *)
(** ** Back-tick substitution (cfg_lexer_subst_args) *)
(* ================================================================== *)

Section Substitution.
Context {utils : StringUtils} {environ : ProcessEnvironment}.

(** The chain of lines 209-226: the value of the reference [name], NULL
    when no scope has it.  (The path escaping of the value of an
    environment variable is compiled on Windows only.) *)
Definition resolve_reference (globals defs args : option CfgArgs) (name : string)
    : option string :=
  match args ≫= (fun a => cfg_args_get a name) with
  | Some arg => Some arg
  | None =>
      match defs ≫= (fun d => cfg_args_get d name) with
      | Some arg => Some arg
      | None =>
          match globals ≫= (fun g => cfg_args_get g name) with
          | Some arg => Some arg
          | None => g_getenv name
          end
      end
  end.

(** The variables of the loop.  Inside a reference [subst_ref] is the
    text between [ref_start] and [p]; outside it is not read, and the
    model clears it. *)
Record SubstState : Type := {
  subst_backtick : bool;
  subst_ref : string;
  subst_result : string
}.

Definition subst_initial : SubstState :=
  {| subst_backtick := false; subst_ref := ""; subst_result := "" |}.

(** The body of the [while] loop at the character [c]. *)
Definition subst_step (globals defs args : option CfgArgs) (st : SubstState) (c : ascii)
    : SubstState :=
  if negb (subst_backtick st) && Ascii.eqb c "`" then
    {| subst_backtick := true; subst_ref := ""; subst_result := subst_result st |}
  else if subst_backtick st && Ascii.eqb c "`" then
    if String.eqb (subst_ref st) "" then
      {| subst_backtick := false; subst_ref := "";
         subst_result := subst_result st +:+ "`" |}
    else
      {| subst_backtick := false; subst_ref := "";
         subst_result :=
           subst_result st +:+
           default "" (resolve_reference globals defs args (subst_ref st)) |}
  else if negb (subst_backtick st) then
    {| subst_backtick := false; subst_ref := subst_ref st;
       subst_result := subst_result st +:+ String c "" |}
  else
    {| subst_backtick := true; subst_ref := subst_ref st +:+ String c "";
       subst_result := subst_result st |}.

Fixpoint subst_scan (globals defs args : option CfgArgs) (p : string) (st : SubstState)
    : SubstState :=
  match p with
  | EmptyString => st
  | String c p' => subst_scan globals defs args p' (subst_step globals defs args st c)
  end.

(** The result is NULL ([None]) or the new string with its length. *)
Definition cfg_lexer_subst_args (globals defs args : option CfgArgs) (cptr : string)
    : option (string * Z) :=
  let st := subst_scan globals defs args cptr subst_initial in
  if subst_backtick st then None
  else Some (subst_result st, Z.of_nat (String.length (subst_result st))).

End Substitution.

(* ================================================================== *)
(** ** Token blocks *)
(* ================================================================== *)

Definition cfg_token_block_new : CfgTokenBlock :=
  {| tb_pos := 0; tb_tokens := [] |}.

Definition cfg_token_block_add_token (self : CfgTokenBlock) (token : YYSTYPE)
    : Outcome CfgTokenBlock :=
  if Nat.eqb (tb_pos self) 0
  then Returns {| tb_pos := tb_pos self; tb_tokens := tb_tokens self ++ [token] |}
  else Aborts.

(** The token at the position of the block and the block moved past it,
    or NULL and the block as it is. *)
Definition cfg_token_block_get_token (self : CfgTokenBlock)
    : option YYSTYPE * CfgTokenBlock :=
  match tb_tokens self !! tb_pos self with
  | Some token => (Some token, {| tb_pos := S (tb_pos self); tb_tokens := tb_tokens self |})
  | None => (None, self)
  end.

(* ================================================================== *)
(** ** Updates of the lexer and of the world *)
(* ================================================================== *)

Section Updates.
Context {yyscan_t : Type}.
Local Abbreviation CfgLexer := (CfgLexer yyscan_t).
Local Abbreviation World := (World yyscan_t).

Definition set_token_blocks (self : CfgLexer) (l : list CfgTokenBlock) : CfgLexer :=
  {| state := state self;
     include_stack := include_stack self;
     include_depth := include_depth self;
     context_stack := context_stack self;
     token_blocks := l;
     generators := generators self;
     preprocess_suppress_tokens := preprocess_suppress_tokens self;
     preprocess_output := preprocess_output self;
     token_text := token_text self;
     token_pretext := token_pretext self;
     globals := globals self |}.

Definition set_generators (self : CfgLexer) (l : list CfgBlockGenerator) : CfgLexer :=
  {| state := state self;
     include_stack := include_stack self;
     include_depth := include_depth self;
     context_stack := context_stack self;
     token_blocks := token_blocks self;
     generators := l;
     preprocess_suppress_tokens := preprocess_suppress_tokens self;
     preprocess_output := preprocess_output self;
     token_text := token_text self;
     token_pretext := token_pretext self;
     globals := globals self |}.

Definition set_preprocess_suppress_tokens (self : CfgLexer) (n : Z) : CfgLexer :=
  {| state := state self;
     include_stack := include_stack self;
     include_depth := include_depth self;
     context_stack := context_stack self;
     token_blocks := token_blocks self;
     generators := generators self;
     preprocess_suppress_tokens := n;
     preprocess_output := preprocess_output self;
     token_text := token_text self;
     token_pretext := token_pretext self;
     globals := globals self |}.

Definition set_preprocess_output (self : CfgLexer) (s : string) : CfgLexer :=
  {| state := state self;
     include_stack := include_stack self;
     include_depth := include_depth self;
     context_stack := context_stack self;
     token_blocks := token_blocks self;
     generators := generators self;
     preprocess_suppress_tokens := preprocess_suppress_tokens self;
     preprocess_output := s;
     token_text := token_text self;
     token_pretext := token_pretext self;
     globals := globals self |}.

(** [g_string_truncate(self->token_text, 0)] and the same for
    [token_pretext]. *)
Definition truncate_token_texts (self : CfgLexer) : CfgLexer :=
  {| state := state self;
     include_stack := include_stack self;
     include_depth := include_depth self;
     context_stack := context_stack self;
     token_blocks := token_blocks self;
     generators := generators self;
     preprocess_suppress_tokens := preprocess_suppress_tokens self;
     preprocess_output := preprocess_output self;
     token_text := "";
     token_pretext := "";
     globals := globals self |}.

Definition set_lexer (w : World) (self : CfgLexer) : World :=
  {| lexer := self; configuration := configuration w; events := events w |}.

Definition emit (w : World) (evs : list Event) : World :=
  {| lexer := lexer w; configuration := configuration w; events := events w ++ evs |}.

(** [self->preprocess_suppress_tokens++] and [--]. *)
Definition suppress_tokens_incr (w : World) : World :=
  let n := gint_wrap (preprocess_suppress_tokens (lexer w) + 1) in
  emit (set_lexer w (set_preprocess_suppress_tokens (lexer w) n)) [SuppressWrite n].

Definition suppress_tokens_decr (w : World) : World :=
  let n := gint_wrap (preprocess_suppress_tokens (lexer w) - 1) in
  emit (set_lexer w (set_preprocess_suppress_tokens (lexer w) n)) [SuppressWrite n].

(** [g_string_append_printf(self->preprocess_output, "%s", s)]. *)
Definition echo (w : World) (s : string) : World :=
  set_lexer w (set_preprocess_output (lexer w) (preprocess_output (lexer w) +:+ s)).

(** [self->include_stack[self->include_depth]]; the array is allocated
    zeroed. *)
Definition lloc_zero : YYLTYPE :=
  {| first_line := 0; first_column := 0; last_line := 0; last_column := 0;
     lloc_level := 0 |}.

Definition current_include_level (self : CfgLexer) : CfgIncludeLevel :=
  default {| lvl_name := None; lvl_lloc := lloc_zero |}
          (include_stack self !! include_depth self).

End Updates.

(* ================================================================== *)
(** ** Block generators *)
(* ================================================================== *)

Section Generators.
Context {yyscan_t : Type}.
Local Abbreviation CfgLexer := (CfgLexer yyscan_t).
Local Abbreviation World := (World yyscan_t).

Definition generator_matches (gen : CfgBlockGenerator) (context : Z) (name : string) : bool :=
  ((gen_context gen =? 0) || (gen_context gen =? context)) && String.eqb (gen_name gen) name.

Fixpoint find_generator_in (l : list CfgBlockGenerator) (context : Z) (name : string)
    : option CfgBlockGenerator :=
  match l with
  | [] => None
  | gen :: rest =>
      if generator_matches gen context name then Some gen
      else find_generator_in rest context name
  end.

Definition cfg_lexer_find_generator (self : CfgLexer) (context : Z) (name : string)
    : option CfgBlockGenerator :=
  find_generator_in (generators self) context name.

Definition duplicate_generator_report (context_name : option string) (name : string)
    : Event :=
  Message LevelDebug
    "Attempted to register the same generator multiple times, ignoring"
    [ evt_tag_str "context" context_name; evt_tag_str "name" (Some name) ].

Definition cfg_lexer_register_block_generator (w : World) (context : Z) (name : string)
    (generator : Z) (generator_data : Z) (generator_data_free : option Z)
    : Outcome World :=
  match cfg_lexer_find_generator (lexer w) context name with
  | Some _ =>
      match cfg_lexer_lookup_context_name_by_type context with
      | Aborts => Aborts
      | Returns context_name =>
          match generator_data_free with
          | None => Aborts
          | Some notify =>
              Returns (emit w [ duplicate_generator_report context_name name;
                                DataFree notify generator_data ])
          end
      end
  | None =>
      let gen := {| gen_context := context; gen_name := name;
                    gen_generator := generator;
                    gen_generator_data := generator_data;
                    gen_generator_data_free := generator_data_free |} in
      Returns (set_lexer w (set_generators (lexer w) (generators (lexer w) ++ [gen])))
  end.

(** [cfg_lexer_inject_token_block] and [cfg_lexer_unput_token]. *)
Definition cfg_lexer_inject_token_block (self : CfgLexer) (block : CfgTokenBlock) : CfgLexer :=
  set_token_blocks self (token_blocks self ++ [block]).

Definition cfg_lexer_unput_token (self : CfgLexer) (yylval : YYSTYPE) : Outcome CfgLexer :=
  match cfg_token_block_add_token cfg_token_block_new yylval with
  | Returns block => Returns (cfg_lexer_inject_token_block self block)
  | Aborts => Aborts
  end.

End Generators.

(* ================================================================== *)
(** ** The driver (cfg_lexer_lex) *)
(* ================================================================== *)

(** Modelled from the spec: the legacy version 2.1 that is assumed when
    the configuration declares none (VERSION_VALUE_2_1 of the absent
    versioning.h), in the encoding major * 256 + minor. *)
Definition VERSION_VALUE_2_1 : Z := 0x0201.

Section Driver.
Context {yyscan_t : Type}.
Local Abbreviation CfgLexer := (CfgLexer yyscan_t).
Local Abbreviation World := (World yyscan_t).

(** What a call of [cfg_lexer_lex] delivers: the token, the semantic value
    and the location written through the two pointers, and the world it
    leaves; [None] when the fuel of the model did not suffice. *)
Definition LexResult : Type := option (Z * YYSTYPE * YYLTYPE * World).
Definition LexFunction : Type := World -> YYSTYPE -> YYLTYPE -> LexResult.

(** The functions that [cfg_lexer_lex] calls and that are defined in other
    files.  The two parsers pull their tokens from the lexer, which they
    receive as their first argument. *)
Class Collaborators : Type := {
  (** the flex scanner, [_cfg_lexer_lex(yylval, yylloc, self->state)] *)
  _cfg_lexer_lex : YYSTYPE -> YYLTYPE -> World -> Z * YYSTYPE * YYLTYPE * World;
  cfg_lexer_start_block_state : CfgLexer -> string -> CfgLexer;
  (** [cfg_parser_parse(&pragma_parser, self, &dummy, NULL)] *)
  pragma_parser_parse : LexFunction -> World -> option (bool * World);
  (** [cfg_parser_parse(&block_ref_parser, self, &args, NULL)] *)
  block_ref_parser_parse : LexFunction -> World -> option (option CfgArgs * World);
  cfg_lexer_include_file : World -> option string -> bool * World;
  cfg_lexer_include_buffer : World -> string -> string -> Z -> bool * World;
  (** the call through [gen->generator] *)
  call_generator : Z -> World -> Z -> option string -> CfgArgs -> Z -> bool * World;
  cfg_set_version : World -> Z -> World
}.

Context {tokens : GrammarTokens} {collaborators : Collaborators}.

(** The [while (self->token_blocks)] loop: the first pending token, if
    any, and the list of blocks that is left. *)
Fixpoint next_injected_token (blocks : list CfgTokenBlock)
    : option YYSTYPE * list CfgTokenBlock :=
  match blocks with
  | [] => (None, [])
  | block :: rest =>
      match cfg_token_block_get_token block with
      | (Some token, block') => (Some token, block' :: rest)
      | (None, _) => next_injected_token rest
      end
  end.

Definition cfg_lexer_generate_block (w : World) (context : Z) (name : option string)
    (gen : CfgBlockGenerator) (args : CfgArgs) : bool * World :=
  call_generator (gen_generator gen) w context name args (gen_generator_data gen).

Definition no_version_warning : Event :=
  Message LevelWarning
    "WARNING: Configuration file has no version number, assuming syslog-ng 2.1 format. Please add @version: maj.min to the beginning of the file"
    [].

Definition set_yy_type (v : YYSTYPE) (t : Z) : YYSTYPE :=
  {| yy_type := t; yy_token := yy_token v; yy_cptr := yy_cptr v |}.

(** The part of [cfg_lexer_lex] from the label [relex] to the label
    [exit]: the token, the semantic value, the location, the flag
    [injected] and the world. *)
Definition fetch_token (w : World) (yylval : YYSTYPE) (yylloc : YYLTYPE)
    : Z * YYSTYPE * YYLTYPE * bool * World :=
  match next_injected_token (token_blocks (lexer w)) with
  | (Some token, blocks) =>
      let self := set_token_blocks (lexer w) blocks in
      (if yy_type token =? LL_TOKEN then yy_token token else yy_type token,
       token,
       lvl_lloc (current_include_level self),
       true,
       set_lexer w self)
  | (None, blocks) =>
      let self := set_token_blocks (lexer w) blocks in
      let self :=
        if cfg_lexer_get_context_type self =? LL_CONTEXT_BLOCK_CONTENT
        then cfg_lexer_start_block_state self "{}"
        else if cfg_lexer_get_context_type self =? LL_CONTEXT_BLOCK_ARG
        then cfg_lexer_start_block_state self "()"
        else self in
      let self := truncate_token_texts self in
      let '(tok, yylval, yylloc, w) :=
        _cfg_lexer_lex (set_yy_type yylval 0) yylloc (set_lexer w self) in
      let yylval := if yy_type yylval =? 0 then set_yy_type yylval tok else yylval in
      (tok, yylval, yylloc, false, echo w (token_pretext (lexer w)))
  end.

(** The last branches of the chain after [exit] and the echo of the token
    text. *)
Definition deliver_token (w : World) (injected : bool) : World :=
  let cfg := configuration w in
  let w :=
    if (version cfg =? 0) && negb (parsed_version cfg =? 0)
    then cfg_set_version w (parsed_version cfg)
    else if (version cfg =? 0) && (parsed_version cfg =? 0)
            && negb (cfg_lexer_get_context_type (lexer w) =? LL_CONTEXT_PRAGMA)
    then cfg_set_version (emit w [no_version_warning]) VERSION_VALUE_2_1
    else w in
  if negb injected && (preprocess_suppress_tokens (lexer w) =? 0)
  then echo w (token_text (lexer w))
  else w.

(** [cfg_lexer_lex].  A [goto relex] is a call with the remaining fuel; an
    identifier or string token is taken to carry its lexeme. *)
Fixpoint cfg_lexer_lex (fuel : nat) (w : World) (yylval : YYSTYPE) (yylloc : YYLTYPE)
    : LexResult :=
  match fuel with
  | O => None
  | S fuel =>
      let '(tok, yylval, yylloc, injected, w) := fetch_token w yylval yylloc in
      if tok =? LL_PRAGMA then
        match pragma_parser_parse (cfg_lexer_lex fuel) (echo w "@") with
        | None => None
        | Some (false, w) => Some (LL_ERROR, yylval, yylloc, w)
        | Some (true, w) => cfg_lexer_lex fuel w yylval yylloc
        end
      else if (tok =? KW_INCLUDE)
              && negb (cfg_lexer_get_context_type (lexer w) =? LL_CONTEXT_PRAGMA) then
        match cfg_lexer_lex fuel (suppress_tokens_incr w) yylval yylloc with
        | None => None
        | Some (tok, yylval, yylloc, w) =>
            if negb (tok =? LL_STRING) && negb (tok =? LL_IDENTIFIER)
            then Some (LL_ERROR, yylval, yylloc, suppress_tokens_decr w)
            else
              let include_file := yy_cptr yylval in
              match cfg_lexer_lex fuel w yylval yylloc with
              | None => None
              | Some (tok, yylval, yylloc, w) =>
                  if negb (tok =? 59)
                  then Some (LL_ERROR, yylval, yylloc, suppress_tokens_decr w)
                  else
                    let '(included, w) := cfg_lexer_include_file w include_file in
                    if included
                    then cfg_lexer_lex fuel (suppress_tokens_decr w) yylval yylloc
                    else Some (LL_ERROR, yylval, yylloc, suppress_tokens_decr w)
              end
        end
      else
        match (if tok =? LL_IDENTIFIER
               then yy_cptr yylval ≫=
                      cfg_lexer_find_generator (lexer w) (cfg_lexer_get_context_type (lexer w))
               else None) with
        | Some gen =>
            match block_ref_parser_parse (cfg_lexer_lex fuel) (suppress_tokens_incr w) with
            | None => None
            | Some (Some args, w) =>
                let w := suppress_tokens_decr w in
                let '(success, w) :=
                  cfg_lexer_generate_block w (cfg_lexer_get_context_type (lexer w))
                                           (yy_cptr yylval) gen args in
                if success
                then cfg_lexer_lex fuel w yylval yylloc
                else Some (LL_ERROR, yylval, yylloc, w)
            | Some (None, w) => Some (LL_ERROR, yylval, yylloc, suppress_tokens_decr w)
            end
        | None => Some (tok, yylval, yylloc, deliver_token w injected)
        end
  end.

End Driver.

Arguments Collaborators : clear implicits.

(* ================================================================== *)
(** ** User defined blocks (cfg_block_generate) *)
(* ================================================================== *)

(** [CfgBlock]. *)
Record CfgBlock : Type := {
  blk_content : string;
  blk_arg_defs : CfgArgs
}.

Section Blocks.
Context {utils : StringUtils} {environ : ProcessEnvironment} {table : HashTableOrder}.

(** The visitor of [_fill_varargs]; [user_data] is the string collected so
    far. *)
Definition _resolve_unknown_blockargs_as_varargs (defs : CfgArgs) (key value : string)
    (varargs : string) : string :=
  match cfg_args_get defs key with
  | None => varargs +:+ key +:+ "(" +:+ value +:+ ") "
  | Some _ => varargs
  end.

Definition _fill_varargs (block : CfgBlock) (args : CfgArgs) : CfgArgs :=
  let varargs :=
    cfg_args_foreach args (_resolve_unknown_blockargs_as_varargs (blk_arg_defs block)) "" in
  cfg_args_set args "__VARARGS__" varargs.

(** What [g_snprintf(buf, sizeof(buf), "%s", s)] prints for a string that
    may be NULL, and the cut at the size of the buffer. *)
Definition printf_string (s : option string) : string := default "(null)" s.

Definition truncate_to (n : nat) (s : string) : string := String.substring 0 n s.

Context {yyscan_t : Type} {collaborators : Collaborators yyscan_t}.

Definition missing_backtick_warning (context_name : option string) (name : string) : Event :=
  Message LevelWarning
    "Syntax error while resolving backtick references in block, missing closing '`' character"
    [ evt_tag_str "context" context_name; evt_tag_str "block" (Some name) ].

(** [cfg_block_generate]: the result of the generator, the argument map as
    the caller finds it afterwards, and the world. *)
Definition cfg_block_generate (w : World yyscan_t) (context : Z) (name : string)
    (args : CfgArgs) (block : CfgBlock) : Outcome (bool * CfgArgs * World yyscan_t) :=
  match cfg_lexer_lookup_context_name_by_type context with
  | Aborts => Aborts
  | Returns context_name =>
      let buf := truncate_to 255 (printf_string context_name +:+ " block " +:+ name) in
      let args := _fill_varargs block args in
      match cfg_lexer_subst_args (Some (globals (lexer w))) (Some (blk_arg_defs block))
                                 (Some args) (blk_content block) with
      | None => Returns (false, args, emit w [missing_backtick_warning context_name name])
      | Some (value, length) =>
          let '(ok, w) := cfg_lexer_include_buffer w buf value length in
          Returns (ok, args, w)
      end
  end.

Definition cfg_block_new (content : string) (arg_defs : CfgArgs) : CfgBlock :=
  {| blk_content := content; blk_arg_defs := arg_defs |}.

End Blocks.

(* ================================================================== *)
(** ** Construction (cfg_lexer_init) *)
(* ================================================================== *)

(** The lexer as [cfg_lexer_init] leaves the zeroed structure: the first
    include level stands at line 1, column 1. *)
Definition cfg_lexer_init {yyscan_t : Type} (scanner : yyscan_t) : CfgLexer yyscan_t :=
  {| state := scanner;
     include_stack :=
       [ {| lvl_name := None;
            lvl_lloc := {| first_line := 1; first_column := 1;
                           last_line := 1; last_column := 1; lloc_level := 0 |} |} ];
     include_depth := 0;
     context_stack := [];
     token_blocks := [];
     generators := [];
     preprocess_suppress_tokens := 0;
     preprocess_output := "";
     token_text := "";
     token_pretext := "";
     globals := cfg_args_new |}.

(* ================================================================== *)
(** ** Vocabulary of the statements *)
(* ================================================================== *)

(** *** Keywords *)

(** The relation between a character of the identifier and the character
    of the keyword spelling at the same position that lets the comparison
    go on: a hyphen of the identifier stands for an underscore of the
    spelling, any other character stands for itself. *)
Definition char_agrees (t k : ascii) : Prop :=
  (t = "-"%char /\ k = "_"%char) \/ (t <> "-"%char /\ t = k).

(** The entries of a keyword table that the scan passes by: they are not
    the stop entry and their spelling does not match the identifier. *)
Definition passed_by (token : string) (k : CfgLexerKeyword) : Prop :=
  kw_name k <> CFG_KEYWORD_STOP /\ keyword_spelling_matches token (kw_name k) = false.

(** *** Context names and generators *)

(** The round trip through the two context lookups: the name of the type
    is handed to the lookup by name. *)
Definition context_round_trip (type : Z) : Outcome Z :=
  match cfg_lexer_lookup_context_name_by_type type with
  | Returns name => cfg_lexer_lookup_context_type_by_name name
  | Aborts => Aborts
  end.

(** A generator of the list answers to the pair of a context and a name
    when it has the name and either the context or the context 0. *)
Definition answers_to (context : Z) (name : string) (gen : CfgBlockGenerator) : Prop :=
  (gen_context gen = 0 \/ gen_context gen = context) /\ gen_name gen = name.

(** *** Substitution *)

(** The number of back-ticks of a buffer. *)
Fixpoint count_backticks (s : string) : nat :=
  match s with
  | EmptyString => 0%nat
  | String c s' => ((if Ascii.eqb c "`" then 1 else 0) + count_backticks s')%nat
  end.

(** A buffer has an unterminated reference when one of its back-ticks
    opens a reference, the back-ticks before it being paired, and no
    back-tick follows it. *)
Definition unterminated_reference (cptr : string) : Prop :=
  exists pre post : string,
    cptr = pre +:+ String "`" post /\
    Nat.even (count_backticks pre) = true /\
    count_backticks post = 0%nat.

(** The first of a list of lookups that has a value. *)
Fixpoint first_hit (lookups : list (option string)) : option string :=
  match lookups with
  | [] => None
  | Some v :: _ => Some v
  | None :: rest => first_hit rest
  end.

(** Outside a reference the text of the last reference is forgotten. *)
Definition ref_cleared (st : SubstState) : Prop :=
  subst_backtick st = false -> subst_ref st = "".

(** A scan appends to the result it starts with. *)
Definition prepend (r : string) (st : SubstState) : SubstState :=
  {| subst_backtick := subst_backtick st; subst_ref := subst_ref st;
     subst_result := r +:+ subst_result st |}.

(** *** Variable arguments *)

(** The text that [_fill_varargs] collects, said directly: the pairs of
    the argument map, in the order of its iteration, whose key is absent
    from the definitions, each printed as [key(value) ] (with the space). *)
Fixpoint concat_strings (l : list string) : string :=
  match l with
  | [] => ""
  | s :: rest => s +:+ concat_strings rest
  end.

Definition print_vararg (kv : string * string) : string :=
  fst kv +:+ "(" +:+ snd kv +:+ ") ".

Definition is_vararg {utils : StringUtils} (defs : CfgArgs) (kv : string * string) : bool :=
  match cfg_args_get defs (fst kv) with
  | None => true
  | Some _ => false
  end.

Definition varargs_text {utils : StringUtils} {table : HashTableOrder}
    (defs args : CfgArgs) : string :=
  concat_strings (map print_vararg (List.filter (is_vararg defs) (g_hash_table_pairs args))).

(** Every key of the map is a normalized key, as in a map that was filled
    by [cfg_args_set]. *)
Definition keys_normalized {utils : StringUtils} (self : CfgArgs) : Prop :=
  forall (k v : string), self !! k = Some v -> normalize_key k = k.

(** *** The driver *)

Section DriverPredicates.
Context {yyscan_t : Type} {tokens : GrammarTokens}
        {collaborators : Collaborators yyscan_t}.

(** The token fetched is one that [cfg_lexer_lex] consumes itself: the
    pragma mark, the include keyword outside a pragma, an identifier that
    names a block generator of the current context. *)
Definition intercepted (w : World yyscan_t) (tok : Z) (yylval : YYSTYPE) : bool :=
  (tok =? LL_PRAGMA)
  || ((tok =? KW_INCLUDE)
      && negb (cfg_lexer_get_context_type (lexer w) =? LL_CONTEXT_PRAGMA))
  || ((tok =? LL_IDENTIFIER)
      && bool_decide (is_Some (yy_cptr yylval ≫=
           cfg_lexer_find_generator (lexer w) (cfg_lexer_get_context_type (lexer w))))).

(** Modelled from the spec: the scanner, which is not among the sources,
    maintains the location of the include frame it reads from and hands
    out that location with the token.  Nothing is asked of it at the end
    of the input, where it returns 0. *)
Definition scanner_tracks_location : Prop :=
  forall (yylval : YYSTYPE) (yylloc : YYLTYPE) (w : World yyscan_t)
         (tok : Z) (v : YYSTYPE) (l : YYLTYPE) (w' : World yyscan_t),
    _cfg_lexer_lex yylval yylloc w = (tok, v, l, w') ->
    tok <> 0 ->
    l = lvl_lloc (current_include_level (lexer w')).

(** [cfg_set_version] is called with the configuration; it has no way to
    the lexer. *)
Definition version_keeps_lexer : Prop :=
  forall (w : World yyscan_t) (v : Z), lexer (cfg_set_version w v) = lexer w.

(** The values written to the suppression counter so far. *)
Definition suppress_writes (evs : list Event) : list Z :=
  omap (fun e => match e with SuppressWrite v => Some v | _ => None end) evs.

(** The counter of the world is [c] and it has never been negative. *)
Definition suppression_at (c : Z) (w : World yyscan_t) : Prop :=
  preprocess_suppress_tokens (lexer w) = c /\
  Forall (fun v => 0 <= v) (suppress_writes (events w)).

(** A lexer function keeps the counter at [c]. *)
Definition lex_keeps (c : Z) (lex : LexFunction) : Prop :=
  forall (w : World yyscan_t) (v : YYSTYPE) (l : YYLTYPE) tok v' l' w',
    suppression_at c w -> lex w v l = Some (tok, v', l', w') -> suppression_at c w'.

(** The collaborators leave the suppression counter balanced: the scanner,
    the include and version primitives and the generators do not write it,
    and a parser that pulls its tokens from a lexer function which keeps
    the counter keeps it as well. *)
Record Balanced : Prop := {
  scanner_balanced : forall c v l w,
    suppression_at c w -> suppression_at c (snd (_cfg_lexer_lex v l w));
  block_state_balanced : forall self s,
    preprocess_suppress_tokens (cfg_lexer_start_block_state self s)
      = preprocess_suppress_tokens self;
  pragma_balanced : forall c lex,
    lex_keeps c lex ->
    forall w ok w', suppression_at c w -> pragma_parser_parse lex w = Some (ok, w') ->
                    suppression_at c w';
  block_ref_balanced : forall c lex,
    lex_keeps c lex ->
    forall w args w', suppression_at c w -> block_ref_parser_parse lex w = Some (args, w') ->
                      suppression_at c w';
  include_file_balanced : forall c w path,
    suppression_at c w -> suppression_at c (snd (cfg_lexer_include_file w path));
  generator_balanced : forall c f w context name args data,
    suppression_at c w -> suppression_at c (snd (call_generator f w context name args data));
  set_version_balanced : forall c w v,
    suppression_at c w -> suppression_at c (cfg_set_version w v)
}.

End DriverPredicates.

(* ================================================================== *)
(** ** Instances and inputs of the examples *)
(* ================================================================== *)

(** Token identifiers for the examples; the lexer only needs them to be
    pairwise distinct and different from the character tokens. *)
Definition example_tokens : GrammarTokens :=
  {| LL_IDENTIFIER := 10421; LL_STRING := 10424; LL_TOKEN := 10425;
     LL_PRAGMA := 10427; LL_ERROR := 10429; KW_INCLUDE := 10504 |}.

(** Modelled from the spec: [normalize_key], which is not among the
    sources, turns the ASCII letters of a key to lower case and replaces
    every hyphen by an underscore. *)
Definition normalize_char (c : ascii) : ascii :=
  if Ascii.eqb c "-" then "_"%char
  else let n := nat_of_ascii c in
       if (65 <=? n)%nat && (n <=? 90)%nat then ascii_of_nat (n + 32) else c.

Fixpoint normalize_key_spec (key : string) : string :=
  match key with
  | EmptyString => EmptyString
  | String c key' => String (normalize_char c) (normalize_key_spec key')
  end.

Definition spec_string_utils : StringUtils := {| normalize_key := normalize_key_spec |}.

(** An environment without variables, for the examples. *)
Definition empty_environment : ProcessEnvironment := {| g_getenv := fun _ => None |}.

(** An order of the hash tables for the examples, which lets them be
    followed by hand: the pairs by ascending key.  The theorems hold for
    every order. *)
Definition key_le (p q : string * string) : Prop := String.leb (fst p) (fst q) = true.

#[global] Instance key_le_dec : RelDecision key_le :=
  fun p q => decide (String.leb (fst p) (fst q) = true).

Definition sorted_pairs (m : CfgArgs) : list (string * string) :=
  merge_sort key_le (map_to_list m).

Definition sorted_table_order : HashTableOrder :=
  {| g_hash_table_pairs := sorted_pairs;
     g_hash_table_pairs_all := fun m => merge_sort_Permutation key_le (map_to_list m) |}.

(** A keyword table entry for the examples. *)
Definition plain_keyword (name : string) (token : Z) (req : Z) : CfgLexerKeyword :=
  {| kw_name := name; kw_token := token; kw_req_version := req;
     kw_status := KWS_NORMAL; kw_explain := None |}.

Definition keyword_context (type : Z) (keywords : list CfgLexerKeyword) : CfgLexerContext :=
  {| ctx_type := type; ctx_keywords := Some keywords; ctx_desc := "" |}.

Definition yylval_zero : YYSTYPE := {| yy_type := 0; yy_token := 0; yy_cptr := None |}.

(** The world around a new lexer. *)
Definition initial_world {yyscan_t : Type} (scanner : yyscan_t) (cfg_version : Z)
    : World yyscan_t :=
  {| lexer := cfg_lexer_init scanner;
     configuration := {| version := cfg_version; parsed_version := cfg_version |};
     events := [] |}.

(** The initial world with one more context pushed. *)
Definition world_in_context {yyscan_t : Type} (w : World yyscan_t) (type : Z)
    : World yyscan_t :=
  set_lexer w (cfg_lexer_push_context (lexer w) type None "").

(** *** A scripted instance of the collaborators *)

(** Modelled from the spec: the raw scanner, which is not among the
    sources, returns the next primitive token with its value and location
    and keeps the location of the current include frame up to date.  Here
    the scanner state is the list of the tokens that are still to come;
    at its end the scanner returns 0. *)
Record ScriptedToken : Type := {
  st_tok : Z;
  st_value : YYSTYPE;
  st_lloc : YYLTYPE;
  st_text : string
}.

Definition scripted_scan (yylval : YYSTYPE) (yylloc : YYLTYPE)
    (w : World (list ScriptedToken)) : Z * YYSTYPE * YYLTYPE * World (list ScriptedToken) :=
  let self := lexer w in
  match state self with
  | [] => (0, yylval, yylloc, w)
  | t :: rest =>
      (st_tok t, st_value t, st_lloc t,
       set_lexer w
         {| state := rest;
            include_stack :=
              <[include_depth self :=
                  {| lvl_name := lvl_name (current_include_level self);
                     lvl_lloc := st_lloc t |}]> (include_stack self);
            include_depth := include_depth self;
            context_stack := context_stack self;
            token_blocks := token_blocks self;
            generators := generators self;
            preprocess_suppress_tokens := preprocess_suppress_tokens self;
            preprocess_output := preprocess_output self;
            token_text := st_text t;
            token_pretext := "";
            globals := globals self |})
  end.

(** The scripted parsers pull one token from the lexer: the pragma parser
    accepts any token but the error token, the block reference parser
    accepts the same and returns an empty argument map.  Includes succeed
    without a new frame, generators succeed without output, and the
    version is stored as it is. *)
Definition scripted_collaborators (tokens : GrammarTokens)
    : Collaborators (list ScriptedToken) :=
  {| _cfg_lexer_lex := scripted_scan;
     cfg_lexer_start_block_state := fun self _ => self;
     pragma_parser_parse := fun lex w =>
       match lex w yylval_zero lloc_zero with
       | None => None
       | Some (tok, _, _, w') => Some (negb (tok =? LL_ERROR), w')
       end;
     block_ref_parser_parse := fun lex w =>
       match lex w yylval_zero lloc_zero with
       | None => None
       | Some (tok, _, _, w') =>
           Some (if tok =? LL_ERROR then None else Some cfg_args_new, w')
       end;
     cfg_lexer_include_file := fun w _ => (true, w);
     cfg_lexer_include_buffer := fun w _ _ _ => (true, w);
     call_generator := fun _ w _ _ _ _ => (true, w);
     cfg_set_version := fun w v =>
       {| lexer := lexer w;
          configuration := {| version := v; parsed_version := parsed_version (configuration w) |};
          events := events w |} |}.

(** The same collaborators, except that [cfg_lexer_include_buffer] refuses
    the buffer, as an include stack that is full would. *)
Definition refusing_collaborators (tokens : GrammarTokens)
    : Collaborators (list ScriptedToken) :=
  {| _cfg_lexer_lex := scripted_scan;
     cfg_lexer_start_block_state := fun self _ => self;
     pragma_parser_parse := pragma_parser_parse (Collaborators := scripted_collaborators tokens);
     block_ref_parser_parse :=
       block_ref_parser_parse (Collaborators := scripted_collaborators tokens);
     cfg_lexer_include_file := fun w _ => (false, w);
     cfg_lexer_include_buffer := fun w _ _ _ => (false, w);
     call_generator := fun _ w _ _ _ _ => (true, w);
     cfg_set_version := cfg_set_version (Collaborators := scripted_collaborators tokens) |}.

(** The scripted scanner as a scanner that hands out a copy of the
    location of the include frame: the same tokens, each with the location
    at which the scanner leaves the current frame. *)
Definition tracking_scan (yylval : YYSTYPE) (yylloc : YYLTYPE)
    (w : World (list ScriptedToken)) : Z * YYSTYPE * YYLTYPE * World (list ScriptedToken) :=
  let '(tok, v, l, w') := scripted_scan yylval yylloc w in
  (tok, v, if tok =? 0 then l else lvl_lloc (current_include_level (lexer w')), w').

Definition tracking_collaborators (tokens : GrammarTokens)
    : Collaborators (list ScriptedToken) :=
  {| _cfg_lexer_lex := tracking_scan;
     cfg_lexer_start_block_state := fun self _ => self;
     pragma_parser_parse := pragma_parser_parse (Collaborators := scripted_collaborators tokens);
     block_ref_parser_parse :=
       block_ref_parser_parse (Collaborators := scripted_collaborators tokens);
     cfg_lexer_include_file := fun w _ => (true, w);
     cfg_lexer_include_buffer := fun w _ _ _ => (true, w);
     call_generator := fun _ w _ _ _ _ => (true, w);
     cfg_set_version := cfg_set_version (Collaborators := scripted_collaborators tokens) |}.

(** *** Scripts *)

Definition token_value (tokens : GrammarTokens) (token : Z) : YYSTYPE :=
  {| yy_type := LL_TOKEN; yy_token := token; yy_cptr := None |}.

Definition lexeme_value (type : Z) (text : string) : YYSTYPE :=
  {| yy_type := type; yy_token := 0; yy_cptr := Some text |}.

Definition at_line (line column : Z) : YYLTYPE :=
  {| first_line := line; first_column := column;
     last_line := line; last_column := column + 1; lloc_level := 0 |}.

(** The tokens of [include "a.conf"; x] as the scanner hands them out. *)
Definition include_script (tokens : GrammarTokens) : list ScriptedToken :=
  [ {| st_tok := KW_INCLUDE; st_value := token_value tokens KW_INCLUDE;
       st_lloc := at_line 1 1; st_text := "include" |};
    {| st_tok := LL_STRING; st_value := lexeme_value LL_STRING "a.conf";
       st_lloc := at_line 1 9; st_text := "a.conf" |};
    {| st_tok := 59; st_value := {| yy_type := 59; yy_token := 0; yy_cptr := None |};
       st_lloc := at_line 1 17; st_text := ";" |};
    {| st_tok := LL_IDENTIFIER; st_value := lexeme_value LL_IDENTIFIER "x";
       st_lloc := at_line 2 1; st_text := "x" |} ].

(** The identifiers [a] and [b] on two lines, as the scanner hands them
    out. *)
Definition two_identifiers (tokens : GrammarTokens) : list ScriptedToken :=
  [ {| st_tok := LL_IDENTIFIER; st_value := lexeme_value LL_IDENTIFIER "a";
       st_lloc := at_line 1 1; st_text := "a" |};
    {| st_tok := LL_IDENTIFIER; st_value := lexeme_value LL_IDENTIFIER "b";
       st_lloc := at_line 2 1; st_text := "b" |} ].

(* ================================================================== *)
(** ** Further vocabulary *)
(* ================================================================== *)

(** *** Sequences of context operations *)

Section ContextSequences.
Context {yyscan_t : Type}.

(** The frames pushed one after the other, the last one ending on top. *)
Definition push_contexts (self : CfgLexer yyscan_t)
    (frames : list (Z * option (list CfgLexerKeyword) * string)) : CfgLexer yyscan_t :=
  foldl (fun s '(type, keywords, desc) => cfg_lexer_push_context s type keywords desc)
        self frames.

(** [n] calls of [cfg_lexer_pop_context]. *)
Definition pop_contexts (n : nat) (self : CfgLexer yyscan_t) : CfgLexer yyscan_t :=
  Nat.iter n cfg_lexer_pop_context self.

End ContextSequences.

(** The type that is current after frames with the requested types
    [types] were pushed over a frame of type [current]: a request of 0
    keeps it. *)
Definition inherited_type (current : Z) (types : list Z) : Z :=
  foldl (fun cur type => if type =? 0 then cur else type) current types.

(** *** Keyword resolution *)

(** The identifier with its hyphens written as underscores. *)
Fixpoint hyphens_to_underscores (s : string) : string :=
  match s with
  | EmptyString => EmptyString
  | String c s' =>
      String (if Ascii.eqb c "-" then "_"%char else c) (hyphens_to_underscores s')
  end.

(** What a resolution leaves besides the semantic value: the token, the
    context stack and the messages. *)
Definition resolution_outcome (r : Z * YYSTYPE * list CfgLexerContext * list Event)
    : Z * list CfgLexerContext * list Event :=
  (fst (fst (fst r)), snd (fst r), snd r).

(** The entry [k] is in the keyword table of a frame of the stack, it is
    not the stop entry, its spelling matches the identifier and its
    required version is not above the version of the configuration. *)
Definition resolves_to (cfg_version : Z) (token : string) (l : list CfgLexerContext)
    (k : CfgLexerKeyword) : Prop :=
  exists (context : CfgLexerContext) (keywords : list CfgLexerKeyword),
    context ∈ l /\ ctx_keywords context = Some keywords /\ k ∈ keywords /\
    kw_name k <> CFG_KEYWORD_STOP /\
    keyword_spelling_matches token (kw_name k) = true /\
    kw_req_version k <= cfg_version.

(** Two entries, and two frames, that differ at most in the status of
    keywords, which may have become normal. *)
Definition same_entry (k k' : CfgLexerKeyword) : Prop :=
  kw_name k' = kw_name k /\ kw_token k' = kw_token k /\
  kw_req_version k' = kw_req_version k /\ kw_explain k' = kw_explain k /\
  (kw_status k' = kw_status k \/ kw_status k' = KWS_NORMAL).

Definition same_frame (c c' : CfgLexerContext) : Prop :=
  ctx_type c' = ctx_type c /\ ctx_desc c' = ctx_desc c /\
  option_Forall2 (Forall2 same_entry) (ctx_keywords c) (ctx_keywords c').

(** The messages are reserved word warnings only. *)
Definition reserved_word_warnings (cfg_version : Z)
    (location : option (option string * YYLTYPE)) (evs : list Event) : Prop :=
  Forall (fun e => exists k, e = reserved_word_warning cfg_version k location) evs.

(** *** Argument maps *)

Section ArgumentMapVocabulary.
Context {utils : StringUtils}.

(** The map that a sequence of [cfg_args_set] calls builds from a new
    one. *)
Definition cfg_args_of (sets : list (string * string)) : CfgArgs :=
  foldl (fun m '(name, value) => cfg_args_set m name value) cfg_args_new sets.

(** The value of the last pair of the sequence whose name has the same
    normalized form as [name]. *)
Definition last_set (sets : list (string * string)) (name : string) : option string :=
  foldl (fun found '(name', value) =>
           if decide (normalize_key name' = normalize_key name) then Some value else found)
        None sets.

(** The pair has a key that [cfg_args_validate] does not accept: there are
    no definitions, or they do not have the key. *)
Definition unknown_argument (defs : option CfgArgs) (kv : string * string) : bool :=
  match defs with
  | None => true
  | Some d => match cfg_args_get d (fst kv) with
              | None => true
              | Some _ => false
              end
  end.

Definition unknown_argument_error (context : string) (kv : string * string) : Event :=
  Message LevelError "Unknown argument"
    [ evt_tag_str "context" (Some context);
      evt_tag_str "arg" (Some (fst kv));
      evt_tag_str "value" (Some (snd kv)) ].

End ArgumentMapVocabulary.

(** *** Token blocks *)

(** The tokens added to a block one after the other. *)
Fixpoint fill_token_block (block : CfgTokenBlock) (l : list YYSTYPE)
    : Outcome CfgTokenBlock :=
  match l with
  | [] => Returns block
  | token :: rest =>
      match cfg_token_block_add_token block token with
      | Returns block' => fill_token_block block' rest
      | Aborts => Aborts
      end
  end.

(** The results of [n] calls of [cfg_token_block_get_token] and the block
    they leave. *)
Fixpoint drain_token_block (n : nat) (block : CfgTokenBlock)
    : list (option YYSTYPE) * CfgTokenBlock :=
  match n with
  | O => ([], block)
  | S n' =>
      let '(token, block') := cfg_token_block_get_token block in
      let '(tokens, block'') := drain_token_block n' block' in
      (token :: tokens, block'')
  end.

(** The tokens that a list of blocks still holds, in the order in which
    the lexer will hand them out. *)
Definition pending_tokens (blocks : list CfgTokenBlock) : list YYSTYPE :=
  concat (map (fun block => drop (tb_pos block) (tb_tokens block)) blocks).

(** The token that the lexer returns for a value taken from a block. *)
Definition injected_token_id {tokens : GrammarTokens} (token : YYSTYPE) : Z :=
  if yy_type token =? LL_TOKEN then yy_token token else yy_type token.

(* ================================================================== *)
(** ** Destruction (cfg_lexer_free) *)
(* ================================================================== *)

(** The loop of [cfg_lexer_free] over the generators: the notifier of a
    generator is called on its data when neither is NULL. *)
Fixpoint release_generators (gens : list CfgBlockGenerator) : list Event :=
  match gens with
  | [] => []
  | gen :: rest =>
      match gen_generator_data_free gen with
      | Some notify =>
          if gen_generator_data gen =? 0 then release_generators rest
          else DataFree notify (gen_generator_data gen) :: release_generators rest
      | None => release_generators rest
      end
  end.

(** [cfg_lexer_free].  Of what the function does the event log records
    the calls of the destroy notifiers; the other statements release
    memory, files and scanner buffers.  The lexer is gone afterwards:
    what is left of the world is the configuration and the log. *)
Definition cfg_lexer_free {yyscan_t : Type} (w : World yyscan_t)
    : GlobalConfig * list Event :=
  (configuration w, events w ++ release_generators (generators (lexer w))).

(** *** Sequences of registrations *)

(** A call of [cfg_lexer_register_block_generator] with a notifier. *)
Record Registration : Type := {
  reg_context : Z;
  reg_name : string;
  reg_generator : Z;
  reg_data : Z;
  reg_notify : Z
}.

Fixpoint register_all {yyscan_t : Type} (w : World yyscan_t) (l : list Registration)
    : Outcome (World yyscan_t) :=
  match l with
  | [] => Returns w
  | r :: rest =>
      match cfg_lexer_register_block_generator w (reg_context r) (reg_name r)
              (reg_generator r) (reg_data r) (Some (reg_notify r)) with
      | Returns w' => register_all w' rest
      | Aborts => Aborts
      end
  end.

(** The registration names a context of the table of context names and
    has data. *)
Definition well_formed_registration (r : Registration) : Prop :=
  0 <= reg_context r < Z.of_nat (length lexer_contexts) /\ reg_data r <> 0.

(** The calls of destroy notifiers among the events. *)
Definition data_frees (evs : list Event) : list (Z * Z) :=
  omap (fun e => match e with DataFree notify data => Some (notify, data) | _ => None end)
       evs.

(** *** What the driver leaves alone *)

Section DriverFrames.
Context {yyscan_t : Type} {tokens : GrammarTokens}
        {collaborators : Collaborators yyscan_t}.

(** A relation between the lexer before and after that the driver's own
    updates of the lexer establish. *)
Record LexerFrame (Q : CfgLexer yyscan_t -> CfgLexer yyscan_t -> Prop) : Prop := {
  frame_refl : forall s, Q s s;
  frame_trans : forall s1 s2 s3, Q s1 s2 -> Q s2 s3 -> Q s1 s3;
  frame_token_blocks : forall s l, Q s (set_token_blocks s l);
  frame_truncate : forall s, Q s (truncate_token_texts s);
  frame_suppress : forall s n, Q s (set_preprocess_suppress_tokens s n);
  frame_echo : forall s x, Q s (set_preprocess_output s (preprocess_output s +:+ x))
}.

(** A lexer function establishes the relation. *)
Definition lex_respects (Q : CfgLexer yyscan_t -> CfgLexer yyscan_t -> Prop)
    (lex : LexFunction) : Prop :=
  forall (w : World yyscan_t) (v : YYSTYPE) (l : YYLTYPE) tok v' l' w',
    lex w v l = Some (tok, v', l', w') -> Q (lexer w) (lexer w').

(** The collaborators establish the relation, the parsers provided that
    the lexer function they pull their tokens from does. *)
Record Respectful (Q : CfgLexer yyscan_t -> CfgLexer yyscan_t -> Prop) : Prop := {
  scanner_respects : forall v l w, Q (lexer w) (lexer (snd (_cfg_lexer_lex v l w)));
  block_state_respects : forall self s, Q self (cfg_lexer_start_block_state self s);
  pragma_respects : forall lex,
    lex_respects Q lex ->
    forall w ok w', pragma_parser_parse lex w = Some (ok, w') -> Q (lexer w) (lexer w');
  block_ref_respects : forall lex,
    lex_respects Q lex ->
    forall w args w', block_ref_parser_parse lex w = Some (args, w') -> Q (lexer w) (lexer w');
  include_file_respects : forall w path,
    Q (lexer w) (lexer (snd (cfg_lexer_include_file w path)));
  generator_respects : forall f w context name args data,
    Q (lexer w) (lexer (snd (call_generator f w context name args data)));
  set_version_respects : forall w v, Q (lexer w) (lexer (cfg_set_version w v))
}.

(** The context stack is the same. *)
Definition same_context_stack (s s' : CfgLexer yyscan_t) : Prop :=
  context_stack s' = context_stack s.

(** The echo of the preprocessed text has grown, or is the same. *)
Definition echo_extended (s s' : CfgLexer yyscan_t) : Prop :=
  exists x : string, preprocess_output s' = preprocess_output s +:+ x.

End DriverFrames.

(* ================================================================== *)
(** * Properties *)
(* ================================================================== *)

(** ** Keyword comparison *)

Lemma keyword_spelling_matches_iff (token kw : string) :
  keyword_spelling_matches token kw = true <->
  Forall2 char_agrees (list_ascii_of_string token) (list_ascii_of_string kw).
Proof.
  revert kw. induction token as [|t token IH]; intros [|k kw]; simpl.
  - split; [constructor | reflexivity].
  - split; [discriminate | intros H; inversion H].
  - split; [discriminate | intros H; inversion H].
  - destruct (Ascii.eqb_spec t "-") as [->|Hd]; simpl.
    + destruct (Ascii.eqb_spec k "_") as [->|Hk].
      * rewrite IH. split.
        -- intros H. constructor; [left; split; reflexivity | exact H].
        -- intros H. inversion H; assumption.
      * split; [discriminate|]. intros H. inversion H as [|? ? ? ? Hc]; subst.
        destruct Hc as [[_ ?]|[? _]]; congruence.
    + destruct (Ascii.eqb_spec t "_") as [->|Hu]; simpl.
      * destruct (Ascii.eqb_spec k "_") as [->|Hk].
        -- rewrite IH. split.
           ++ intros H. constructor; [right; split; [discriminate | reflexivity] | exact H].
           ++ intros H. inversion H; assumption.
        -- split; [discriminate|]. intros H. inversion H as [|? ? ? ? Hc]; subst.
           destruct Hc as [[? _]|[_ ?]]; congruence.
      * destruct (Ascii.eqb_spec t k) as [->|Hk].
        -- rewrite IH. split.
           ++ intros H. constructor; [right; split; [exact Hd | reflexivity] | exact H].
           ++ intros H. inversion H; assumption.
        -- split; [discriminate|]. intros H. inversion H as [|? ? ? ? Hc]; subst.
           destruct Hc as [[? _]|[_ ?]]; congruence.
Qed.

Lemma string_get_lookup (s : string) (i : nat) :
  String.get i s = list_ascii_of_string s !! i.
Proof.
  revert i. induction s as [|c s IH]; intros [|i]; simpl; auto.
Qed.

Lemma string_length_list (s : string) :
  String.length s = length (list_ascii_of_string s).
Proof. induction s; simpl; auto. Qed.

Lemma char_agrees_weaken (t k : ascii) :
  char_agrees t k -> (t = k \/ (t = "-"%char /\ k = "_"%char)) /\ (t = "-"%char -> k = "_"%char).
Proof.
  intros [[-> ->]|[Hn ->]]; split; auto. intros ->. congruence.
Qed.

(** C8. The comparison of an identifier with a keyword spelling in
    [cfg_lexer_lookup_keyword] goes position by position.  The entry
    matches only when both have the same length and at every position the
    characters are equal or the hyphen of the identifier meets an
    underscore of the spelling, a hyphen being matched by an underscore
    only; these conditions, with the hyphen case excluded from the equal
    characters, are also sufficient.  With the entry [flush_lines] in the
    keyword table of the current context the identifier [flush-lines] is
    resolved to the token of the entry and [flush.lines] stays an
    identifier. *)
Theorem keyword_comparison_positionwise :
  (forall token kw : string,
      keyword_spelling_matches token kw = true ->
      String.length token = String.length kw /\
      forall (i : nat) (t k : ascii),
        String.get i token = Some t -> String.get i kw = Some k ->
        (t = k \/ (t = "-"%char /\ k = "_"%char)) /\ (t = "-"%char -> k = "_"%char)) /\
  (forall token kw : string,
      String.length token = String.length kw ->
      (forall (i : nat) (t k : ascii),
          String.get i token = Some t -> String.get i kw = Some k -> char_agrees t k) ->
      keyword_spelling_matches token kw = true) /\
  (forall (tokens : GrammarTokens) (cfg_version req tok : Z) (v : YYSTYPE)
          (location : option (option string * YYLTYPE)),
      req <= cfg_version ->
      let stack := [keyword_context LL_CONTEXT_ROOT [plain_keyword "flush_lines" tok req]] in
      keyword_spelling_matches "flush-lines" "flush_lines" = true /\
      keyword_spelling_matches "flush.lines" "flush_lines" = false /\
      lookup_keyword_in cfg_version location "flush-lines" v stack =
        (tok, {| yy_type := LL_TOKEN; yy_token := tok; yy_cptr := yy_cptr v |}, stack, []) /\
      lookup_keyword_in cfg_version location "flush.lines" v stack =
        (LL_IDENTIFIER, set_cptr v "flush.lines", stack, [])).
Proof.
  split; [|split].
  - intros token kw H. apply keyword_spelling_matches_iff in H. split.
    + rewrite !string_length_list. eapply Forall2_length; eauto.
    + intros i t k Ht Hk. rewrite string_get_lookup in Ht, Hk.
      apply char_agrees_weaken.
      eapply Forall2_lookup_lr; eauto.
  - intros token kw Hlen H. apply keyword_spelling_matches_iff.
    apply Forall2_same_length_lookup_2.
    + rewrite <- !string_length_list. exact Hlen.
    + intros i t k Ht Hk. apply (H i); rewrite string_get_lookup; assumption.
  - intros tokens cfg_version req tok v location Hreq stack.
    assert (Hv : cfg_check_current_config_version cfg_version req = true)
      by (apply Z.leb_le; exact Hreq).
    split; [reflexivity|]. split; [reflexivity|]. split.
    + unfold stack. simpl. rewrite Hv. reflexivity.
    + unfold stack. simpl. reflexivity.
Qed.

Lemma keyword_comparison_positionwise_witness :
  String.length "flush-lines" = String.length "flush_lines" /\
  (String.get 5 "flush-lines" = Some "-"%char -> String.get 5 "flush_lines" = Some "_"%char ->
   ("-"%char = "_"%char \/ ("-"%char = "-"%char /\ "_"%char = "_"%char)) /\
   ("-"%char = "-"%char -> "_"%char = "_"%char)).
Proof.
  destruct keyword_comparison_positionwise as [H _].
  destruct (H "flush-lines" "flush_lines" eq_refl) as [Hlen Hpos].
  split; [exact Hlen|]. intros Ht Hk. exact (Hpos 5%nat _ _ Ht Hk).
Defined.

(** ** Reserved words *)

Lemma scan_keywords_reserved (cfg_version : Z) (token : string)
    (pre : list CfgLexerKeyword) (k : CfgLexerKeyword) (rest : list CfgLexerKeyword) :
  Forall (passed_by token) pre ->
  kw_name k <> CFG_KEYWORD_STOP ->
  keyword_spelling_matches token (kw_name k) = true ->
  cfg_version < kw_req_version k ->
  forall i : nat,
    scan_keywords cfg_version token i (pre ++ k :: rest) = ScanReserved (i + length pre) k.
Proof.
  intros Hpre Hstop Hmatch Hver.
  induction Hpre as [|e pre [Hes Hem] _ IH]; intros i; simpl.
  - apply String.eqb_neq in Hstop. rewrite Hstop, Hmatch.
    unfold cfg_check_current_config_version.
    destruct (Z.leb_spec (kw_req_version k) cfg_version); [lia|].
    f_equal. lia.
  - apply String.eqb_neq in Hes. rewrite Hes, Hem, IH. f_equal. lia.
Qed.

(** C1 (as amended).  When the scan of the keyword table of a context
    frame reaches an entry whose spelling matches the identifier and whose
    required version exceeds the active version of the configuration,
    [cfg_lexer_lookup_keyword] emits one reserved word warning for this
    occurrence, leaves the table (the entries after the reserved one are
    not consulted) and goes on with the frames below: the result is the
    result of the resolution against the rest of the stack, after the
    warning.  With no frame below, the occurrence is an identifier. *)
Theorem reserved_word_leaves_the_table
    (tokens : GrammarTokens) (cfg_version : Z)
    (location : option (option string * YYLTYPE)) (token : string) (yylval : YYSTYPE)
    (context : CfgLexerContext) (next : list CfgLexerContext)
    (pre : list CfgLexerKeyword) (k : CfgLexerKeyword) (rest : list CfgLexerKeyword) :
  ctx_keywords context = Some (pre ++ k :: rest) ->
  Forall (passed_by token) pre ->
  kw_name k <> CFG_KEYWORD_STOP ->
  keyword_spelling_matches token (kw_name k) = true ->
  cfg_version < kw_req_version k ->
  lookup_keyword_in cfg_version location token yylval (context :: next) =
    (let '(tok, v, next', evs) :=
       lookup_keyword_in cfg_version location token yylval next in
     (tok, v, context :: next', reserved_word_warning cfg_version k location :: evs)) /\
  (next = [] ->
   lookup_keyword_in cfg_version location token yylval (context :: next) =
     (LL_IDENTIFIER, set_cptr yylval token, [context],
      [reserved_word_warning cfg_version k location])).
Proof.
  intros Hkw Hpre Hstop Hmatch Hver.
  assert (Heq : lookup_keyword_in cfg_version location token yylval (context :: next) =
    (let '(tok, v, next', evs) :=
       lookup_keyword_in cfg_version location token yylval next in
     (tok, v, context :: next', reserved_word_warning cfg_version k location :: evs))).
  { simpl. rewrite Hkw.
    rewrite (scan_keywords_reserved cfg_version token pre k rest Hpre Hstop Hmatch Hver).
    destruct (lookup_keyword_in cfg_version location token yylval next) as [[[tok v] next'] evs].
    reflexivity. }
  split; [exact Heq|].
  intros ->. rewrite Heq. reflexivity.
Qed.

Lemma reserved_word_leaves_the_table_witness :
  lookup_keyword_in (tokens := example_tokens) 0x0300 None "foo" yylval_zero
    [ keyword_context LL_CONTEXT_ROOT
        [plain_keyword "bar" 100 0; plain_keyword "foo" 101 0x0400; plain_keyword "baz" 102 0] ] =
  (10421, set_cptr yylval_zero "foo",
   [ keyword_context LL_CONTEXT_ROOT
       [plain_keyword "bar" 100 0; plain_keyword "foo" 101 0x0400; plain_keyword "baz" 102 0] ],
   [reserved_word_warning 0x0300 (plain_keyword "foo" 101 0x0400) None]).
Proof.
  refine (proj2 (reserved_word_leaves_the_table example_tokens 0x0300 None "foo" yylval_zero
            (keyword_context LL_CONTEXT_ROOT
               [plain_keyword "bar" 100 0; plain_keyword "foo" 101 0x0400;
                plain_keyword "baz" 102 0])
            [] [plain_keyword "bar" 100 0] (plain_keyword "foo" 101 0x0400)
            [plain_keyword "baz" 102 0] eq_refl _ _ eq_refl eq_refl) eq_refl).
  - repeat constructor; discriminate.
  - discriminate.
Defined.

(** C1 (as stated) fails.  At version 3.0 the table [foo] (required
    version 4.0, token 100), [foo] (no required version, token 200) has a
    later entry that matches the identifier [foo] and is allowed, yet the
    identifier is not resolved to the token 200: the table is left at the
    reserved entry.  And with the second entry in the table of a frame
    below, the occurrence is not treated as an identifier: it is resolved
    to the token 200 of the lower frame. *)
Lemma reserved_word_continues_in_table_counterexample :
  scan_keywords 0x0300 "foo" 1 [plain_keyword "foo" 200 0]
    = ScanToken 1 (plain_keyword "foo" 200 0) /\
  fst (fst (fst (lookup_keyword_in (tokens := example_tokens) 0x0300 None "foo" yylval_zero
    [ keyword_context LL_CONTEXT_ROOT
        [plain_keyword "foo" 100 0x0400; plain_keyword "foo" 200 0] ])))
    = @LL_IDENTIFIER example_tokens /\
  @LL_IDENTIFIER example_tokens <> 200 /\
  fst (fst (fst (lookup_keyword_in (tokens := example_tokens) 0x0300 None "foo" yylval_zero
    [ keyword_context LL_CONTEXT_SOURCE [plain_keyword "foo" 100 0x0400];
      keyword_context LL_CONTEXT_ROOT [plain_keyword "foo" 200 0] ])))
    = 200.
Proof.
  split; [reflexivity|]. split; [reflexivity|]. split; [discriminate|reflexivity].
Qed.

(** ** Context names *)

Lemma lexer_contexts_value :
  lexer_contexts =
  [ None; Some "root"; Some "destination"; Some "source"; Some "parser";
    Some "rewrite"; Some "filter"; Some "log"; Some "block-def"; Some "block-ref";
    Some "block-content"; None; Some "pragma"; Some "format"; Some "template-func";
    Some "inner-dest"; Some "inner-src"; Some "client-proto"; Some "server-proto" ].
Proof. reflexivity. Qed.

Lemma context_type_from_range (entries : list (option string)) (i : Z)
    (name : option string) (r : Z) :
  context_type_from entries i name = Returns r ->
  r = 0 \/ exists n s, entries !! n = Some (Some s) /\ r = i + Z.of_nat n.
Proof.
  revert i. induction entries as [|e entries IH]; intros i; simpl.
  - intros [= <-]. left. reflexivity.
  - destruct e as [s|].
    + destruct name as [n|]; [|discriminate].
      destruct (String.eqb s n).
      * intros [= <-]. right. exists 0%nat, s. split; [reflexivity|lia].
      * intros H. destruct (IH _ H) as [->|(m & s' & Hm & ->)]; [left; reflexivity|].
        right. exists (S m), s'. split; [exact Hm|lia].
    + intros H. destruct (IH _ H) as [->|(m & s' & Hm & ->)]; [left; reflexivity|].
      right. exists (S m), s'. split; [exact Hm|lia].
Qed.

(** The round trip holds for the seventeen context types that have a
    designated name. *)
Lemma context_round_trip_named (t : Z) :
  1 <= t <= 18 -> t <> LL_CONTEXT_BLOCK_ARG -> context_round_trip t = Returns t.
Proof.
  intros Hrange Hne. unfold LL_CONTEXT_BLOCK_ARG in Hne.
  assert (Hcases : t = 1 \/ t = 2 \/ t = 3 \/ t = 4 \/ t = 5 \/ t = 6 \/ t = 7 \/ t = 8 \/
                   t = 9 \/ t = 10 \/ t = 12 \/ t = 13 \/ t = 14 \/ t = 15 \/ t = 16 \/
                   t = 17 \/ t = 18) by lia.
  repeat (destruct Hcases as [->|Hcases]; [reflexivity|]).
  subst t. reflexivity.
Qed.

(** C7 at the context type block-arg.  [lexer_contexts] has no designated
    name for LL_CONTEXT_BLOCK_ARG: the lookup by type returns NULL for it,
    the lookup by name that is handed this NULL does not return, and no
    name at all is mapped to LL_CONTEXT_BLOCK_ARG.  So the round trip,
    which the other seventeen types make, fails for this one. *)
Theorem context_round_trip_block_arg :
  cfg_lexer_lookup_context_name_by_type LL_CONTEXT_BLOCK_ARG = Returns None /\
  context_round_trip LL_CONTEXT_BLOCK_ARG = Aborts /\
  (forall name : option string,
      cfg_lexer_lookup_context_type_by_name name <> Returns LL_CONTEXT_BLOCK_ARG) /\
  context_round_trip LL_CONTEXT_BLOCK_CONTENT = Returns LL_CONTEXT_BLOCK_CONTENT /\
  context_round_trip LL_CONTEXT_PRAGMA = Returns LL_CONTEXT_PRAGMA.
Proof.
  split; [reflexivity|]. split; [reflexivity|]. split; [|split; reflexivity].
  intros name H. unfold cfg_lexer_lookup_context_type_by_name in H.
  apply context_type_from_range in H.
  destruct H as [H|(n & s & Hn & Hr)]; [discriminate|].
  assert (n = 11%nat) by (unfold LL_CONTEXT_BLOCK_ARG in Hr; lia). subst n.
  rewrite lexer_contexts_value in Hn. discriminate.
Qed.

(** ** Registration of block generators *)

Lemma find_generator_in_Some (l : list CfgBlockGenerator) (context : Z) (name : string)
    (gen : CfgBlockGenerator) :
  find_generator_in l context name = Some gen -> gen ∈ l /\ answers_to context name gen.
Proof.
  induction l as [|g l IH]; simpl; [discriminate|].
  destruct (generator_matches g context name) eqn:Hm.
  - intros [= <-]. split; [left|].
    unfold generator_matches in Hm.
    apply andb_true_iff in Hm as [Hc Hn]. apply orb_true_iff in Hc.
    apply String.eqb_eq in Hn. split; [|exact Hn].
    destruct Hc as [Hc|Hc]; apply Z.eqb_eq in Hc; auto.
  - intros H. destruct (IH H) as [Hin Ha]. split; [right; exact Hin | exact Ha].
Qed.

Lemma find_generator_in_None (l : list CfgBlockGenerator) (context : Z) (name : string) :
  find_generator_in l context name = None ->
  forall gen, gen ∈ l -> ~ answers_to context name gen.
Proof.
  induction l as [|g l IH]; simpl; intros H gen Hin.
  - inversion Hin.
  - destruct (generator_matches g context name) eqn:Hm; [discriminate|].
    apply elem_of_cons in Hin as [->|Hin]; [|exact (IH H gen Hin)].
    intros [Hc Hn]. unfold generator_matches in Hm.
    apply andb_false_iff in Hm as [Hm|Hm].
    + apply orb_false_iff in Hm as [H0 H1].
      apply Z.eqb_neq in H0. apply Z.eqb_neq in H1. destruct Hc; contradiction.
    + apply String.eqb_neq in Hm. contradiction.
Qed.

(** C4 (as amended).  For a context type within the table of context names
    and a destroy notifier that is not NULL,
    [cfg_lexer_register_block_generator] rejects the registration exactly
    when a registered generator answers to the pair: it has the same name
    and either the same context or the context 0, which stands for any
    context.  A rejection leaves the lexer as it is, reports at debug level
    and calls the notifier on the incoming data once; otherwise the new
    generator is appended to the list and nothing is reported or freed. *)
Theorem register_block_generator_rejects_iff_answered
    {yyscan_t : Type} (w : World yyscan_t) (context : Z) (name : string)
    (generator generator_data notify : Z) :
  0 <= context < Z.of_nat (length lexer_contexts) ->
  exists w' : World yyscan_t,
    cfg_lexer_register_block_generator w context name generator generator_data (Some notify)
      = Returns w' /\
    (((exists gen, gen ∈ generators (lexer w) /\ answers_to context name gen) /\
      lexer w' = lexer w /\
      configuration w' = configuration w /\
      exists context_name,
        cfg_lexer_lookup_context_name_by_type context = Returns context_name /\
        events w' = events w ++ [ duplicate_generator_report context_name name;
                                  DataFree notify generator_data ])
     \/
     ((forall gen, gen ∈ generators (lexer w) -> ~ answers_to context name gen) /\
      generators (lexer w') =
        generators (lexer w) ++
        [ {| gen_context := context; gen_name := name; gen_generator := generator;
             gen_generator_data := generator_data;
             gen_generator_data_free := Some notify |} ] /\
      configuration w' = configuration w /\
      events w' = events w)).
Proof.
  intros Hrange. unfold cfg_lexer_register_block_generator, cfg_lexer_find_generator.
  destruct (find_generator_in (generators (lexer w)) context name) as [gen|] eqn:Hfind.
  - unfold cfg_lexer_lookup_context_name_by_type.
    assert (Hin : (0 <=? context) && (context <? Z.of_nat (length lexer_contexts)) = true).
    { apply andb_true_iff. split; [apply Z.leb_le | apply Z.ltb_lt]; lia. }
    rewrite Hin. eexists. split; [reflexivity|]. left.
    apply find_generator_in_Some in Hfind. split; [exists gen; exact Hfind|].
    split; [reflexivity|]. split; [reflexivity|].
    eexists. split; reflexivity.
  - eexists. split; [reflexivity|]. right.
    split; [exact (find_generator_in_None _ _ _ Hfind)|].
    split; [reflexivity|]. split; reflexivity.
Qed.

Lemma register_block_generator_rejects_iff_answered_witness :
  exists w' : World unit,
    cfg_lexer_register_block_generator (initial_world tt 0x0300) LL_CONTEXT_SOURCE "myblk"
      4096 8192 (Some 12288) = Returns w' /\
    generators (lexer w') =
      [ {| gen_context := LL_CONTEXT_SOURCE; gen_name := "myblk"; gen_generator := 4096;
           gen_generator_data := 8192; gen_generator_data_free := Some 12288 |} ] /\
    events w' = [].
Proof.
  destruct (register_block_generator_rejects_iff_answered (initial_world tt 0x0300)
              LL_CONTEXT_SOURCE "myblk" 4096 8192 12288)
    as (w' & Hreg & Hcases).
  - vm_compute. split; [discriminate | reflexivity].
  - exists w'. split; [exact Hreg|].
    destruct Hcases as [[(gen & Hin & _) _] | (_ & Hgens & _ & Hevents)].
    + exfalso. simpl in Hin. inversion Hin.
    + split; [exact Hgens | exact Hevents].
Defined.

(** C4 (as stated) fails.  With the only registered generator being
    [foo] for any context (context 0), the registration of [foo] for the
    context source is rejected, its data is freed and the list is left
    unchanged, although no entry with the pair (source, foo) exists. *)
Lemma register_block_generator_same_pair_counterexample :
  let registered := {| gen_context := 0; gen_name := "foo"; gen_generator := 4096;
                       gen_generator_data := 8192; gen_generator_data_free := Some 12288 |} in
  let w : World unit :=
    set_lexer (initial_world tt 0x0300)
              (set_generators (lexer (initial_world tt 0x0300)) [registered]) in
  (forall gen, gen ∈ generators (lexer w) ->
     ~ (gen_context gen = LL_CONTEXT_SOURCE /\ gen_name gen = "foo")) /\
  cfg_lexer_register_block_generator w LL_CONTEXT_SOURCE "foo" 4100 8200 (Some 12288)
    = Returns (emit w [ duplicate_generator_report (Some "source") "foo";
                        DataFree 12288 8200 ]) /\
  generators (lexer (emit w [ duplicate_generator_report (Some "source") "foo";
                              DataFree 12288 8200 ])) = [registered].
Proof.
  intros registered w. split; [|split; reflexivity].
  intros gen Hin [Hc _]. simpl in Hin.
  apply list_elem_of_singleton in Hin. subst gen. discriminate.
Qed.

(** ** Back-tick substitution *)

Lemma string_app_cons (c : ascii) (s t : string) : String c s +:+ t = String c (s +:+ t).
Proof. reflexivity. Qed.

Lemma string_app_nil_l (t : string) : "" +:+ t = t.
Proof. reflexivity. Qed.

Lemma string_app_nil_r (s : string) : s +:+ "" = s.
Proof. induction s as [|c s IH]; [reflexivity|]. rewrite string_app_cons, IH. reflexivity. Qed.

Lemma string_app_assoc (s t u : string) : (s +:+ t) +:+ u = s +:+ (t +:+ u).
Proof.
  induction s as [|c s IH]; [reflexivity|]. rewrite !string_app_cons, IH. reflexivity.
Qed.

Lemma count_backticks_app (s t : string) :
  count_backticks (s +:+ t) = (count_backticks s + count_backticks t)%nat.
Proof.
  induction s as [|c s IH]; [reflexivity|].
  rewrite string_app_cons. simpl. rewrite IH. lia.
Qed.

Section SubstitutionFacts.
Context {utils : StringUtils} {environ : ProcessEnvironment}.
Variables globals defs args : option CfgArgs.

Local Abbreviation scan := (subst_scan globals defs args).
Local Abbreviation step := (subst_step globals defs args).

Lemma subst_scan_app (s t : string) (st : SubstState) :
  scan (s +:+ t) st = scan t (scan s st).
Proof.
  revert st. induction s as [|c s IH]; intros st; [reflexivity|].
  rewrite string_app_cons. simpl. apply IH.
Qed.

(** The flag after a scan: every back-tick toggles it. *)
Lemma subst_step_backtick (st : SubstState) (c : ascii) :
  subst_backtick (step st c) = xorb (subst_backtick st) (Ascii.eqb c "`").
Proof.
  unfold subst_step. destruct (subst_backtick st), (Ascii.eqb c "`"); simpl;
    try reflexivity.
  destruct (String.eqb (subst_ref st) ""); reflexivity.
Qed.

Lemma subst_scan_backtick (p : string) (st : SubstState) :
  subst_backtick (scan p st) = xorb (subst_backtick st) (Nat.odd (count_backticks p)).
Proof.
  revert st. induction p as [|c p IH]; intros st; simpl.
  - destruct (subst_backtick st); reflexivity.
  - rewrite IH, subst_step_backtick.
    destruct (Ascii.eqb c "`"); simpl.
    + rewrite Nat.odd_succ, <- Nat.negb_odd.
      destruct (subst_backtick st), (Nat.odd (count_backticks p)); reflexivity.
    + destruct (subst_backtick st); reflexivity.
Qed.

Lemma subst_step_ref_cleared (st : SubstState) (c : ascii) :
  ref_cleared st -> ref_cleared (step st c).
Proof.
  unfold ref_cleared, subst_step. intros H.
  destruct (subst_backtick st), (Ascii.eqb c "`"); simpl; auto; try discriminate.
  destruct (String.eqb (subst_ref st) ""); reflexivity.
Qed.

Lemma subst_scan_ref_cleared (p : string) (st : SubstState) :
  ref_cleared st -> ref_cleared (scan p st).
Proof.
  revert st. induction p as [|c p IH]; intros st H; simpl; [exact H|].
  apply IH, subst_step_ref_cleared, H.
Qed.

Lemma subst_step_prepend (r : string) (st : SubstState) (c : ascii) :
  step (prepend r st) c = prepend r (step st c).
Proof.
  unfold subst_step, prepend. simpl.
  destruct (subst_backtick st), (Ascii.eqb c "`"); simpl;
    try (rewrite string_app_assoc; reflexivity); try reflexivity.
  destruct (String.eqb (subst_ref st) ""); simpl; rewrite string_app_assoc; reflexivity.
Qed.

Lemma subst_scan_prepend (r : string) (p : string) (st : SubstState) :
  scan p (prepend r st) = prepend r (scan p st).
Proof.
  revert st. induction p as [|c p IH]; intros st; simpl; [reflexivity|].
  rewrite subst_step_prepend. apply IH.
Qed.

(** Inside a reference the characters that are not back-ticks are
    collected as the name. *)
Lemma subst_scan_name (name : string) (ref res : string) :
  count_backticks name = 0%nat ->
  scan name {| subst_backtick := true; subst_ref := ref; subst_result := res |} =
    {| subst_backtick := true; subst_ref := ref +:+ name; subst_result := res |}.
Proof.
  revert ref. induction name as [|c name IH]; intros ref Hc; simpl.
  - rewrite string_app_nil_r. reflexivity.
  - simpl in Hc. destruct (Ascii.eqb c "`") eqn:Hb; [discriminate|].
    unfold subst_step. simpl. rewrite Hb. simpl.
    rewrite IH by exact Hc. rewrite string_app_assoc. reflexivity.
Qed.

(** The scan of a closed reference that starts outside a reference. *)
Lemma subst_scan_reference (name : string) (ref res : string) :
  name <> "" -> count_backticks name = 0%nat ->
  scan (String "`" (name +:+ "`"))
       {| subst_backtick := false; subst_ref := ref; subst_result := res |} =
    {| subst_backtick := false; subst_ref := "";
       subst_result := res +:+ default "" (resolve_reference globals defs args name) |}.
Proof.
  intros Hne Hc.
  change (scan (String "`" (name +:+ "`")) ?st) with (scan (name +:+ "`") (step st "`")).
  replace (step {| subst_backtick := false; subst_ref := ref; subst_result := res |} "`")
    with {| subst_backtick := true; subst_ref := ""; subst_result := res |} by reflexivity.
  rewrite subst_scan_app, (subst_scan_name name "" res Hc), string_app_nil_l.
  simpl. unfold subst_step. simpl.
  apply String.eqb_neq in Hne. rewrite Hne. reflexivity.
Qed.

End SubstitutionFacts.

Lemma last_backtick (s : string) :
  count_backticks s <> 0%nat ->
  exists pre post : string,
    s = pre +:+ String "`" post /\ count_backticks post = 0%nat /\
    count_backticks s = S (count_backticks pre).
Proof.
  induction s as [|c s IH]; simpl; [congruence|]. intros Hc.
  destruct (Nat.eq_dec (count_backticks s) 0%nat) as [Hz|Hnz].
  - destruct (Ascii.eqb_spec c "`") as [->|Hne]; [|simpl in Hc; congruence].
    exists "", s. repeat split; [exact Hz | rewrite Hz; reflexivity].
  - destruct (IH Hnz) as (pre & post & -> & Hpost & Hcount).
    exists (String c pre), post. rewrite string_app_cons. repeat split; [exact Hpost|].
    simpl. rewrite Hcount. lia.
Qed.

Lemma unterminated_reference_odd (cptr : string) :
  unterminated_reference cptr <-> Nat.odd (count_backticks cptr) = true.
Proof.
  split.
  - intros (pre & post & -> & Heven & Hpost).
    assert (Hcount : count_backticks (pre +:+ String "`" post) = S (count_backticks pre))
      by (rewrite count_backticks_app; simpl; lia).
    rewrite Hcount, Nat.odd_succ. exact Heven.
  - intros Hodd.
    destruct (last_backtick cptr) as (pre & post & -> & Hpost & Hcount).
    { intros Hz. rewrite Hz in Hodd. discriminate. }
    exists pre, post. repeat split; [|exact Hpost].
    rewrite Hcount, Nat.odd_succ in Hodd. exact Hodd.
Qed.

Lemma resolve_reference_first_hit {utils : StringUtils} {environ : ProcessEnvironment}
    (globals defs args : option CfgArgs) (name : string) :
  resolve_reference globals defs args name =
    first_hit [ args ≫= (fun a => cfg_args_get a name);
                defs ≫= (fun d => cfg_args_get d name);
                globals ≫= (fun g => cfg_args_get g name);
                g_getenv name ].
Proof.
  unfold resolve_reference. simpl.
  destruct (args ≫= _); [reflexivity|].
  destruct (defs ≫= _); [reflexivity|].
  destruct (globals ≫= _); [reflexivity|].
  destruct (g_getenv name); reflexivity.
Qed.

Lemma subst_args_Some {utils : StringUtils} {environ : ProcessEnvironment}
    (globals defs args : option CfgArgs) (cptr r : string) (n : Z) :
  cfg_lexer_subst_args globals defs args cptr = Some (r, n) ->
  subst_backtick (subst_scan globals defs args cptr subst_initial) = false /\
  subst_result (subst_scan globals defs args cptr subst_initial) = r.
Proof.
  unfold cfg_lexer_subst_args.
  destruct (subst_backtick _); [discriminate|]. intros [= <- _]. split; reflexivity.
Qed.

(** The state a scan from the initial state ends in, when it ends outside
    a reference. *)
Lemma subst_scan_outside {utils : StringUtils} {environ : ProcessEnvironment}
    (globals defs args : option CfgArgs) (cptr : string) :
  subst_backtick (subst_scan globals defs args cptr subst_initial) = false ->
  subst_scan globals defs args cptr subst_initial =
    {| subst_backtick := false; subst_ref := "";
       subst_result := subst_result (subst_scan globals defs args cptr subst_initial) |}.
Proof.
  intros Hb.
  pose proof (subst_scan_ref_cleared globals defs args cptr subst_initial
                (fun _ => eq_refl) Hb) as Hr.
  destruct (subst_scan globals defs args cptr subst_initial) as [b r res].
  simpl in *. subst. reflexivity.
Qed.

(** The scan of a buffer with a closed reference in it. *)
Lemma subst_scan_around_reference {utils : StringUtils} {environ : ProcessEnvironment}
    (globals defs args : option CfgArgs) (pre name post : string) :
  subst_backtick (subst_scan globals defs args pre subst_initial) = false ->
  name <> "" -> count_backticks name = 0%nat ->
  subst_scan globals defs args (pre +:+ String "`" (name +:+ String "`" post)) subst_initial =
    prepend (subst_result (subst_scan globals defs args pre subst_initial) +:+
             default "" (resolve_reference globals defs args name))
            (subst_scan globals defs args post subst_initial).
Proof.
  intros Hpre Hne Hc.
  rewrite subst_scan_app, (subst_scan_outside _ _ _ pre Hpre).
  replace (String "`" (name +:+ String "`" post))
    with (String "`" (name +:+ "`") +:+ post)
    by (rewrite string_app_cons, string_app_assoc; reflexivity).
  rewrite subst_scan_app, subst_scan_reference by assumption.
  rewrite <- subst_scan_prepend. unfold prepend, subst_initial. simpl.
  rewrite string_app_nil_r. reflexivity.
Qed.

Lemma subst_scan_after {utils : StringUtils} {environ : ProcessEnvironment}
    (globals defs args : option CfgArgs) (pre post : string) :
  subst_backtick (subst_scan globals defs args pre subst_initial) = false ->
  subst_scan globals defs args (pre +:+ post) subst_initial =
    prepend (subst_result (subst_scan globals defs args pre subst_initial))
            (subst_scan globals defs args post subst_initial).
Proof.
  intros Hpre.
  rewrite subst_scan_app, (subst_scan_outside _ _ _ pre Hpre).
  rewrite <- subst_scan_prepend. unfold prepend, subst_initial. simpl.
  rewrite string_app_nil_r. reflexivity.
Qed.

(** C6.  [cfg_lexer_subst_args] returns NULL exactly when the buffer has an
    unterminated back-tick reference.  A closed reference whose name is in
    none of args, defs, globals and the environment does not make it fail:
    the buffer is substituted as the buffer without the reference is, the
    reference contributing the empty string. *)
Theorem subst_args_fails_iff_unterminated
    {utils : StringUtils} {environ : ProcessEnvironment}
    (globals defs args : option CfgArgs) :
  (forall cptr : string,
      cfg_lexer_subst_args globals defs args cptr = None <-> unterminated_reference cptr) /\
  (forall pre name post : string,
      Nat.even (count_backticks pre) = true ->
      name <> "" -> count_backticks name = 0%nat ->
      args ≫= (fun a => cfg_args_get a name) = None ->
      defs ≫= (fun d => cfg_args_get d name) = None ->
      globals ≫= (fun g => cfg_args_get g name) = None ->
      g_getenv name = None ->
      cfg_lexer_subst_args globals defs args (pre +:+ String "`" (name +:+ String "`" post)) =
      cfg_lexer_subst_args globals defs args (pre +:+ post)).
Proof.
  split.
  - intros cptr. rewrite unterminated_reference_odd.
    unfold cfg_lexer_subst_args.
    rewrite subst_scan_backtick. simpl.
    destruct (Nat.odd (count_backticks cptr)); split; congruence.
  - intros pre name post Heven Hne Hc Hargs Hdefs Hglobals Henv.
    assert (Hpre : subst_backtick (subst_scan globals defs args pre subst_initial) = false).
    { rewrite subst_scan_backtick. simpl. rewrite <- Nat.negb_even, Heven. reflexivity. }
    assert (Heq : subst_scan globals defs args
                    (pre +:+ String "`" (name +:+ String "`" post)) subst_initial =
                  subst_scan globals defs args (pre +:+ post) subst_initial).
    { rewrite (subst_scan_around_reference globals defs args pre name post Hpre Hne Hc).
      rewrite resolve_reference_first_hit, Hargs, Hdefs, Hglobals, Henv. simpl.
      rewrite string_app_nil_r. symmetry. apply subst_scan_after. exact Hpre. }
    unfold cfg_lexer_subst_args. rewrite Heq. reflexivity.
Qed.

Lemma subst_args_fails_iff_unterminated_witness :
  cfg_lexer_subst_args (utils := spec_string_utils) (environ := empty_environment)
    (Some ∅) (Some ∅) (Some ∅) ("file(" +:+ String "`" ("path" +:+ String "`" ");")) =
  cfg_lexer_subst_args (utils := spec_string_utils) (environ := empty_environment)
    (Some ∅) (Some ∅) (Some ∅) ("file(" +:+ ");") /\
  unterminated_reference ("file(" +:+ String "`" "path);").
Proof.
  destruct (subst_args_fails_iff_unterminated (utils := spec_string_utils)
              (environ := empty_environment) (Some ∅) (Some ∅) (Some ∅)) as [Hfail Hsilent].
  split.
  - apply (Hsilent "file(" "path" ");"); try reflexivity. discriminate.
  - apply (Hfail ("file(" +:+ String "`" "path);")). reflexivity.
Defined.

(** ** Order of the scopes *)

(** C9.  A closed reference is replaced by the value of its name in the
    first of args, defs, globals and the process environment, in this
    order, that has the name (by nothing when none has it): around the
    reference the buffer is substituted as its parts are.  With
    [host_name] set to [h1] in globals, [port] set to [514] in defs and to
    [6514] in args, [dest(`host_name`:`port`)] becomes [dest(h1:6514)], of
    length 13. *)
Theorem subst_args_scope_order :
  (forall (utils : StringUtils) (environ : ProcessEnvironment)
          (globals defs args : option CfgArgs) (pre name post a b : string) (la lb : Z),
      name <> "" -> count_backticks name = 0%nat ->
      cfg_lexer_subst_args globals defs args pre = Some (a, la) ->
      cfg_lexer_subst_args globals defs args post = Some (b, lb) ->
      let value :=
        default "" (first_hit [ args ≫= (fun m => cfg_args_get m name);
                                defs ≫= (fun m => cfg_args_get m name);
                                globals ≫= (fun m => cfg_args_get m name);
                                g_getenv name ]) in
      cfg_lexer_subst_args globals defs args (pre +:+ String "`" (name +:+ String "`" post)) =
        Some ((a +:+ value) +:+ b, Z.of_nat (String.length ((a +:+ value) +:+ b)))) /\
  (let utils := spec_string_utils in
   let environ := empty_environment in
   let globals := cfg_args_set cfg_args_new "host_name" "h1" in
   let defs := cfg_args_set cfg_args_new "port" "514" in
   let args := cfg_args_set cfg_args_new "port" "6514" in
   cfg_lexer_subst_args (Some globals) (Some defs) (Some args)
     ("dest(" +:+ String "`" ("host_name" +:+ String "`" (":" +:+
        String "`" ("port" +:+ String "`" ")"))))
     = Some ("dest(h1:6514)", 13)).
Proof.
  split.
  - intros utils environ globals defs args pre name post a b la lb Hne Hc Hpre Hpost value.
    apply subst_args_Some in Hpre as [Hpre_b Hpre_r].
    apply subst_args_Some in Hpost as [Hpost_b Hpost_r].
    unfold cfg_lexer_subst_args.
    rewrite (subst_scan_around_reference globals defs args pre name post Hpre_b Hne Hc).
    rewrite resolve_reference_first_hit. fold value.
    unfold prepend. simpl. rewrite Hpost_b, Hpre_r, Hpost_r. reflexivity.
  - vm_compute. reflexivity.
Qed.

Lemma subst_args_scope_order_witness :
  cfg_lexer_subst_args (utils := spec_string_utils) (environ := empty_environment)
    (Some (cfg_args_set (utils := spec_string_utils) cfg_args_new "host_name" "h1"))
    (Some (cfg_args_set (utils := spec_string_utils) cfg_args_new "port" "514"))
    (Some (cfg_args_set (utils := spec_string_utils) cfg_args_new "port" "6514"))
    ("tcp(" +:+ String "`" ("port" +:+ String "`" ");")) =
  Some ("tcp(6514);", 10).
Proof.
  exact (proj1 subst_args_scope_order spec_string_utils empty_environment
           (Some (cfg_args_set (utils := spec_string_utils) cfg_args_new "host_name" "h1"))
           (Some (cfg_args_set (utils := spec_string_utils) cfg_args_new "port" "514"))
           (Some (cfg_args_set (utils := spec_string_utils) cfg_args_new "port" "6514"))
           "tcp(" "port" ");" "tcp(" ");" 4 2
           ltac:(discriminate) eq_refl eq_refl eq_refl).
Defined.

(** ** The variable arguments of a block *)

Lemma foldl_varargs {utils : StringUtils} (defs : CfgArgs) (l : list (string * string))
    (acc : string) :
  foldl (fun acc '(k, v) => _resolve_unknown_blockargs_as_varargs defs k v acc) acc l =
  acc +:+ concat_strings (map print_vararg (List.filter (is_vararg defs) l)).
Proof.
  revert acc. induction l as [|[k v] l IH]; intros acc; simpl.
  - rewrite string_app_nil_r. reflexivity.
  - rewrite IH. unfold _resolve_unknown_blockargs_as_varargs, is_vararg. simpl.
    destruct (cfg_args_get defs k); [reflexivity|].
    simpl. unfold print_vararg. simpl.
    rewrite !string_app_assoc. reflexivity.
Qed.

Lemma fill_varargs_value {utils : StringUtils} {table : HashTableOrder}
    (block : CfgBlock) (args : CfgArgs) :
  _fill_varargs block args =
    <[normalize_key "__VARARGS__" := varargs_text (blk_arg_defs block) args]> args.
Proof.
  unfold _fill_varargs, cfg_args_set, cfg_args_foreach, varargs_text.
  rewrite foldl_varargs, string_app_nil_l. reflexivity.
Qed.






(** ** The driver *)

Section DriverFacts.
Context {yyscan_t : Type} {tokens : GrammarTokens}
        {collaborators : Collaborators yyscan_t}.

(** A token that is not intercepted is delivered by the call that fetched
    it. *)
Lemma cfg_lexer_lex_delivers (fuel : nat) (w : World yyscan_t) (yylval : YYSTYPE)
    (yylloc : YYLTYPE) (tok : Z) (v : YYSTYPE) (l : YYLTYPE) (injected : bool)
    (w1 : World yyscan_t) :
  fetch_token w yylval yylloc = (tok, v, l, injected, w1) ->
  intercepted w1 tok v = false ->
  cfg_lexer_lex (S fuel) w yylval yylloc = Some (tok, v, l, deliver_token w1 injected).
Proof.
  intros Hfetch Hnot. unfold intercepted in Hnot.
  apply orb_false_iff in Hnot as [Hnot Hgen].
  apply orb_false_iff in Hnot as [Hpragma Hinclude].
  cbn [cfg_lexer_lex]. rewrite Hfetch, Hpragma, Hinclude.
  destruct (tok =? LL_IDENTIFIER); [|reflexivity].
  simpl in Hgen. apply bool_decide_eq_false in Hgen.
  destruct (yy_cptr v ≫= _) as [gen|]; [|reflexivity].
  exfalso. apply Hgen. eexists. reflexivity.
Qed.

(** *** Tokens pushed back *)

Lemma next_injected_token_app (blocks : list CfgTokenBlock) (block : CfgTokenBlock) :
  fst (next_injected_token blocks) = None ->
  next_injected_token (blocks ++ [block]) = next_injected_token [block].
Proof.
  induction blocks as [|b blocks IH]; [reflexivity|].
  cbn [next_injected_token app].
  destruct (cfg_token_block_get_token b) as [[token|] b']; [discriminate|].
  exact IH.
Qed.

(** *** The suppression counter *)

Lemma suppress_writes_app (evs1 evs2 : list Event) :
  suppress_writes (evs1 ++ evs2) = suppress_writes evs1 ++ suppress_writes evs2.
Proof. apply omap_app. Qed.

Lemma suppression_at_set_lexer (c : Z) (w : World yyscan_t) (self : CfgLexer yyscan_t) :
  suppression_at c w ->
  preprocess_suppress_tokens self = preprocess_suppress_tokens (lexer w) ->
  suppression_at c (set_lexer w self).
Proof. intros [Hc Hw] Heq. split; [simpl; congruence | exact Hw]. Qed.

Lemma suppression_at_echo (c : Z) (w : World yyscan_t) (s : string) :
  suppression_at c w -> suppression_at c (echo w s).
Proof. intros H. apply suppression_at_set_lexer; [exact H | reflexivity]. Qed.

Lemma suppression_at_emit_message (c : Z) (w : World yyscan_t) (level : MsgLevel)
    (desc : string) (tags : list EvtTag) :
  suppression_at c w -> suppression_at c (emit w [Message level desc tags]).
Proof.
  intros [Hc Hw]. split; [exact Hc|]. simpl.
  rewrite suppress_writes_app. simpl. rewrite app_nil_r. exact Hw.
Qed.

Lemma gint_wrap_small (z : Z) : - 2 ^ 31 <= z <= G_MAXINT -> gint_wrap z = z.
Proof.
  unfold gint_wrap, G_MAXINT. intros H. rewrite Z.mod_small; lia.
Qed.

Lemma suppression_at_incr (c : Z) (w : World yyscan_t) :
  0 <= c < G_MAXINT -> suppression_at c w -> suppression_at (c + 1) (suppress_tokens_incr w).
Proof.
  intros Hc [Heq Hw]. unfold suppress_tokens_incr. rewrite Heq.
  rewrite gint_wrap_small by (unfold G_MAXINT in *; lia).
  split; [reflexivity|]. simpl. rewrite suppress_writes_app. simpl.
  apply Forall_app. split; [exact Hw|]. constructor; [lia | constructor].
Qed.

Lemma suppression_at_decr (c : Z) (w : World yyscan_t) :
  0 <= c < G_MAXINT -> suppression_at (c + 1) w -> suppression_at c (suppress_tokens_decr w).
Proof.
  intros Hc [Heq Hw]. unfold suppress_tokens_decr. rewrite Heq.
  replace (c + 1 - 1) with c by lia.
  rewrite gint_wrap_small by (unfold G_MAXINT in *; lia).
  split; [reflexivity|]. simpl. rewrite suppress_writes_app. simpl.
  apply Forall_app. split; [exact Hw|]. constructor; [lia | constructor].
Qed.

Section BalancedCollaborators.
Hypothesis balanced : Balanced.

Lemma suppression_at_fetch_token (c : Z) (w : World yyscan_t) (yylval : YYSTYPE)
    (yylloc : YYLTYPE) tok v l injected w1 :
  suppression_at c w ->
  fetch_token w yylval yylloc = (tok, v, l, injected, w1) ->
  suppression_at c w1.
Proof.
  intros Hinv. unfold fetch_token.
  destruct (next_injected_token (token_blocks (lexer w))) as [[token|] blocks].
  - intros [= _ _ _ _ <-]. apply suppression_at_set_lexer; [exact Hinv | reflexivity].
  - match goal with
    | |- context [_cfg_lexer_lex ?a ?b ?x] =>
        pose proof (scanner_balanced balanced c a b x) as Hscan;
        destruct (_cfg_lexer_lex a b x) as [[[tok2 v2] l2] w2]
    end.
    intros [= _ _ _ _ <-]. apply suppression_at_echo. apply Hscan.
    apply suppression_at_set_lexer; [exact Hinv|].
    unfold truncate_token_texts. cbn [preprocess_suppress_tokens lexer].
    pose proof (block_state_balanced balanced) as Hstate.
    destruct (_ =? LL_CONTEXT_BLOCK_CONTENT); [rewrite Hstate; reflexivity|].
    destruct (_ =? LL_CONTEXT_BLOCK_ARG); [rewrite Hstate; reflexivity | reflexivity].
Qed.

Lemma suppression_at_deliver_token (c : Z) (w : World yyscan_t) (injected : bool) :
  suppression_at c w -> suppression_at c (deliver_token w injected).
Proof.
  intros Hinv. unfold deliver_token.
  assert (Hver : suppression_at c
            (if (version (configuration w) =? 0) && negb (parsed_version (configuration w) =? 0)
             then cfg_set_version w (parsed_version (configuration w))
             else if (version (configuration w) =? 0) && (parsed_version (configuration w) =? 0)
                     && negb (cfg_lexer_get_context_type (lexer w) =? LL_CONTEXT_PRAGMA)
             then cfg_set_version (emit w [no_version_warning]) VERSION_VALUE_2_1
             else w)).
  { destruct (_ && _); [apply (set_version_balanced balanced); exact Hinv|].
    destruct (_ && _); [|exact Hinv].
    apply (set_version_balanced balanced). apply suppression_at_emit_message. exact Hinv. }
  destruct (negb injected && _); [apply suppression_at_echo|]; exact Hver.
Qed.

Lemma cfg_lexer_lex_keeps_suppression (fuel : nat) :
  forall c : Z, 0 <= c -> c + Z.of_nat fuel <= G_MAXINT -> lex_keeps c (cfg_lexer_lex fuel).
Proof.
  induction fuel as [|fuel IH]; intros c Hc Hbound w yylval yylloc tok v' l' w' Hinv Hlex;
    [discriminate|].
  assert (Hlt : 0 <= c < G_MAXINT) by lia.
  assert (IHc : lex_keeps c (cfg_lexer_lex fuel)) by (apply IH; lia).
  assert (IHc1 : lex_keeps (c + 1) (cfg_lexer_lex fuel)) by (apply IH; lia).
  cbn [cfg_lexer_lex] in Hlex.
  destruct (fetch_token w yylval yylloc) as [[[[tok1 v1] l1] injected] w1] eqn:Hfetch.
  pose proof (suppression_at_fetch_token c w yylval yylloc _ _ _ _ _ Hinv Hfetch) as Hw1.
  destruct (tok1 =? LL_PRAGMA).
  { (* the pragma mark *)
    destruct (pragma_parser_parse (cfg_lexer_lex fuel) (echo w1 "@")) as [[ok w2]|] eqn:Hparse;
      [|discriminate].
    pose proof (pragma_balanced balanced c _ IHc _ _ _ (suppression_at_echo c w1 "@" Hw1) Hparse)
      as Hw2.
    destruct ok.
    - exact (IHc _ _ _ _ _ _ _ Hw2 Hlex).
    - injection Hlex as _ _ _ <-. exact Hw2. }
  destruct ((tok1 =? KW_INCLUDE) && _).
  { (* the include keyword *)
    destruct (cfg_lexer_lex fuel (suppress_tokens_incr w1) v1 l1)
      as [[[[tok2 v2] l2] w2]|] eqn:Hpath; [|discriminate].
    pose proof (IHc1 _ _ _ _ _ _ _ (suppression_at_incr c w1 Hlt Hw1) Hpath) as Hw2.
    destruct (negb (tok2 =? LL_STRING) && negb (tok2 =? LL_IDENTIFIER)).
    { injection Hlex as _ _ _ <-. apply suppression_at_decr; assumption. }
    destruct (cfg_lexer_lex fuel w2 v2 l2) as [[[[tok3 v3] l3] w3]|] eqn:Hsemi; [|discriminate].
    pose proof (IHc1 _ _ _ _ _ _ _ Hw2 Hsemi) as Hw3.
    destruct (negb (tok3 =? 59)).
    { injection Hlex as _ _ _ <-. apply suppression_at_decr; assumption. }
    pose proof (include_file_balanced balanced (c + 1) w3 (yy_cptr v2) Hw3) as Hw4.
    destruct (cfg_lexer_include_file w3 (yy_cptr v2)) as [included w4]. simpl in Hw4.
    destruct included.
    - refine (IHc _ _ _ _ _ _ _ _ Hlex). apply suppression_at_decr; assumption.
    - injection Hlex as _ _ _ <-. apply suppression_at_decr; assumption. }
  destruct (if tok1 =? LL_IDENTIFIER then _ else None) as [gen|].
  { (* a block reference *)
    destruct (block_ref_parser_parse (cfg_lexer_lex fuel) (suppress_tokens_incr w1))
      as [[[args|] w2]|] eqn:Hparse; [| |discriminate].
    - pose proof (block_ref_balanced balanced (c + 1) _ IHc1 _ _ _
                    (suppression_at_incr c w1 Hlt Hw1) Hparse) as Hw2.
      pose proof (suppression_at_decr c w2 Hlt Hw2) as Hw2'.
      unfold cfg_lexer_generate_block in Hlex.
      match type of Hlex with
      | context [call_generator ?f ?x ?ctx ?n ?a ?d] =>
          pose proof (generator_balanced balanced c f x ctx n a d Hw2') as Hw3;
          destruct (call_generator f x ctx n a d) as [success w3]
      end.
      simpl in Hw3. destruct success.
      + exact (IHc _ _ _ _ _ _ _ Hw3 Hlex).
      + injection Hlex as _ _ _ <-. exact Hw3.
    - pose proof (block_ref_balanced balanced (c + 1) _ IHc1 _ _ _
                    (suppression_at_incr c w1 Hlt Hw1) Hparse) as Hw2.
      injection Hlex as _ _ _ <-. apply suppression_at_decr; assumption. }
  injection Hlex as _ _ _ <-. apply suppression_at_deliver_token. exact Hw1.
Qed.

End BalancedCollaborators.

End DriverFacts.

Lemma scripted_balanced (tokens : GrammarTokens) :
  Balanced (collaborators := scripted_collaborators tokens).
Proof.
  constructor; simpl.
  - intros c v l w Hinv. unfold scripted_scan.
    destruct (state (lexer w)) as [|t rest]; [exact Hinv|].
    apply suppression_at_set_lexer; [exact Hinv | reflexivity].
  - reflexivity.
  - intros c lex Hlex w ok w' Hinv Hparse.
    destruct (lex w yylval_zero lloc_zero) as [[[[tok v] l] w1]|] eqn:Hcall; [|discriminate].
    injection Hparse as _ <-. exact (Hlex _ _ _ _ _ _ _ Hinv Hcall).
  - intros c lex Hlex w args w' Hinv Hparse.
    destruct (lex w yylval_zero lloc_zero) as [[[[tok v] l] w1]|] eqn:Hcall; [|discriminate].
    injection Hparse as _ <-. exact (Hlex _ _ _ _ _ _ _ Hinv Hcall).
  - intros c w path Hinv. exact Hinv.
  - intros c f w context name args data Hinv. exact Hinv.
  - intros c w v [Hc Hw]. split; assumption.
Qed.

(** C5.  With collaborators that leave the suppression counter balanced
    and a counter that starts non-negative and far enough from the largest
    [gint] for the nesting of the call, every call of [cfg_lexer_lex] that
    returns, with a token or with the error token on any of its paths,
    leaves the counter at the value it had on entry, and no value written
    to the counter, before or during the call, is negative. *)
Theorem suppression_counter_balanced
    {yyscan_t : Type} {tokens : GrammarTokens} {collaborators : Collaborators yyscan_t}
    (fuel : nat) (w : World yyscan_t) (yylval : YYSTYPE) (yylloc : YYLTYPE)
    (tok : Z) (yylval' : YYSTYPE) (yylloc' : YYLTYPE) (w' : World yyscan_t) :
  Balanced ->
  0 <= preprocess_suppress_tokens (lexer w) ->
  preprocess_suppress_tokens (lexer w) + Z.of_nat fuel <= G_MAXINT ->
  Forall (fun v => 0 <= v) (suppress_writes (events w)) ->
  cfg_lexer_lex fuel w yylval yylloc = Some (tok, yylval', yylloc', w') ->
  preprocess_suppress_tokens (lexer w') = preprocess_suppress_tokens (lexer w) /\
  Forall (fun v => 0 <= v) (suppress_writes (events w')).
Proof.
  intros balanced Hc Hbound Hwrites Hlex.
  exact (cfg_lexer_lex_keeps_suppression balanced fuel _ Hc Hbound
           w yylval yylloc tok yylval' yylloc' w' (conj eq_refl Hwrites) Hlex).
Qed.

Lemma suppression_counter_balanced_witness :
  exists (tok : Z) (v : YYSTYPE) (l : YYLTYPE) (w' : World (list ScriptedToken)),
    cfg_lexer_lex (tokens := example_tokens)
      (collaborators := scripted_collaborators example_tokens) 4
      (initial_world (include_script example_tokens) 0x0300) yylval_zero lloc_zero
      = Some (tok, v, l, w') /\
    tok = 10421 /\
    suppress_writes (events w') = [1; 0] /\
    preprocess_suppress_tokens (lexer w') = 0 /\
    Forall (fun v => 0 <= v) (suppress_writes (events w')).
Proof.
  do 4 eexists.
  split; [vm_compute; reflexivity|].
  split; [reflexivity|]. split; [reflexivity|].
  refine (suppression_counter_balanced (tokens := example_tokens)
            (collaborators := scripted_collaborators example_tokens) 4
            (initial_world (include_script example_tokens) 0x0300) yylval_zero lloc_zero
            _ _ _ _ (scripted_balanced example_tokens) _ _ _ _).
  - simpl. lia.
  - vm_compute. discriminate.
  - constructor.
  - vm_compute. reflexivity.
Defined.

(** ** The include keyword inside a pragma *)

(** C3 (as amended).  When [cfg_lexer_lex] obtains the include keyword
    token while the current context type is pragma, it does not process
    the include (the suppression counter is not touched, no further token
    is pulled, no file is pushed): the call delivers the include keyword
    token itself, as it delivers any token that it does not intercept. *)
Theorem include_inside_pragma_is_delivered
    {yyscan_t : Type} {tokens : GrammarTokens} {collaborators : Collaborators yyscan_t}
    (fuel : nat) (w : World yyscan_t) (yylval : YYSTYPE) (yylloc : YYLTYPE)
    (v : YYSTYPE) (l : YYLTYPE) (injected : bool) (w1 : World yyscan_t) :
  KW_INCLUDE <> LL_PRAGMA ->
  KW_INCLUDE <> LL_IDENTIFIER ->
  fetch_token w yylval yylloc = (KW_INCLUDE, v, l, injected, w1) ->
  cfg_lexer_get_context_type (lexer w1) = LL_CONTEXT_PRAGMA ->
  cfg_lexer_lex (S fuel) w yylval yylloc =
    Some (KW_INCLUDE, v, l, deliver_token w1 injected).
Proof.
  intros Hpragma Hident Hfetch Hcontext.
  apply cfg_lexer_lex_delivers; [exact Hfetch|].
  unfold intercepted. rewrite Hcontext.
  apply Z.eqb_neq in Hpragma. apply Z.eqb_neq in Hident.
  rewrite Hpragma, Hident, Z.eqb_refl. reflexivity.
Qed.

Lemma include_inside_pragma_is_delivered_witness :
  exists w' : World (list ScriptedToken),
    cfg_lexer_lex (tokens := example_tokens)
      (collaborators := scripted_collaborators example_tokens) 1
      (world_in_context (initial_world (include_script example_tokens) 0x0300)
                        LL_CONTEXT_PRAGMA)
      yylval_zero lloc_zero
    = Some (10504, token_value example_tokens 10504, at_line 1 1, w') /\
    length (state (lexer w')) = 3%nat /\
    preprocess_suppress_tokens (lexer w') = 0 /\
    events w' = [].
Proof.
  eexists. split.
  - refine (include_inside_pragma_is_delivered (tokens := example_tokens)
              (collaborators := scripted_collaborators example_tokens) 0
              (world_in_context (initial_world (include_script example_tokens) 0x0300)
                                LL_CONTEXT_PRAGMA)
              yylval_zero lloc_zero (token_value example_tokens 10504) (at_line 1 1)
              false _ _ _ _ _).
    + discriminate.
    + discriminate.
    + vm_compute. reflexivity.
    + reflexivity.
  - vm_compute. repeat split.
Defined.

(** C3 (as stated) fails.  In a pragma context the scanner hands out the
    tokens of [include "a.conf"; x]; the call delivers the include keyword
    token, which is not the error token, and leaves the three tokens after
    it to the caller. *)
Lemma include_inside_pragma_counterexample :
  let w := world_in_context (initial_world (include_script example_tokens) 0x0300)
                            LL_CONTEXT_PRAGMA in
  cfg_lexer_get_context_type (lexer w) = LL_CONTEXT_PRAGMA /\
  (exists (v : YYSTYPE) (l : YYLTYPE) (w' : World (list ScriptedToken)),
      cfg_lexer_lex (tokens := example_tokens)
        (collaborators := scripted_collaborators example_tokens) 4 w yylval_zero lloc_zero
      = Some (@KW_INCLUDE example_tokens, v, l, w') /\
      length (state (lexer w')) = 3%nat) /\
  @KW_INCLUDE example_tokens <> @LL_ERROR example_tokens.
Proof.
  intros w. split; [reflexivity|]. split; [|discriminate].
  do 3 eexists. split; [vm_compute; reflexivity | reflexivity].
Qed.

(** ** Tokens pushed back *)

(** A token pushed back by [cfg_lexer_unput_token], no other injected
    token pending, is fetched by the next call of [cfg_lexer_lex] with the
    location at which the current include frame stands at that call; a
    token that the call does not intercept is delivered with this
    location. *)
Lemma unput_token_refetched
    {yyscan_t : Type} {tokens : GrammarTokens} {collaborators : Collaborators yyscan_t}
    (fuel : nat) (w : World yyscan_t) (token yylval : YYSTYPE) (yylloc : YYLTYPE) :
  fst (next_injected_token (token_blocks (lexer w))) = None ->
  let tok := injected_token_id token in
  let here := lvl_lloc (current_include_level (lexer w)) in
  let w1 := set_lexer w (set_token_blocks (lexer w)
                           [ {| tb_pos := 1; tb_tokens := [token] |} ]) in
  exists self' : CfgLexer yyscan_t,
    cfg_lexer_unput_token (lexer w) token = Returns self' /\
    fetch_token (set_lexer w self') yylval yylloc = (tok, token, here, true, w1) /\
    (intercepted w1 tok token = false ->
     cfg_lexer_lex (S fuel) (set_lexer w self') yylval yylloc =
       Some (tok, token, here, deliver_token w1 true)).
Proof.
  intros Hpending tok here w1.
  eexists. split; [reflexivity|].
  assert (Hfetch : fetch_token
            (set_lexer w (cfg_lexer_inject_token_block (lexer w)
                            {| tb_pos := 0; tb_tokens := [] ++ [token] |}))
            yylval yylloc = (tok, token, here, true, w1)).
  { unfold fetch_token, cfg_lexer_inject_token_block.
    cbn [lexer set_lexer token_blocks set_token_blocks].
    rewrite (next_injected_token_app _ _ Hpending). reflexivity. }
  split; [exact Hfetch|].
  intros Hnot. exact (cfg_lexer_lex_delivers fuel _ _ _ _ _ _ _ _ Hfetch Hnot).
Qed.

Section MostRecentToken.
Context {yyscan_t : Type} {tokens : GrammarTokens}
        {collaborators : Collaborators yyscan_t}.

(** A token that [cfg_lexer_lex] returns, other than the error token, is
    one that some pass from [relex] fetched and did not intercept. *)
Lemma cfg_lexer_lex_delivered (fuel : nat) (w : World yyscan_t) (yylval : YYSTYPE)
    (yylloc : YYLTYPE) (tok : Z) (v : YYSTYPE) (l : YYLTYPE) (w' : World yyscan_t) :
  cfg_lexer_lex fuel w yylval yylloc = Some (tok, v, l, w') ->
  tok <> LL_ERROR ->
  exists (w0 : World yyscan_t) (yylval0 : YYSTYPE) (yylloc0 : YYLTYPE) (injected : bool)
         (w1 : World yyscan_t),
    fetch_token w0 yylval0 yylloc0 = (tok, v, l, injected, w1) /\
    intercepted w1 tok v = false /\
    w' = deliver_token w1 injected.
Proof.
  revert w yylval yylloc.
  induction fuel as [|fuel IH]; intros w yylval yylloc Hlex Htok; [discriminate|].
  cbn [cfg_lexer_lex] in Hlex.
  destruct (fetch_token w yylval yylloc) as [[[[tok1 v1] l1] injected] w1] eqn:Hfetch.
  destruct (tok1 =? LL_PRAGMA) eqn:Hpragma.
  { destruct (pragma_parser_parse (cfg_lexer_lex fuel) (echo w1 "@")) as [[[] w2]|];
      [exact (IH _ _ _ Hlex Htok) | congruence | discriminate]. }
  destruct ((tok1 =? KW_INCLUDE) && _) eqn:Hinclude.
  { destruct (cfg_lexer_lex fuel (suppress_tokens_incr w1) v1 l1)
      as [[[[tok2 v2] l2] w2]|]; [|discriminate].
    destruct (negb (tok2 =? LL_STRING) && negb (tok2 =? LL_IDENTIFIER)); [congruence|].
    destruct (cfg_lexer_lex fuel w2 v2 l2) as [[[[tok3 v3] l3] w3]|]; [|discriminate].
    destruct (negb (tok3 =? 59)); [congruence|].
    destruct (cfg_lexer_include_file w3 (yy_cptr v2)) as [[] w4];
      [exact (IH _ _ _ Hlex Htok) | congruence]. }
  destruct (if tok1 =? LL_IDENTIFIER then _ else None) as [gen|] eqn:Hgen.
  { destruct (block_ref_parser_parse (cfg_lexer_lex fuel) (suppress_tokens_incr w1))
      as [[[args|] w2]|]; [| congruence | discriminate].
    destruct (cfg_lexer_generate_block _ _ _ _ _) as [[] w3];
      [exact (IH _ _ _ Hlex Htok) | congruence]. }
  injection Hlex as <- <- <- <-.
  exists w, yylval, yylloc, injected, w1.
  split; [exact Hfetch|]. split; [|reflexivity].
  unfold intercepted. rewrite Hpragma, Hinclude. simpl.
  destruct (tok1 =? LL_IDENTIFIER); [|reflexivity].
  simpl. rewrite Hgen. apply bool_decide_eq_false. intros [x Hx]. discriminate.
Qed.

Hypothesis scanner_contract : scanner_tracks_location.
Hypothesis version_contract : version_keeps_lexer.

Lemma fetch_token_location (w : World yyscan_t) (yylval : YYSTYPE) (yylloc : YYLTYPE)
    (tok : Z) (v : YYSTYPE) (l : YYLTYPE) (injected : bool) (w1 : World yyscan_t) :
  fetch_token w yylval yylloc = (tok, v, l, injected, w1) ->
  tok <> 0 ->
  l = lvl_lloc (current_include_level (lexer w1)).
Proof.
  unfold fetch_token.
  destruct (next_injected_token (token_blocks (lexer w))) as [[token|] blocks].
  - intros [= _ _ <- _ <-] _. reflexivity.
  - match goal with
    | |- context [_cfg_lexer_lex ?a ?b ?x] =>
        pose proof (scanner_contract a b x) as Hscan;
        destruct (_cfg_lexer_lex a b x) as [[[tok2 v2] l2] w2]
    end.
    intros [= <- _ <- _ <-] Htok. exact (Hscan _ _ _ _ eq_refl Htok).
Qed.

(** What [cfg_lexer_lex] does to the lexer after the chain at [exit] is to
    append to the echo. *)
Lemma deliver_token_lexer (w : World yyscan_t) (injected : bool) :
  exists x : string,
    lexer (deliver_token w injected) =
      set_preprocess_output (lexer w) (preprocess_output (lexer w) +:+ x).
Proof.
  assert (Hsame : forall s : CfgLexer yyscan_t,
            s = set_preprocess_output s (preprocess_output s +:+ ""))
    by (intros []; unfold set_preprocess_output; simpl;
        rewrite string_app_nil_r; reflexivity).
  unfold deliver_token.
  set (w' := if (version (configuration w) =? 0) && _ then _ else _).
  assert (Hversion : lexer w' = lexer w).
  { unfold w'. destruct (_ && _); [apply version_contract|].
    destruct (_ && _); [|reflexivity].
    rewrite version_contract. reflexivity. }
  destruct (negb injected && _).
  - exists (token_text (lexer w')). unfold echo. simpl. rewrite Hversion. reflexivity.
  - exists "". rewrite Hversion. apply Hsame.
Qed.

(** C2.  A token that [cfg_lexer_lex] has just returned (not the error
    token, not the end of the input), the most recent token, pushed back
    by [cfg_lexer_unput_token] before any other call, comes back from the
    next call of [cfg_lexer_lex] with the location it was returned with
    the first time.  The scanner keeps the location of the include frame
    it reads and hands it out with the token, and [cfg_set_version] does
    not reach the lexer; no other injected token is pending when the token
    is pushed back.  The next call fetches the value pushed back, with
    this location; it returns it, with this location, when it does not
    intercept it, and it does not intercept it when the value names the
    token it was returned as. *)
Theorem most_recent_token_keeps_location
    (fuel fuel' : nat) (w w' : World yyscan_t) (yylval yylval' : YYSTYPE)
    (yylloc yylloc' : YYLTYPE) (tok : Z) (token : YYSTYPE) (l : YYLTYPE) :
  cfg_lexer_lex fuel w yylval yylloc = Some (tok, token, l, w') ->
  tok <> LL_ERROR ->
  tok <> 0 ->
  fst (next_injected_token (token_blocks (lexer w'))) = None ->
  exists (self' : CfgLexer yyscan_t) (w2 : World yyscan_t),
    cfg_lexer_unput_token (lexer w') token = Returns self' /\
    fetch_token (set_lexer w' self') yylval' yylloc' =
      (injected_token_id token, token, l, true, w2) /\
    (intercepted w2 (injected_token_id token) token = false ->
     cfg_lexer_lex (S fuel') (set_lexer w' self') yylval' yylloc' =
       Some (injected_token_id token, token, l, deliver_token w2 true)) /\
    (injected_token_id token = tok ->
     cfg_lexer_lex (S fuel') (set_lexer w' self') yylval' yylloc' =
       Some (tok, token, l, deliver_token w2 true)).
Proof.
  intros Hlex Htok Hend Hpending.
  destruct (cfg_lexer_lex_delivered _ _ _ _ _ _ _ _ Hlex Htok)
    as (w0 & yylval0 & yylloc0 & injected & w1 & Hfetch & Hnot & ->).
  destruct (deliver_token_lexer w1 injected) as [x Hlexer].
  assert (Hhere : lvl_lloc (current_include_level (lexer (deliver_token w1 injected))) = l).
  { rewrite Hlexer. symmetry. exact (fetch_token_location _ _ _ _ _ _ _ _ Hfetch Hend). }
  destruct (unput_token_refetched fuel' (deliver_token w1 injected) token yylval' yylloc'
              Hpending) as (self' & Hunput & Hrefetch & Hdeliver).
  rewrite Hhere in Hrefetch, Hdeliver.
  exists self'. eexists. split; [exact Hunput|]. split; [exact Hrefetch|].
  split; [exact Hdeliver|].
  intros Hid. rewrite <- Hid at 1. apply Hdeliver.
  rewrite Hid. unfold intercepted in *.
  cbn [lexer set_lexer set_token_blocks context_stack generators
       cfg_lexer_get_context_type cfg_lexer_find_generator].
  rewrite Hlexer. exact Hnot.
Qed.

End MostRecentToken.

Lemma tracking_scan_tracks_location (tokens : GrammarTokens) :
  scanner_tracks_location (collaborators := tracking_collaborators tokens).
Proof.
  intros yylval yylloc w tok v l w'. simpl. unfold tracking_scan.
  destruct (scripted_scan yylval yylloc w) as [[[tok1 v1] l1] w1].
  intros [= <- _ <- <-] Htok.
  destruct (Z.eqb_spec tok1 0); [contradiction | reflexivity].
Qed.

Lemma most_recent_token_keeps_location_witness :
  let lex := cfg_lexer_lex (tokens := example_tokens)
               (collaborators := tracking_collaborators example_tokens) 1 in
  let w := initial_world (two_identifiers example_tokens) 0x0300 in
  let a := lexeme_value 10421 "a" in
  exists (w1 : World (list ScriptedToken)) (self2 : CfgLexer (list ScriptedToken))
         (w3 : World (list ScriptedToken)),
    lex w yylval_zero lloc_zero = Some (10421, a, at_line 1 1, w1) /\
    cfg_lexer_unput_token (lexer w1) a = Returns self2 /\
    lex (set_lexer w1 self2) yylval_zero lloc_zero = Some (10421, a, at_line 1 1, w3).
Proof.
  intros lex w a.
  set (w1 := match lex w yylval_zero lloc_zero with
             | Some (_, _, _, w1) => w1
             | None => w
             end).
  assert (Hfirst : lex w yylval_zero lloc_zero = Some (10421, a, at_line 1 1, w1))
    by (vm_compute; reflexivity).
  assert (Hpending : fst (next_injected_token (token_blocks (lexer w1))) = None)
    by (vm_compute; reflexivity).
  pose proof (most_recent_token_keeps_location (tokens := example_tokens)
                (collaborators := tracking_collaborators example_tokens)
                (tracking_scan_tracks_location example_tokens) (fun _ _ => eq_refl)
                1 0 w w1 yylval_zero yylval_zero lloc_zero lloc_zero 10421 a (at_line 1 1)
                Hfirst ltac:(discriminate) ltac:(discriminate) Hpending)
    as (self2 & w2 & Hunput & _ & _ & Hsame).
  exists w1, self2,
    (deliver_token (collaborators := tracking_collaborators example_tokens) w2 true).
  split; [exact Hfirst|]. split; [exact Hunput|].
  refine (Hsame _). reflexivity.
Defined.

(** A token that is not the most recent one comes back with the location
    of the token scanned after it.  The scanner produces the identifier
    [a] with the location of line 1 and then the identifier [b] with the
    location of line 2; [a], pushed back after [b] was returned, is
    delivered with the location of line 2, where the include frame
    stands. *)
Example token_pushed_back_out_of_turn :
  let lex := cfg_lexer_lex (tokens := example_tokens)
               (collaborators := scripted_collaborators example_tokens) 1 in
  let a := lexeme_value 10421 "a" in
  let b := lexeme_value 10421 "b" in
  exists (w1 w2 : World (list ScriptedToken)) (self3 : CfgLexer (list ScriptedToken))
         (w4 : World (list ScriptedToken)),
    lex (initial_world (two_identifiers example_tokens) 0x0300) yylval_zero lloc_zero
      = Some (10421, a, at_line 1 1, w1) /\
    lex w1 yylval_zero lloc_zero = Some (10421, b, at_line 2 1, w2) /\
    cfg_lexer_unput_token (lexer w2) a = Returns self3 /\
    lex (set_lexer w2 self3) yylval_zero lloc_zero = Some (10421, a, at_line 2 1, w4).
Proof.
  intros lex a b. do 4 eexists.
  split; [vm_compute; reflexivity|].
  split; [vm_compute; reflexivity|].
  split; [vm_compute; reflexivity|].
  vm_compute; reflexivity.
Qed.

(** ** Scenarios *)

(** The stop entry ends the resolution: [source] stays an identifier
    although the frame below knows it as a keyword. *)
Example stop_sentinel_scenario :
  lookup_keyword_in (tokens := example_tokens) 0x0300 None "source" yylval_zero
    [ keyword_context LL_CONTEXT_BLOCK_REF [plain_keyword CFG_KEYWORD_STOP 0 0];
      keyword_context LL_CONTEXT_ROOT [plain_keyword "source" 10000 0] ]
  = (10421, set_cptr yylval_zero "source",
     [ keyword_context LL_CONTEXT_BLOCK_REF [plain_keyword CFG_KEYWORD_STOP 0 0];
       keyword_context LL_CONTEXT_ROOT [plain_keyword "source" 10000 0] ],
     []).
Proof. reflexivity. Qed.

(** An obsolete keyword is resolved with a warning and is a normal keyword
    afterwards. *)
Example obsolete_keyword_scenario :
  let old := {| kw_name := "log_prefix"; kw_token := 10010; kw_req_version := 0;
                kw_status := KWS_OBSOLETE; kw_explain := Some "program_override" |} in
  lookup_keyword_in (tokens := example_tokens) 0x0300 None "log-prefix" yylval_zero
    [ keyword_context LL_CONTEXT_SOURCE [old] ]
  = (10010, {| yy_type := 10425; yy_token := 10010; yy_cptr := None |},
     [ keyword_context LL_CONTEXT_SOURCE [set_kw_status old KWS_NORMAL] ],
     [ obsolete_keyword_warning old ]).
Proof. reflexivity. Qed.

(** An empty reference is a back-tick, and a buffer without back-ticks is
    left as it is. *)
Example empty_reference_scenario :
  cfg_lexer_subst_args (utils := spec_string_utils) (environ := empty_environment)
    None None None ("a" +:+ String "`" (String "`" "b")) = Some ("a`b", 3).
Proof. reflexivity. Qed.

Example no_reference_scenario :
  cfg_lexer_subst_args (utils := spec_string_utils) (environ := empty_environment)
    None None None "source s_local { };" = Some ("source s_local { };", 19).
Proof. reflexivity. Qed.

(** A failed path token after the include keyword: the call returns the
    error token and the suppression counter is back at 0. *)
Example include_without_path_scenario :
  let script :=
    [ {| st_tok := 10504; st_value := token_value example_tokens 10504;
         st_lloc := at_line 1 1; st_text := "include" |};
      {| st_tok := 59; st_value := {| yy_type := 59; yy_token := 0; yy_cptr := None |};
         st_lloc := at_line 1 9; st_text := ";" |} ] in
  exists (v : YYSTYPE) (l : YYLTYPE) (w' : World (list ScriptedToken)),
    cfg_lexer_lex (tokens := example_tokens)
      (collaborators := scripted_collaborators example_tokens) 2
      (initial_world script 0x0300) yylval_zero lloc_zero
    = Some (10429, v, l, w') /\
    preprocess_suppress_tokens (lexer w') = 0 /\
    suppress_writes (events w') = [1; 0].
Proof.
  intros script. do 3 eexists. split; [vm_compute; reflexivity|].
  split; reflexivity.
Qed.

(* ================================================================== *)
(** * Further properties *)
(* ================================================================== *)

(** ** The context stack *)

Section ContextStackFacts.
Context {yyscan_t : Type}.
Implicit Types self : CfgLexer yyscan_t.

Lemma set_context_stack_same self : set_context_stack self (context_stack self) = self.
Proof. destruct self; reflexivity. Qed.

Lemma pop_push_context self (type : Z) (keywords : option (list CfgLexerKeyword))
    (desc : string) :
  cfg_lexer_pop_context (cfg_lexer_push_context self type keywords desc) = self.
Proof. destruct self; reflexivity. Qed.

Lemma pop_contexts_stack (n : nat) self :
  pop_contexts n self = set_context_stack self (drop n (context_stack self)).
Proof.
  revert self. induction n as [|n IH]; intros self.
  - simpl. rewrite drop_0. symmetry. apply set_context_stack_same.
  - change (pop_contexts (S n) self) with (cfg_lexer_pop_context (pop_contexts n self)).
    rewrite IH. unfold cfg_lexer_pop_context. simpl.
    destruct (drop n (context_stack self)) as [|c rest] eqn:Hdrop.
    + rewrite (drop_ge (context_stack self) (S n)); [reflexivity|].
      apply drop_nil_inv in Hdrop. lia.
    + unfold set_context_stack. simpl. f_equal.
      replace (drop (S n) (context_stack self))
        with (drop 1 (drop n (context_stack self)))
        by (rewrite drop_drop; f_equal; lia).
      rewrite Hdrop. reflexivity.
Qed.

Lemma push_contexts_stack self (frames : list (Z * option (list CfgLexerKeyword) * string)) :
  exists pushed : list CfgLexerContext,
    push_contexts self frames = set_context_stack self (pushed ++ context_stack self) /\
    length pushed = length frames.
Proof.
  revert self. induction frames as [|[[type keywords] desc] frames IH]; intros self.
  - exists []. split; [symmetry; apply set_context_stack_same | reflexivity].
  - change (push_contexts self ((type, keywords, desc) :: frames))
      with (push_contexts (cfg_lexer_push_context self type keywords desc) frames).
    destruct (IH (cfg_lexer_push_context self type keywords desc)) as (pushed & -> & Hlen).
    eexists (pushed ++ [_]). split.
    + unfold cfg_lexer_push_context, set_context_stack. simpl.
      rewrite <- app_assoc. reflexivity.
    + rewrite length_app, Hlen. simpl. lia.
Qed.

(** X1.  Pushing and popping lexer contexts is balanced: after any
    sequence of [cfg_lexer_push_context] calls, as many calls of
    [cfg_lexer_pop_context] give back the lexer as it was, whatever the
    frames were.  Pops never fail: on a stack of fewer frames than pops
    they stop at the empty stack, where the context type is 0 and the
    description is [configuration]. *)
Theorem push_pop_contexts_balanced self
    (frames : list (Z * option (list CfgLexerKeyword) * string)) (n : nat) :
  pop_contexts (length frames) (push_contexts self frames) = self /\
  context_stack (pop_contexts n self) = drop n (context_stack self) /\
  ((length (context_stack self) <= n)%nat ->
   cfg_lexer_get_context_type (pop_contexts n self) = 0 /\
   cfg_lexer_get_context_description (pop_contexts n self) = "configuration").
Proof.
  split; [|split].
  - destruct (push_contexts_stack self frames) as (pushed & Hpush & Hlen).
    rewrite pop_contexts_stack, Hpush. simpl.
    rewrite <- Hlen, drop_app_length.
    destruct self; reflexivity.
  - rewrite pop_contexts_stack. reflexivity.
  - intros Hn. rewrite pop_contexts_stack.
    unfold cfg_lexer_get_context_type, cfg_lexer_get_context_description. simpl.
    rewrite drop_ge by exact Hn. split; reflexivity.
Qed.

(** X2.  A context pushed with the type 0 takes over the type that is
    current: after a sequence of pushes the current type is the last
    requested type that is not 0, and the type before the pushes when
    every push requested 0.  A lexer in a context of a type other than 0
    stays in a context of a type other than 0. *)
Theorem push_contexts_inherit_type self
    (frames : list (Z * option (list CfgLexerKeyword) * string)) :
  cfg_lexer_get_context_type (push_contexts self frames) =
    inherited_type (cfg_lexer_get_context_type self) (map (fun f => fst (fst f)) frames) /\
  (Forall (fun f => fst (fst f) = 0) frames ->
   cfg_lexer_get_context_type (push_contexts self frames) = cfg_lexer_get_context_type self) /\
  (cfg_lexer_get_context_type self <> 0 ->
   cfg_lexer_get_context_type (push_contexts self frames) <> 0).
Proof.
  assert (Hgen : forall s : CfgLexer yyscan_t,
            cfg_lexer_get_context_type (push_contexts s frames) =
            inherited_type (cfg_lexer_get_context_type s) (map (fun f => fst (fst f)) frames)).
  { induction frames as [|[[type keywords] desc] frames IH]; intros s; [reflexivity|].
    change (push_contexts s ((type, keywords, desc) :: frames))
      with (push_contexts (cfg_lexer_push_context s type keywords desc) frames).
    rewrite IH. reflexivity. }
  split; [apply Hgen|]. split.
  - intros Hzero. rewrite Hgen. clear Hgen.
    generalize (cfg_lexer_get_context_type self).
    induction Hzero as [|[[type keywords] desc] frames Hf _ IH]; intros cur; [reflexivity|].
    simpl in Hf. subst type. simpl. apply IH.
  - rewrite Hgen. clear Hgen. generalize (cfg_lexer_get_context_type self).
    induction frames as [|[[type keywords] desc] frames IH]; intros cur Hcur; [exact Hcur|].
    simpl. apply IH. destruct (Z.eqb_spec type 0); assumption.
Qed.

End ContextStackFacts.

Lemma push_pop_contexts_balanced_witness :
  cfg_lexer_get_context_type
    (pop_contexts 3 (push_contexts (cfg_lexer_init tt)
                       [(LL_CONTEXT_ROOT, None, "root"); (LL_CONTEXT_SOURCE, None, "source")]))
    = 0 /\
  cfg_lexer_get_context_description
    (pop_contexts 3 (push_contexts (cfg_lexer_init tt)
                       [(LL_CONTEXT_ROOT, None, "root"); (LL_CONTEXT_SOURCE, None, "source")]))
    = "configuration".
Proof.
  apply (push_pop_contexts_balanced
           (push_contexts (cfg_lexer_init tt)
              [(LL_CONTEXT_ROOT, None, "root"); (LL_CONTEXT_SOURCE, None, "source")])
           [] 3).
  simpl. lia.
Defined.

Lemma push_contexts_inherit_type_witness :
  cfg_lexer_get_context_type
    (push_contexts (cfg_lexer_push_context (cfg_lexer_init tt) LL_CONTEXT_SOURCE None "source")
                   [(0, None, "driver"); (0, None, "option")])
  = LL_CONTEXT_SOURCE.
Proof.
  apply (push_contexts_inherit_type
           (cfg_lexer_push_context (cfg_lexer_init tt) LL_CONTEXT_SOURCE None "source")
           [(0, None, "driver"); (0, None, "option")]).
  repeat constructor.
Defined.

(** ** The table of context names *)

Lemma context_type_from_found (entries : list (option string)) (i : Z) (name : string)
    (r : Z) :
  context_type_from entries i (Some name) = Returns r ->
  (r = 0 /\ Some name ∉ entries) \/
  (exists n : nat, entries !! n = Some (Some name) /\ r = i + Z.of_nat n).
Proof.
  revert i. induction entries as [|e entries IH]; intros i; simpl.
  - intros [= <-]. left. split; [reflexivity | apply not_elem_of_nil].
  - destruct e as [s|].
    + destruct (String.eqb_spec s name) as [->|Hne].
      * intros [= <-]. right. exists 0%nat. split; [reflexivity | lia].
      * intros H. destruct (IH _ H) as [[-> Hnot]|(n & Hn & ->)].
        -- left. split; [reflexivity|]. intros Hin.
           apply elem_of_cons in Hin as [Heq|Hin]; [congruence | contradiction].
        -- right. exists (S n). split; [exact Hn | lia].
    + intros H. destruct (IH _ H) as [[-> Hnot]|(n & Hn & ->)].
      * left. split; [reflexivity|]. intros Hin.
        apply elem_of_cons in Hin as [Heq|Hin]; [discriminate | contradiction].
      * right. exists (S n). split; [exact Hn | lia].
Qed.

Lemma context_type_from_returns (entries : list (option string)) (i : Z) (name : string) :
  exists r : Z, context_type_from entries i (Some name) = Returns r.
Proof.
  revert i. induction entries as [|[s|] entries IH]; intros i; simpl; eauto.
  destruct (String.eqb s name); eauto.
Qed.

(** X3.  The lookup of a context type by a name that is not NULL always
    returns, with a type between 0 and 18.  It returns 0 exactly for the
    names that are not in the table, and for a name of the table it
    returns the type whose name this is: the lookup by type gives the
    name back. *)
Theorem context_name_lookup_round_trip (name : string) :
  exists t : Z,
    cfg_lexer_lookup_context_type_by_name (Some name) = Returns t /\
    0 <= t <= 18 /\
    (t = 0 <-> Some name ∉ lexer_contexts) /\
    (t <> 0 -> cfg_lexer_lookup_context_name_by_type t = Returns (Some name)).
Proof.
  unfold cfg_lexer_lookup_context_type_by_name.
  destruct (context_type_from_returns lexer_contexts 0 name) as [t Ht].
  exists t. split; [exact Ht|].
  destruct (context_type_from_found _ _ _ _ Ht) as [[-> Hnot]|(n & Hn & ->)].
  - split; [lia|]. split; [tauto|]. congruence.
  - assert (Hlt : (n < 19)%nat) by (apply lookup_lt_Some in Hn; exact Hn).
    assert (Hpos : n <> 0%nat).
    { intros ->. rewrite lexer_contexts_value in Hn. discriminate. }
    split; [lia|]. split.
    + split; [lia|]. intros Hnot. exfalso. apply Hnot.
      apply list_elem_of_lookup. exists n. exact Hn.
    + intros _. unfold cfg_lexer_lookup_context_name_by_type.
      replace (length lexer_contexts) with 19%nat by reflexivity.
      destruct (Z.leb_spec 0 (0 + Z.of_nat n)); [|lia].
      destruct (Z.ltb_spec (0 + Z.of_nat n) (Z.of_nat 19)); [|lia].
      simpl. replace (Z.to_nat (0 + Z.of_nat n)) with n by lia.
      rewrite Hn. reflexivity.
Qed.

Lemma context_name_lookup_round_trip_witness :
  exists t : Z,
    cfg_lexer_lookup_context_type_by_name (Some "filter") = Returns t /\
    cfg_lexer_lookup_context_name_by_type t = Returns (Some "filter").
Proof.
  destruct (context_name_lookup_round_trip "filter") as (t & Ht & _ & Hzero & Hback).
  exists t. split; [exact Ht|]. apply Hback.
  intros Hz. apply Hzero in Hz. apply Hz. rewrite lexer_contexts_value.
  apply list_elem_of_In. simpl. tauto.
Defined.

(** X4.  The lookup of a context name by type returns for the types 0 to
    18 and stops the process for every other type.  It returns NULL for
    0 and for block-arg only, and two types with the same name are the
    same type. *)
Theorem context_name_by_type_total_and_injective :
  (forall t : Z,
      cfg_lexer_lookup_context_name_by_type t = Aborts <-> (t < 0 \/ 18 < t)) /\
  (forall t : Z,
      cfg_lexer_lookup_context_name_by_type t = Returns None <->
      (t = 0 \/ t = LL_CONTEXT_BLOCK_ARG)) /\
  (forall (t1 t2 : Z) (name : string),
      cfg_lexer_lookup_context_name_by_type t1 = Returns (Some name) ->
      cfg_lexer_lookup_context_name_by_type t2 = Returns (Some name) ->
      t1 = t2).
Proof.
  assert (Hcases : forall t : Z,
            (t < 0 \/ 18 < t) \/ t = 0 \/ t = 11 \/
            (1 <= t <= 18 /\ t <> 11)) by (intros t; lia).
  assert (Hout : forall t, t < 0 \/ 18 < t -> cfg_lexer_lookup_context_name_by_type t = Aborts).
  { intros t Ht. unfold cfg_lexer_lookup_context_name_by_type.
    replace (length lexer_contexts) with 19%nat by reflexivity.
    destruct (Z.leb_spec 0 t); [|reflexivity].
    destruct (Z.ltb_spec t (Z.of_nat 19)); [lia | reflexivity]. }
  assert (Hnamed : forall t, 1 <= t <= 18 -> t <> 11 ->
            exists name, cfg_lexer_lookup_context_name_by_type t = Returns (Some name) /\
                         cfg_lexer_lookup_context_type_by_name (Some name) = Returns t).
  { intros t Hrange Hne.
    assert (Ht : t = 1 \/ t = 2 \/ t = 3 \/ t = 4 \/ t = 5 \/ t = 6 \/ t = 7 \/ t = 8 \/
                 t = 9 \/ t = 10 \/ t = 12 \/ t = 13 \/ t = 14 \/ t = 15 \/ t = 16 \/
                 t = 17 \/ t = 18) by lia.
    repeat (destruct Ht as [->|Ht]; [eexists; split; reflexivity|]).
    subst t. eexists; split; reflexivity. }
  split; [|split].
  - intros t. split; [|apply Hout].
    intros Habort. destruct (Hcases t) as [H|[->|[->|[Hr Hn]]]]; [exact H | discriminate.. |].
    destruct (Hnamed t Hr Hn) as (name & Hname & _). congruence.
  - intros t. split.
    + intros Hnull. destruct (Hcases t) as [H|[->|[->|[Hr Hn]]]].
      * rewrite (Hout t H) in Hnull. discriminate.
      * left. reflexivity.
      * right. reflexivity.
      * destruct (Hnamed t Hr Hn) as (name & Hname & _). congruence.
    + intros [->| ->]; reflexivity.
  - intros t1 t2 name H1 H2.
    assert (Hback : forall t, cfg_lexer_lookup_context_name_by_type t = Returns (Some name) ->
              cfg_lexer_lookup_context_type_by_name (Some name) = Returns t).
    { intros t Ht. destruct (Hcases t) as [H|[->|[->|[Hr Hn]]]].
      - rewrite (Hout t H) in Ht. discriminate.
      - discriminate.
      - discriminate.
      - destruct (Hnamed t Hr Hn) as (name' & Hname & Hround).
        rewrite Hname in Ht. injection Ht as ->. exact Hround. }
    pose proof (Hback t1 H1) as E1. pose proof (Hback t2 H2) as E2.
    rewrite E1 in E2. injection E2 as ->. reflexivity.
Qed.

Lemma context_name_by_type_total_and_injective_witness :
  cfg_lexer_lookup_context_name_by_type 19 = Aborts /\ LL_CONTEXT_LOG = 7.
Proof.
  destruct context_name_by_type_total_and_injective as (Habort & _ & Hinj).
  split.
  - apply Habort. right. reflexivity.
  - apply (Hinj LL_CONTEXT_LOG 7 "log"); reflexivity.
Defined.

(** ** Keyword resolution *)

Lemma keyword_spelling_matches_underscores (token kw : string) :
  keyword_spelling_matches (hyphens_to_underscores token) kw =
  keyword_spelling_matches token kw.
Proof.
  revert kw. induction token as [|t token IH]; intros [|k kw]; simpl; try reflexivity.
  destruct (Ascii.eqb_spec t "-") as [->|Hne]; simpl.
  - rewrite IH. reflexivity.
  - destruct (Ascii.eqb_spec t "-"); [contradiction|]. simpl. rewrite IH. reflexivity.
Qed.

Lemma scan_keywords_same_spelling (cfg_version : Z) (t1 t2 : string) :
  (forall kw, keyword_spelling_matches t1 kw = keyword_spelling_matches t2 kw) ->
  forall (keywords : list CfgLexerKeyword) (i : nat),
    scan_keywords cfg_version t1 i keywords = scan_keywords cfg_version t2 i keywords.
Proof.
  intros Hsame keywords. induction keywords as [|k keywords IH]; intros i; simpl;
    [reflexivity|].
  rewrite Hsame, IH. reflexivity.
Qed.

(** X5.  For the resolution of keywords a hyphen in the identifier is an
    underscore: two identifiers that are equal once their hyphens are
    written as underscores are resolved to the same token, with the same
    warnings and the same effect on the keyword tables (only the lexeme
    kept for an identifier is the one that was typed). *)
Theorem hyphen_is_underscore_for_resolution
    (tokens : GrammarTokens) (cfg_version : Z)
    (location : option (option string * YYLTYPE)) (yylval : YYSTYPE)
    (l : list CfgLexerContext) (t1 t2 : string) :
  hyphens_to_underscores t1 = hyphens_to_underscores t2 ->
  resolution_outcome (lookup_keyword_in cfg_version location t1 yylval l) =
  resolution_outcome (lookup_keyword_in cfg_version location t2 yylval l).
Proof.
  intros Heq.
  assert (Hsame : forall kw, keyword_spelling_matches t1 kw = keyword_spelling_matches t2 kw).
  { intros kw. rewrite <- (keyword_spelling_matches_underscores t1),
      <- (keyword_spelling_matches_underscores t2), Heq. reflexivity. }
  induction l as [|context next IH]; [reflexivity|].
  unfold resolution_outcome in *. simpl.
  destruct (lookup_keyword_in cfg_version location t1 yylval next) as [[[tok1 v1] n1] e1].
  destruct (lookup_keyword_in cfg_version location t2 yylval next) as [[[tok2 v2] n2] e2].
  simpl in IH. injection IH as -> -> ->.
  destruct (ctx_keywords context) as [keywords|]; [|reflexivity].
  rewrite (scan_keywords_same_spelling cfg_version t1 t2 Hsame).
  destruct (scan_keywords cfg_version t2 0 keywords); reflexivity.
Qed.

Lemma hyphen_is_underscore_for_resolution_witness :
  resolution_outcome
    (lookup_keyword_in (tokens := example_tokens) 0x0300 None "flush-lines" yylval_zero
       [keyword_context LL_CONTEXT_ROOT [plain_keyword "flush_lines" 10100 0]]) =
  resolution_outcome
    (lookup_keyword_in (tokens := example_tokens) 0x0300 None "flush_lines" yylval_zero
       [keyword_context LL_CONTEXT_ROOT [plain_keyword "flush_lines" 10100 0]]).
Proof.
  apply (hyphen_is_underscore_for_resolution example_tokens). reflexivity.
Defined.

(** A keyword spelling with a hyphen in it matches no identifier. *)
Lemma hyphenated_spelling_never_matches (token kw : string) :
  "-"%char ∈ list_ascii_of_string kw -> keyword_spelling_matches token kw = false.
Proof.
  revert token. induction kw as [|k kw IH]; intros token Hin; simpl in Hin.
  - inversion Hin.
  - destruct token as [|t token]; [reflexivity|]. simpl.
    apply elem_of_cons in Hin as [<-|Hin].
    + destruct (Ascii.eqb t "-" || Ascii.eqb t "_")%bool eqn:Hc; [reflexivity|].
      apply orb_false_iff in Hc as [Hc _]. rewrite Hc. reflexivity.
    + rewrite (IH token Hin).
      destruct (Ascii.eqb t "-" || Ascii.eqb t "_")%bool;
        [destruct (Ascii.eqb k "_") | destruct (Ascii.eqb t k)]; reflexivity.
Qed.

Lemma scan_keywords_token (cfg_version : Z) (token : string)
    (keywords : list CfgLexerKeyword) (j i : nat) (k : CfgLexerKeyword) :
  scan_keywords cfg_version token j keywords = ScanToken i k ->
  (j <= i)%nat /\ keywords !! (i - j)%nat = Some k /\
  kw_name k <> CFG_KEYWORD_STOP /\
  keyword_spelling_matches token (kw_name k) = true /\
  kw_req_version k <= cfg_version /\
  forall st : KeywordStatus,
    scan_keywords cfg_version token j (<[(i - j)%nat := set_kw_status k st]> keywords)
      = ScanToken i (set_kw_status k st).
Proof.
  revert j. induction keywords as [|e keywords IH]; intros j; simpl; [discriminate|].
  destruct (String.eqb_spec (kw_name e) CFG_KEYWORD_STOP) as [Hstop|Hstop]; [discriminate|].
  destruct (keyword_spelling_matches token (kw_name e)) eqn:Hmatch.
  - destruct (cfg_check_current_config_version cfg_version (kw_req_version e)) eqn:Hver;
      [|discriminate].
    intros [= <- <-]. rewrite Nat.sub_diag.
    split; [lia|]. split; [reflexivity|]. split; [exact Hstop|]. split; [exact Hmatch|].
    split; [apply Z.leb_le; exact Hver|].
    intros st. simpl.
    destruct (String.eqb_spec (kw_name e) CFG_KEYWORD_STOP); [contradiction|].
    rewrite Hmatch, Hver. reflexivity.
  - intros H. destruct (IH _ H) as (Hle & Hk & Hns & Hm & Hv & Hset).
    split; [lia|].
    replace (i - j)%nat with (S (i - S j)) by lia.
    split; [exact Hk|]. split; [exact Hns|]. split; [exact Hm|]. split; [exact Hv|].
    intros st. simpl.
    destruct (String.eqb_spec (kw_name e) CFG_KEYWORD_STOP); [contradiction|].
    rewrite Hmatch. apply Hset.
Qed.

(** X6.  A resolution is sound.  The result of [cfg_lexer_lookup_keyword]
    is either the identifier token with the lexeme as it was typed, or the
    token of an entry of a keyword table of the stack whose spelling
    matches the identifier, whose required version the configuration
    meets and whose spelling has no hyphen; the stop entry is never the
    one. *)
Theorem keyword_resolution_sound
    (tokens : GrammarTokens) (cfg_version : Z)
    (location : option (option string * YYLTYPE)) (token : string) (yylval : YYSTYPE)
    (l : list CfgLexerContext) :
  let '(tok, v, _, _) := lookup_keyword_in cfg_version location token yylval l in
  (tok = LL_IDENTIFIER /\ v = set_cptr yylval token) \/
  (exists k : CfgLexerKeyword,
      resolves_to cfg_version token l k /\
      ("-"%char ∉ list_ascii_of_string (kw_name k)) /\
      tok = kw_token k /\
      v = {| yy_type := LL_TOKEN; yy_token := kw_token k; yy_cptr := yy_cptr yylval |}).
Proof.
  induction l as [|context next IH]; simpl; [left; split; reflexivity|].
  assert (Hbelow :
    let '(tok, v, _, _) := lookup_keyword_in cfg_version location token yylval next in
    (tok = LL_IDENTIFIER /\ v = set_cptr yylval token) \/
    (exists k : CfgLexerKeyword,
        resolves_to cfg_version token (context :: next) k /\
        ("-"%char ∉ list_ascii_of_string (kw_name k)) /\
        tok = kw_token k /\
        v = {| yy_type := LL_TOKEN; yy_token := kw_token k; yy_cptr := yy_cptr yylval |})).
  { destruct (lookup_keyword_in cfg_version location token yylval next) as [[[tok v] n] e].
    destruct IH as [IH|(k & (c & kws & Hc & Hk) & Hrest)]; [left; exact IH|].
    right. exists k. split; [|exact Hrest].
    exists c, kws. split; [right; exact Hc | exact Hk]. }
  destruct (lookup_keyword_in cfg_version location token yylval next) as [[[tok v] n] e].
  destruct (ctx_keywords context) as [keywords|] eqn:Hkw; [|exact Hbelow].
  destruct (scan_keywords cfg_version token 0 keywords) as [|i k|i k|] eqn:Hscan;
    try exact Hbelow.
  - left. split; reflexivity.
  - right. exists k.
    destruct (scan_keywords_token _ _ _ _ _ _ Hscan) as (_ & Hk & Hns & Hm & Hv & _).
    split; [|split; [|split; reflexivity]].
    + exists context, keywords. split; [left|]. split; [exact Hkw|].
      split; [apply list_elem_of_lookup; eauto|]. split; [exact Hns|].
      split; [exact Hm | exact Hv].
    + intros Hin. rewrite (hyphenated_spelling_never_matches token _ Hin) in Hm.
      discriminate.
Qed.

Lemma same_entry_refl (k : CfgLexerKeyword) : same_entry k k.
Proof. repeat split; try reflexivity. left. reflexivity. Qed.

Lemma same_entries_refl (keywords : list CfgLexerKeyword) :
  Forall2 same_entry keywords keywords.
Proof. induction keywords; constructor; [apply same_entry_refl | assumption]. Qed.

Lemma same_frame_refl (c : CfgLexerContext) : same_frame c c.
Proof.
  split; [reflexivity|]. split; [reflexivity|].
  destruct (ctx_keywords c) as [keywords|]; constructor. apply same_entries_refl.
Qed.

Lemma same_frames_refl (l : list CfgLexerContext) : Forall2 same_frame l l.
Proof. induction l; constructor; [apply same_frame_refl | assumption]. Qed.

Lemma same_entries_after_match (keywords : list CfgLexerKeyword) (i : nat)
    (k : CfgLexerKeyword) :
  keywords !! i = Some k ->
  Forall2 same_entry keywords (<[i := set_kw_status k KWS_NORMAL]> keywords).
Proof.
  intros Hk. rewrite <- (list_insert_id keywords i k Hk) at 1.
  apply Forall2_insert.
  - apply same_entries_refl.
  - repeat split; try reflexivity. right. reflexivity.
Qed.

(** X7.  A resolution leaves the context stack in shape: the stack it
    returns has the same frames with the same types, descriptions and
    keyword tables, entry by entry, except that the status of a keyword
    may have become normal. *)
Theorem keyword_resolution_keeps_stack
    (tokens : GrammarTokens) (cfg_version : Z)
    (location : option (option string * YYLTYPE)) (token : string) (yylval : YYSTYPE)
    (l : list CfgLexerContext) :
  Forall2 same_frame l
    (snd (fst (lookup_keyword_in cfg_version location token yylval l))).
Proof.
  induction l as [|context next IH]; simpl; [constructor|].
  destruct (lookup_keyword_in cfg_version location token yylval next) as [[[tok v] n] e].
  simpl in IH.
  assert (Hdescend : Forall2 same_frame (context :: next) (context :: n))
    by (constructor; [apply same_frame_refl | exact IH]).
  destruct (ctx_keywords context) as [keywords|] eqn:Hkw; [|exact Hdescend].
  destruct (scan_keywords cfg_version token 0 keywords) as [|i k|i k|] eqn:Hscan;
    simpl; try exact Hdescend.
  - apply same_frames_refl.
  - constructor.
    + split; [reflexivity|]. split; [reflexivity|]. rewrite Hkw. simpl. constructor.
      destruct (scan_keywords_token _ _ _ _ _ _ Hscan) as (_ & Hk & _).
      rewrite Nat.sub_0_r in Hk. apply same_entries_after_match. exact Hk.
    + apply same_frames_refl.
Qed.

(** X8.  An obsolete keyword warns once.  When the stack that a
    resolution returns is used to resolve the same identifier again, the
    token and the semantic value are the same, the stack is left as it
    is, and the messages are the reserved word warnings of the first
    resolution without the obsolescence warning, which the first
    resolution may have emitted as its last message. *)
Theorem obsolete_keyword_warns_once
    (tokens : GrammarTokens) (cfg_version : Z)
    (location : option (option string * YYLTYPE)) (token : string) (yylval : YYSTYPE)
    (l : list CfgLexerContext) :
  let '(tok, v, l', evs) := lookup_keyword_in cfg_version location token yylval l in
  exists reserved obsolete : list Event,
    evs = reserved ++ obsolete /\
    reserved_word_warnings cfg_version location reserved /\
    (obsolete = [] \/ exists k, obsolete = [obsolete_keyword_warning k]) /\
    lookup_keyword_in cfg_version location token yylval l' = (tok, v, l', reserved).
Proof.
  induction l as [|context next IH]; simpl.
  - exists [], []. repeat split; [constructor | left; reflexivity].
  - destruct (lookup_keyword_in cfg_version location token yylval next)
      as [[[tok v] n] e] eqn:Hnext.
    destruct IH as (reserved & obsolete & -> & Hres & Hobs & Hagain).
    destruct (ctx_keywords context) as [keywords|] eqn:Hkw.
    + destruct (scan_keywords cfg_version token 0 keywords) as [|i k|i k|] eqn:Hscan.
      * exists [], []. split; [reflexivity|]. split; [constructor|].
        split; [left; reflexivity|]. simpl. rewrite Hkw, Hscan. reflexivity.
      * exists (reserved_word_warning cfg_version k location :: reserved), obsolete.
        split; [reflexivity|]. split; [constructor; [eexists; reflexivity | exact Hres]|].
        split; [exact Hobs|]. simpl. rewrite Hkw, Hscan, Hagain. reflexivity.
      * destruct (scan_keywords_token _ _ _ _ _ _ Hscan) as (_ & Hk & _ & _ & _ & Hset).
        rewrite Nat.sub_0_r in Hk, Hset.
        exists [], (match kw_status k with
                    | KWS_OBSOLETE => [obsolete_keyword_warning k]
                    | KWS_NORMAL => []
                    end).
        split; [reflexivity|]. split; [constructor|].
        split; [destruct (kw_status k); [left; reflexivity | right; eexists; reflexivity]|].
        simpl. rewrite (Hset KWS_NORMAL). simpl.
        rewrite list_insert_insert_eq. reflexivity.
      * exists reserved, obsolete.
        split; [reflexivity|]. split; [exact Hres|]. split; [exact Hobs|].
        simpl. rewrite Hkw, Hscan, Hagain. reflexivity.
    + exists reserved, obsolete.
      split; [reflexivity|]. split; [exact Hres|]. split; [exact Hobs|].
      simpl. rewrite Hkw, Hagain. reflexivity.
Qed.

Lemma scan_keywords_stop (cfg_version : Z) (token : string)
    (pre : list CfgLexerKeyword) (stop : CfgLexerKeyword) (rest : list CfgLexerKeyword) :
  Forall (passed_by token) pre ->
  kw_name stop = CFG_KEYWORD_STOP ->
  forall i : nat, scan_keywords cfg_version token i (pre ++ stop :: rest) = ScanStop.
Proof.
  intros Hpre Hstop. induction Hpre as [|e pre [Hes Hem] _ IH]; intros i; simpl.
  - rewrite Hstop. reflexivity.
  - apply String.eqb_neq in Hes. rewrite Hes, Hem. apply IH.
Qed.

(** X9.  The stop entry shields the frames below.  When the scan of the
    keyword table of the top frame reaches the stop entry before an entry
    that matches, the identifier stays an identifier, whatever the rest
    of the table and the frames below hold; nothing is reported and the
    stack is left as it is. *)
Theorem stop_entry_shields_lower_frames
    (tokens : GrammarTokens) (cfg_version : Z)
    (location : option (option string * YYLTYPE)) (token : string) (yylval : YYSTYPE)
    (context : CfgLexerContext) (next : list CfgLexerContext)
    (pre : list CfgLexerKeyword) (stop : CfgLexerKeyword) (rest : list CfgLexerKeyword) :
  ctx_keywords context = Some (pre ++ stop :: rest) ->
  Forall (passed_by token) pre ->
  kw_name stop = CFG_KEYWORD_STOP ->
  lookup_keyword_in cfg_version location token yylval (context :: next) =
    (LL_IDENTIFIER, set_cptr yylval token, context :: next, []).
Proof.
  intros Hkw Hpre Hstop. simpl.
  rewrite Hkw, (scan_keywords_stop cfg_version token pre stop rest Hpre Hstop).
  destruct (lookup_keyword_in cfg_version location token yylval next) as [[[tok v] n] e].
  reflexivity.
Qed.

Lemma stop_entry_shields_lower_frames_witness :
  lookup_keyword_in (tokens := example_tokens) 0x0300 None "source" yylval_zero
    [ keyword_context LL_CONTEXT_BLOCK_REF
        [plain_keyword "name" 10001 0; plain_keyword CFG_KEYWORD_STOP 0 0;
         plain_keyword "source" 10002 0];
      keyword_context LL_CONTEXT_ROOT [plain_keyword "source" 10000 0] ]
  = (10421, set_cptr yylval_zero "source",
     [ keyword_context LL_CONTEXT_BLOCK_REF
         [plain_keyword "name" 10001 0; plain_keyword CFG_KEYWORD_STOP 0 0;
          plain_keyword "source" 10002 0];
       keyword_context LL_CONTEXT_ROOT [plain_keyword "source" 10000 0] ],
     []).
Proof.
  apply (stop_entry_shields_lower_frames example_tokens 0x0300 None "source" yylval_zero
           (keyword_context LL_CONTEXT_BLOCK_REF
              [plain_keyword "name" 10001 0; plain_keyword CFG_KEYWORD_STOP 0 0;
               plain_keyword "source" 10002 0])
           [keyword_context LL_CONTEXT_ROOT [plain_keyword "source" 10000 0]]
           [plain_keyword "name" 10001 0] (plain_keyword CFG_KEYWORD_STOP 0 0)
           [plain_keyword "source" 10002 0]).
  - reflexivity.
  - repeat constructor. discriminate.
  - reflexivity.
Defined.

(** ** More on the substitution *)

Lemma string_length_app (s t : string) :
  String.length (s +:+ t) = (String.length s + String.length t)%nat.
Proof.
  induction s as [|c s IH]; [reflexivity|]. rewrite string_app_cons. simpl. rewrite IH.
  reflexivity.
Qed.

Lemma subst_scan_plain {utils : StringUtils} {environ : ProcessEnvironment}
    (globals defs args : option CfgArgs) (p ref res : string) :
  count_backticks p = 0%nat ->
  subst_scan globals defs args p
    {| subst_backtick := false; subst_ref := ref; subst_result := res |} =
    {| subst_backtick := false; subst_ref := ref; subst_result := res +:+ p |}.
Proof.
  revert res. induction p as [|c p IH]; intros res Hc; simpl.
  - rewrite string_app_nil_r. reflexivity.
  - simpl in Hc. destruct (Ascii.eqb c "`") eqn:Hb; [discriminate|].
    unfold subst_step. simpl. rewrite Hb. simpl.
    rewrite IH by exact Hc. rewrite string_app_assoc. reflexivity.
Qed.

(** X10.  A buffer without back-ticks is returned as it is, with its own
    length, whatever the scopes hold. *)
Theorem subst_args_plain_text {utils : StringUtils} {environ : ProcessEnvironment}
    (globals defs args : option CfgArgs) (cptr : string) :
  count_backticks cptr = 0%nat ->
  cfg_lexer_subst_args globals defs args cptr =
    Some (cptr, Z.of_nat (String.length cptr)).
Proof.
  intros Hc. unfold cfg_lexer_subst_args, subst_initial.
  rewrite (subst_scan_plain globals defs args cptr "" "" Hc). reflexivity.
Qed.

Lemma subst_args_plain_text_witness :
  cfg_lexer_subst_args (utils := spec_string_utils) (environ := empty_environment)
    (Some (cfg_args_set (utils := spec_string_utils) cfg_args_new "port" "514")) None None
    "port(514);" = Some ("port(514);", 10).
Proof.
  apply (subst_args_plain_text (utils := spec_string_utils) (environ := empty_environment)).
  reflexivity.
Defined.

Lemma subst_args_app {utils : StringUtils} {environ : ProcessEnvironment}
    (globals defs args : option CfgArgs) (s t a : string) (la : Z) :
  cfg_lexer_subst_args globals defs args s = Some (a, la) ->
  cfg_lexer_subst_args globals defs args (s +:+ t) =
    match cfg_lexer_subst_args globals defs args t with
    | Some (b, lb) => Some (a +:+ b, la + lb)
    | None => None
    end.
Proof.
  unfold cfg_lexer_subst_args at 1.
  destruct (subst_backtick (subst_scan globals defs args s subst_initial)) eqn:Hs;
    [discriminate|].
  intros [= Ha Hla]. unfold cfg_lexer_subst_args.
  rewrite (subst_scan_after globals defs args s t Hs). unfold prepend. simpl.
  destruct (subst_backtick (subst_scan globals defs args t subst_initial)); [reflexivity|].
  rewrite Ha, string_length_app, Nat2Z.inj_add, <- Hla, <- Ha. reflexivity.
Qed.

(** X11.  The substitution goes through a buffer piece by piece.  When a
    first piece is substituted with success, the buffer made of it and of
    a second piece fails exactly when the second piece fails, and
    otherwise gives the two results one after the other, the reported
    length being the sum of the two lengths. *)
Theorem subst_args_concatenation {utils : StringUtils} {environ : ProcessEnvironment}
    (globals defs args : option CfgArgs) (s t a : string) (la : Z) :
  cfg_lexer_subst_args globals defs args s = Some (a, la) ->
  cfg_lexer_subst_args globals defs args (s +:+ t) =
    match cfg_lexer_subst_args globals defs args t with
    | Some (b, lb) => Some (a +:+ b, la + lb)
    | None => None
    end.
Proof.
  intros Hs. destruct (cfg_lexer_subst_args globals defs args t) as [[b lb]|] eqn:Ht.
  - rewrite (subst_args_app globals defs args s t a la Hs), Ht. reflexivity.
  - rewrite (subst_args_app globals defs args s t a la Hs), Ht. reflexivity.
Qed.

Lemma subst_args_concatenation_witness :
  cfg_lexer_subst_args (utils := spec_string_utils) (environ := empty_environment)
    None None None ("a" +:+ String "`" (String "`" "b")) = Some ("a" +:+ "`b", 1 + 2).
Proof.
  exact (subst_args_concatenation (utils := spec_string_utils)
           (environ := empty_environment) None None None
           "a" (String "`" (String "`" "b")) "a" 1 eq_refl).
Defined.

(** X12.  An empty reference is one back-tick.  Between two pieces that
    are substituted with success, two back-ticks in a row contribute a
    single back-tick to the result. *)
Theorem subst_args_empty_reference {utils : StringUtils} {environ : ProcessEnvironment}
    (globals defs args : option CfgArgs) (pre post a b : string) (la lb : Z) :
  cfg_lexer_subst_args globals defs args pre = Some (a, la) ->
  cfg_lexer_subst_args globals defs args post = Some (b, lb) ->
  cfg_lexer_subst_args globals defs args (pre +:+ String "`" (String "`" post)) =
    Some (a +:+ String "`" b, la + (1 + lb)).
Proof.
  intros Hpre Hpost.
  rewrite (subst_args_app globals defs args pre _ a la Hpre).
  change (String "`" (String "`" post)) with (String "`" (String "`" "") +:+ post).
  rewrite (subst_args_app globals defs args (String "`" (String "`" "")) post
             (String "`" "") 1 eq_refl).
  rewrite Hpost. reflexivity.
Qed.

Lemma subst_args_empty_reference_witness :
  cfg_lexer_subst_args (utils := spec_string_utils) (environ := empty_environment)
    None None None ("echo " +:+ String "`" (String "`" " done")) =
  Some ("echo " +:+ String "`" " done", 5 + (1 + 5)).
Proof.
  exact (subst_args_empty_reference (utils := spec_string_utils)
           (environ := empty_environment) None None None
           "echo " " done" "echo " " done" 5 5 eq_refl eq_refl).
Defined.

(** ** Argument maps *)

Section ArgumentMapFacts.
Context {utils : StringUtils}.

(** The normalization of a normalized key changes nothing. *)
Hypothesis normalize_key_idempotent :
  forall k : string, normalize_key (normalize_key k) = normalize_key k.

Lemma cfg_args_set_keys_normalized (self : CfgArgs) (name value : string) :
  keys_normalized self -> keys_normalized (cfg_args_set self name value).
Proof.
  intros Hself k v. unfold cfg_args_set. rewrite lookup_insert.
  case_decide as Hk; [intros _; subst k; apply normalize_key_idempotent | apply Hself].
Qed.

Lemma cfg_args_get_set (self : CfgArgs) (name value name' : string) :
  keys_normalized self ->
  cfg_args_get (cfg_args_set self name value) name' =
    if decide (normalize_key name = normalize_key name') then Some value
    else cfg_args_get self name'.
Proof.
  intros Hself. unfold cfg_args_get, cfg_args_set.
  destruct (decide (normalize_key name = normalize_key name')) as [Heq|Hne].
  - destruct (decide (normalize_key name = name')) as [<-|Hraw].
    + rewrite lookup_insert_eq. reflexivity.
    + rewrite lookup_insert_ne by exact Hraw.
      destruct (self !! name') as [u|] eqn:Hu.
      * exfalso. apply Hraw. rewrite Heq. exact (Hself _ _ Hu).
      * rewrite <- Heq. apply lookup_insert_eq.
  - assert (Hraw : normalize_key name <> name').
    { intros <-. apply Hne. symmetry. apply normalize_key_idempotent. }
    rewrite lookup_insert_ne by exact Hraw.
    destruct (self !! name'); [reflexivity|].
    rewrite lookup_insert_ne by exact Hne. reflexivity.
Qed.

Lemma cfg_args_of_snoc (sets : list (string * string)) (name value : string) :
  cfg_args_of (sets ++ [(name, value)]) = cfg_args_set (cfg_args_of sets) name value.
Proof. unfold cfg_args_of. rewrite foldl_app. reflexivity. Qed.

Lemma cfg_args_of_keys_normalized (sets : list (string * string)) :
  keys_normalized (cfg_args_of sets).
Proof.
  induction sets as [|[name value] sets IH] using rev_ind.
  - intros k v Hk. unfold cfg_args_of, cfg_args_new in Hk. simpl in Hk.
    rewrite lookup_empty in Hk. discriminate.
  - rewrite cfg_args_of_snoc. apply cfg_args_set_keys_normalized. exact IH.
Qed.

(** X13.  An argument map is a map on normalized names.  In a map built
    from a new one by [cfg_args_set] calls, [cfg_args_get] returns the
    value of the last call whose name has the same normalized form as the
    name asked for, and NULL when there is none. *)
Theorem cfg_args_get_last_set (sets : list (string * string)) (name : string) :
  cfg_args_get (cfg_args_of sets) name = last_set sets name.
Proof.
  induction sets as [|[name' value] sets IH] using rev_ind.
  - unfold cfg_args_get, cfg_args_of, cfg_args_new. simpl.
    rewrite !lookup_empty. reflexivity.
  - rewrite cfg_args_of_snoc, cfg_args_get_set by apply cfg_args_of_keys_normalized.
    unfold last_set. rewrite foldl_app. simpl. fold (last_set sets name).
    rewrite IH. reflexivity.
Qed.

End ArgumentMapFacts.

Lemma normalize_char_idempotent (c : ascii) :
  normalize_char (normalize_char c) = normalize_char c.
Proof. destruct c as [[] [] [] [] [] [] [] []]; reflexivity. Qed.

Lemma normalize_key_spec_idempotent (k : string) :
  normalize_key_spec (normalize_key_spec k) = normalize_key_spec k.
Proof.
  induction k as [|c k IH]; [reflexivity|]. simpl.
  rewrite normalize_char_idempotent, IH. reflexivity.
Qed.

Lemma cfg_args_get_last_set_witness :
  cfg_args_get (utils := spec_string_utils)
    (cfg_args_of (utils := spec_string_utils)
       [("flush-lines", "10"); ("port", "514"); ("Flush_Lines", "20")])
    "flush_lines" = Some "20".
Proof.
  exact (cfg_args_get_last_set (utils := spec_string_utils) normalize_key_spec_idempotent
           [("flush-lines", "10"); ("port", "514"); ("Flush_Lines", "20")] "flush_lines").
Defined.

Section ValidationFacts.
Context {utils : StringUtils} {table : HashTableOrder}.

Lemma validate_callback_fold (defs : option CfgArgs) (l : list (string * string))
    (bad : option (string * string)) :
  foldl (fun acc '(k, v) => cfg_args_validate_callback defs k v acc) bad l =
    match bad with
    | Some _ => bad
    | None => head (List.filter (unknown_argument defs) l)
    end.
Proof.
  revert bad. induction l as [|[k v] l IH]; intros bad; simpl.
  - destruct bad; reflexivity.
  - rewrite IH. unfold cfg_args_validate_callback, unknown_argument. simpl.
    destruct bad as [b|]; [reflexivity|].
    destruct defs as [d|]; [|reflexivity].
    destruct (cfg_args_get d k); reflexivity.
Qed.

(** The pairs that the table hands out are the pairs of the map. *)
Lemma In_g_hash_table_pairs (self : CfgArgs) (k v : string) :
  In (k, v) (g_hash_table_pairs self) <-> self !! k = Some v.
Proof.
  rewrite <- list_elem_of_In, (g_hash_table_pairs_all self).
  apply elem_of_map_to_list.
Qed.

(** X14.  Whatever the order in which the hash table hands out its pairs,
    [cfg_args_validate] accepts a map exactly when every key of the map is
    found in the definitions.  When it rejects, it reports one error,
    which names the first pair that [g_hash_table_foreach] visits whose key
    is not found, and nothing else.  Without definitions the empty map
    alone is accepted. *)
Theorem cfg_args_validate_first_unknown (self : CfgArgs) (defs : option CfgArgs)
    (context : string) :
  cfg_args_validate self defs context =
    match List.filter (unknown_argument defs) (g_hash_table_pairs self) with
    | [] => (true, [])
    | kv :: _ => (false, [unknown_argument_error context kv])
    end /\
  (fst (cfg_args_validate self defs context) = true <->
   forall k v : string, self !! k = Some v -> unknown_argument defs (k, v) = false) /\
  (defs = None -> (fst (cfg_args_validate self defs context) = true <-> self = ∅)).
Proof.
  assert (Hvalue : cfg_args_validate self defs context =
    match List.filter (unknown_argument defs) (g_hash_table_pairs self) with
    | [] => (true, [])
    | kv :: _ => (false, [unknown_argument_error context kv])
    end).
  { unfold cfg_args_validate, cfg_args_foreach. rewrite validate_callback_fold.
    destruct (List.filter (unknown_argument defs) (g_hash_table_pairs self))
      as [|[k v] rest]; reflexivity. }
  assert (Hiff : fst (cfg_args_validate self defs context) = true <->
            forall k v : string, self !! k = Some v -> unknown_argument defs (k, v) = false).
  { rewrite Hvalue.
    destruct (List.filter (unknown_argument defs) (g_hash_table_pairs self))
      as [|kv rest] eqn:Hf.
    - split; [|reflexivity]. intros _ k v Hk.
      destruct (unknown_argument defs (k, v)) eqn:Hu; [|reflexivity].
      assert (Hin : In (k, v)
                      (List.filter (unknown_argument defs) (g_hash_table_pairs self))).
      { apply filter_In. split; [|exact Hu].
        apply In_g_hash_table_pairs. exact Hk. }
      rewrite Hf in Hin. destruct Hin.
    - split; [discriminate|]. intros Hall. exfalso.
      assert (Hin : In kv (List.filter (unknown_argument defs) (g_hash_table_pairs self)))
        by (rewrite Hf; left; reflexivity).
      apply filter_In in Hin as [Hin Hu]. destruct kv as [k v].
      apply In_g_hash_table_pairs in Hin.
      rewrite (Hall k v Hin) in Hu. discriminate. }
  split; [exact Hvalue|]. split; [exact Hiff|].
  intros ->. rewrite Hiff. split.
  - intros Hall. apply map_eq. intros k. rewrite lookup_empty.
    destruct (self !! k) as [v|] eqn:Hk; [|reflexivity].
    specialize (Hall k v Hk). discriminate.
  - intros -> k v Hk. rewrite lookup_empty in Hk. discriminate.
Qed.

End ValidationFacts.

(** A map with two arguments that the definitions do not have, the pairs
    handed out by ascending key: the call fails and reports [flags], the
    first of the two. *)
Lemma cfg_args_validate_first_unknown_witness :
  let utils := spec_string_utils in
  let table := sorted_table_order in
  let self := cfg_args_of [("path", "/tmp/x"); ("mode", "0644"); ("flags", "no-parse")] in
  let defs := Some (cfg_args_of [("path", "/var/log/default")]) in
  g_hash_table_pairs self = [("flags", "no-parse"); ("mode", "0644"); ("path", "/tmp/x")] /\
  cfg_args_validate self defs "source" =
    (false, [unknown_argument_error "source" ("flags", "no-parse")]) /\
  fst (cfg_args_validate cfg_args_new None "source") = true.
Proof.
  intros utils table self defs.
  split; [vm_compute; reflexivity|]. split.
  - refine (eq_trans (proj1 (cfg_args_validate_first_unknown (utils := spec_string_utils)
                               (table := sorted_table_order) self defs "source")) _).
    vm_compute. reflexivity.
  - apply (cfg_args_validate_first_unknown (utils := spec_string_utils)
             (table := sorted_table_order) cfg_args_new None "source");
      reflexivity.
Defined.

(** ** Token blocks *)

Lemma fill_token_block_new (block : CfgTokenBlock) (l : list YYSTYPE) :
  tb_pos block = 0%nat ->
  fill_token_block block l =
    Returns {| tb_pos := 0; tb_tokens := tb_tokens block ++ l |}.
Proof.
  revert block. induction l as [|token l IH]; intros [pos tokens] Hpos;
    simpl in Hpos; subst pos; simpl.
  - rewrite app_nil_r. reflexivity.
  - rewrite IH by reflexivity. simpl. rewrite <- app_assoc. reflexivity.
Qed.

Lemma drain_token_block_from (n : nat) (pos : nat) (l : list YYSTYPE) :
  drain_token_block n {| tb_pos := pos; tb_tokens := l |} =
    (map Some (take n (drop pos l)) ++ replicate (n - length (drop pos l)) None,
     {| tb_pos := pos + min n (length (drop pos l)); tb_tokens := l |}).
Proof.
  revert pos. induction n as [|n IH]; intros pos.
  - simpl. rewrite Nat.add_0_r. reflexivity.
  - cbn [drain_token_block]. unfold cfg_token_block_get_token. cbn [tb_tokens tb_pos].
    destruct (l !! pos) as [token|] eqn:Hpos.
    + rewrite IH. rewrite (drop_S l token pos Hpos). cbn [length take map app].
      rewrite (Nat.sub_succ n), <- (Nat.succ_min_distr n).
      f_equal. f_equal. lia.
    + rewrite IH.
      assert (Hd : drop pos l = []) by (apply drop_ge, lookup_ge_None; exact Hpos).
      rewrite Hd, !take_nil. cbn [length map app]. rewrite !Nat.min_0_r, !Nat.sub_0_r.
      reflexivity.
Qed.

(** X15.  A token block is filled and then depleted.  Filling a new block
    never stops the process; the calls of [cfg_token_block_get_token]
    then return the tokens in the order in which they were added and NULL
    from then on, the block staying at its end; and once a token was
    taken from a block, adding a token to it stops the process. *)
Theorem token_block_fill_then_drain (l : list YYSTYPE) (extra : nat) :
  exists block : CfgTokenBlock,
    fill_token_block cfg_token_block_new l = Returns block /\
    drain_token_block (length l + extra) block =
      (map Some l ++ replicate extra None,
       {| tb_pos := length l; tb_tokens := l |}) /\
    (forall (n : nat) (token : YYSTYPE),
        (0 < n)%nat -> l <> [] ->
        cfg_token_block_add_token (snd (drain_token_block n block)) token = Aborts).
Proof.
  eexists. split; [apply fill_token_block_new; reflexivity|].
  cbn [cfg_token_block_new tb_tokens app]. split.
  - rewrite drain_token_block_from, drop_0, Nat.add_0_l.
    rewrite take_ge, Nat.min_r by lia.
    replace (length l + extra - length l)%nat with extra by lia. reflexivity.
  - intros n token Hn Hl. rewrite drain_token_block_from, drop_0. simpl.
    unfold cfg_token_block_add_token. simpl.
    destruct l as [|t l']; [contradiction|]. simpl.
    destruct n as [|n']; [lia|]. reflexivity.
Qed.

Lemma token_block_fill_then_drain_witness :
  exists block : CfgTokenBlock,
    fill_token_block cfg_token_block_new [lexeme_value 10421 "a"; lexeme_value 10421 "b"]
      = Returns block /\
    cfg_token_block_add_token (snd (drain_token_block 1 block)) (lexeme_value 10421 "c")
      = Aborts.
Proof.
  destruct (token_block_fill_then_drain [lexeme_value 10421 "a"; lexeme_value 10421 "b"] 0)
    as (block & Hfill & _ & Habort).
  exists block. split; [exact Hfill|].
  apply Habort; [lia | discriminate].
Defined.

Lemma pending_tokens_cons (block : CfgTokenBlock) (blocks : list CfgTokenBlock) :
  pending_tokens (block :: blocks) =
    drop (tb_pos block) (tb_tokens block) ++ pending_tokens blocks.
Proof. reflexivity. Qed.

Lemma pending_tokens_app (l1 l2 : list CfgTokenBlock) :
  pending_tokens (l1 ++ l2) = pending_tokens l1 ++ pending_tokens l2.
Proof. unfold pending_tokens. rewrite map_app, concat_app. reflexivity. Qed.

Lemma next_injected_token_pending (blocks : list CfgTokenBlock) :
  fst (next_injected_token blocks) = head (pending_tokens blocks) /\
  pending_tokens (snd (next_injected_token blocks)) = tail (pending_tokens blocks).
Proof.
  induction blocks as [|[pos tokens] blocks IH]; [split; reflexivity|].
  cbn [next_injected_token]. unfold cfg_token_block_get_token. cbn [tb_pos tb_tokens].
  rewrite pending_tokens_cons. cbn [tb_pos tb_tokens].
  destruct (tokens !! pos) as [token|] eqn:Hpos.
  - rewrite (drop_S tokens token pos Hpos). split; [reflexivity|].
    simpl. rewrite pending_tokens_cons. reflexivity.
  - rewrite (drop_ge tokens pos) by (apply lookup_ge_None; exact Hpos). exact IH.
Qed.

(** X16.  Injected tokens are handed out first in, first out.  A block
    that is injected joins the end of the pending tokens; [cfg_lexer_lex]
    fetches the first pending token before it turns to the scanner, gives
    it the location of the current include level and leaves the other
    pending tokens in their order.  A token that the lexer does not
    intercept is returned by this call, and when the configuration has a
    version the call changes nothing else: the token is not echoed. *)
Theorem injected_tokens_first_in_first_out
    {yyscan_t : Type} {tokens : GrammarTokens} {collaborators : Collaborators yyscan_t} :
  (forall (self : CfgLexer yyscan_t) (block : CfgTokenBlock),
      pending_tokens (token_blocks (cfg_lexer_inject_token_block self block)) =
        pending_tokens (token_blocks self) ++ drop (tb_pos block) (tb_tokens block)) /\
  (forall (fuel : nat) (w : World yyscan_t) (yylval : YYSTYPE) (yylloc : YYLTYPE)
          (token : YYSTYPE) (rest : list YYSTYPE),
      pending_tokens (token_blocks (lexer w)) = token :: rest ->
      exists blocks' : list CfgTokenBlock,
        pending_tokens blocks' = rest /\
        let w1 := set_lexer w (set_token_blocks (lexer w) blocks') in
        let here := lvl_lloc (current_include_level (lexer w)) in
        fetch_token w yylval yylloc = (injected_token_id token, token, here, true, w1) /\
        (intercepted w1 (injected_token_id token) token = false ->
         cfg_lexer_lex (S fuel) w yylval yylloc =
           Some (injected_token_id token, token, here, deliver_token w1 true)) /\
        (version (configuration w) <> 0 -> deliver_token w1 true = w1)).
Proof.
  split.
  - intros self block. unfold cfg_lexer_inject_token_block. simpl.
    rewrite pending_tokens_app. unfold pending_tokens at 2. simpl.
    rewrite app_nil_r. reflexivity.
  - intros fuel w yylval yylloc token rest Hpending.
    destruct (next_injected_token_pending (token_blocks (lexer w))) as [Hhead Htail].
    rewrite Hpending in Hhead, Htail. simpl in Hhead, Htail.
    destruct (next_injected_token (token_blocks (lexer w))) as [first blocks'] eqn:Hnext.
    simpl in Hhead, Htail. subst first.
    exists blocks'. split; [exact Htail|].
    assert (Hfetch : fetch_token w yylval yylloc =
              (injected_token_id token, token, lvl_lloc (current_include_level (lexer w)),
               true, set_lexer w (set_token_blocks (lexer w) blocks'))).
    { unfold fetch_token. rewrite Hnext. reflexivity. }
    split; [exact Hfetch|]. split.
    + intros Hnot. exact (cfg_lexer_lex_delivers fuel _ _ _ _ _ _ _ _ Hfetch Hnot).
    + intros Hversion. unfold deliver_token. simpl.
      apply Z.eqb_neq in Hversion. rewrite Hversion. reflexivity.
Qed.

Lemma injected_tokens_first_in_first_out_witness :
  let a := lexeme_value 10421 "a" in
  let b := lexeme_value 10421 "b" in
  let w : World (list ScriptedToken) :=
    set_lexer (initial_world [] 0x0300)
      (cfg_lexer_inject_token_block (lexer (initial_world [] 0x0300))
         {| tb_pos := 0; tb_tokens := [a; b] |}) in
  exists w1 : World (list ScriptedToken),
    cfg_lexer_lex (tokens := example_tokens)
      (collaborators := scripted_collaborators example_tokens) 1 w yylval_zero lloc_zero
      = Some (10421, a, lvl_lloc (current_include_level (lexer w)), w1) /\
    pending_tokens (token_blocks (lexer w1)) = [b].
Proof.
  intros a b w.
  destruct (proj2 (injected_tokens_first_in_first_out (tokens := example_tokens)
                     (collaborators := scripted_collaborators example_tokens))
              0%nat w yylval_zero lloc_zero a [b] eq_refl)
    as (blocks' & Hrest & _ & Hlex & Hsame).
  exists (set_lexer w (set_token_blocks (lexer w) blocks')). split.
  - rewrite (Hlex eq_refl), Hsame by discriminate. reflexivity.
  - exact Hrest.
Defined.

(** ** The registry of block generators *)

Lemma find_generator_in_app (l : list CfgBlockGenerator) (gen : CfgBlockGenerator)
    (context : Z) (name : string) :
  find_generator_in (l ++ [gen]) context name =
    match find_generator_in l context name with
    | Some g => Some g
    | None => if generator_matches gen context name then Some gen else None
    end.
Proof.
  induction l as [|g l IH]; simpl; [reflexivity|].
  destruct (generator_matches g context name); [reflexivity | exact IH].
Qed.

Lemma generator_matches_answers (gen : CfgBlockGenerator) (context : Z) (name : string) :
  generator_matches gen context name = true <-> answers_to context name gen.
Proof.
  unfold generator_matches, answers_to.
  rewrite andb_true_iff, orb_true_iff, !Z.eqb_eq, String.eqb_eq. reflexivity.
Qed.

Lemma context_in_table (context : Z) :
  0 <= context < Z.of_nat (length lexer_contexts) ->
  exists context_name, cfg_lexer_lookup_context_name_by_type context = Returns context_name.
Proof.
  intros Hrange. unfold cfg_lexer_lookup_context_name_by_type.
  destruct (Z.leb_spec 0 context); [|lia].
  destruct (Z.ltb_spec context (Z.of_nat (length lexer_contexts))); [|lia].
  eexists. reflexivity.
Qed.

(** X17.  What is registered is found.  After a call of
    [cfg_lexer_register_block_generator] for a context of the table of
    context names, the lookup of the pair finds a generator that answers
    to it: the generator that answered before the call, when there was
    one, and otherwise the new generator, with the function and the data
    of the call.  A generator registered for the context 0 is found in
    every context. *)
Theorem registered_generator_is_found
    {yyscan_t : Type} (w : World yyscan_t) (context : Z) (name : string)
    (generator generator_data notify : Z) :
  0 <= context < Z.of_nat (length lexer_contexts) ->
  exists (w' : World yyscan_t) (gen : CfgBlockGenerator),
    cfg_lexer_register_block_generator w context name generator generator_data (Some notify)
      = Returns w' /\
    cfg_lexer_find_generator (lexer w') context name = Some gen /\
    answers_to context name gen /\
    (cfg_lexer_find_generator (lexer w) context name = None ->
     gen = {| gen_context := context; gen_name := name; gen_generator := generator;
              gen_generator_data := generator_data;
              gen_generator_data_free := Some notify |}) /\
    (context = 0 ->
     forall other : Z, exists gen', cfg_lexer_find_generator (lexer w') other name = Some gen').
Proof.
  intros Hrange. destruct (context_in_table context Hrange) as [context_name Hname].
  unfold cfg_lexer_register_block_generator, cfg_lexer_find_generator.
  destruct (find_generator_in (generators (lexer w)) context name) as [found|] eqn:Hfind.
  - rewrite Hname. do 2 eexists. split; [reflexivity|]. simpl. rewrite Hfind.
    split; [reflexivity|]. split; [exact (proj2 (find_generator_in_Some _ _ _ _ Hfind))|].
    split; [discriminate|].
    intros -> other.
    destruct (find_generator_in_Some _ _ _ _ Hfind) as [Hin [Hc Hn]].
    assert (Hany : gen_context found = 0) by (destruct Hc; assumption).
    clear Hfind Hc. induction (generators (lexer w)) as [|g l IH]; [inversion Hin|].
    simpl. destruct (generator_matches g other name) eqn:Hm; [eauto|].
    apply elem_of_cons in Hin as [<-|Hin]; [|exact (IH Hin)].
    exfalso. unfold generator_matches in Hm.
    rewrite Hany, Z.eqb_refl, Hn, String.eqb_refl in Hm. discriminate.
  - do 2 eexists. split; [reflexivity|]. simpl.
    assert (Hself : forall c, generator_matches
              {| gen_context := context; gen_name := name; gen_generator := generator;
                 gen_generator_data := generator_data;
                 gen_generator_data_free := Some notify |} c name
              = (context =? 0) || (context =? c)).
    { intros c. unfold generator_matches. simpl. rewrite String.eqb_refl.
      apply andb_true_r. }
    rewrite find_generator_in_app, Hfind, Hself, Z.eqb_refl, orb_true_r.
    split; [reflexivity|]. split; [split; [right|]; reflexivity|].
    split; [reflexivity|].
    intros -> other. rewrite find_generator_in_app, Hself. simpl.
    destruct (find_generator_in (generators (lexer w)) other name); eauto.
Qed.

Lemma registered_generator_is_found_witness :
  exists (w' : World unit) (gen : CfgBlockGenerator),
    cfg_lexer_register_block_generator (initial_world tt 0x0300) 0 "myblk" 4096 8192
      (Some 12288) = Returns w' /\
    cfg_lexer_find_generator (lexer w') LL_CONTEXT_SOURCE "myblk" = Some gen.
Proof.
  destruct (registered_generator_is_found (initial_world tt 0x0300) 0 "myblk" 4096 8192 12288)
    as (w' & gen & Hreg & _ & _ & _ & Hany).
  - vm_compute. split; [discriminate | reflexivity].
  - destruct (Hany eq_refl LL_CONTEXT_SOURCE) as [gen' Hfind].
    exists w', gen'. split; [exact Hreg | exact Hfind].
Defined.

(** X18.  The generator registered first wins.  A registration that
    returns does not change the answer to a lookup that found a generator
    before it; a lookup that found none before it finds none after it or
    finds the generator of this registration. *)
Theorem registration_keeps_earlier_answers
    {yyscan_t : Type} (w w' : World yyscan_t) (context : Z) (name : string)
    (generator generator_data : Z) (notify : option Z) :
  cfg_lexer_register_block_generator w context name generator generator_data notify
    = Returns w' ->
  forall (c : Z) (n : string),
    match cfg_lexer_find_generator (lexer w) c n with
    | Some gen => cfg_lexer_find_generator (lexer w') c n = Some gen
    | None =>
        cfg_lexer_find_generator (lexer w') c n = None \/
        (n = name /\ (context = 0 \/ context = c) /\
         cfg_lexer_find_generator (lexer w') c n =
           Some {| gen_context := context; gen_name := name; gen_generator := generator;
                   gen_generator_data := generator_data;
                   gen_generator_data_free := notify |})
    end.
Proof.
  unfold cfg_lexer_register_block_generator, cfg_lexer_find_generator.
  destruct (find_generator_in (generators (lexer w)) context name) as [found|].
  - destruct (cfg_lexer_lookup_context_name_by_type context); [|discriminate].
    destruct notify; [|discriminate].
    intros [= <-] c n. simpl.
    destruct (find_generator_in (generators (lexer w)) c n); [reflexivity | left; reflexivity].
  - intros [= <-] c n. simpl. rewrite find_generator_in_app.
    destruct (find_generator_in (generators (lexer w)) c n); [reflexivity|].
    destruct (generator_matches _ c n) eqn:Hm; [|left; reflexivity].
    right. apply generator_matches_answers in Hm as [Hc Hn]. simpl in Hc, Hn.
    split; [symmetry; exact Hn|]. split; [exact Hc | reflexivity].
Qed.

Lemma registration_keeps_earlier_answers_witness :
  let first := {| gen_context := 0; gen_name := "foo"; gen_generator := 4096;
                  gen_generator_data := 8192; gen_generator_data_free := Some 12288 |} in
  let w : World unit :=
    set_lexer (initial_world tt 0x0300)
              (set_generators (lexer (initial_world tt 0x0300)) [first]) in
  exists w' : World unit,
    cfg_lexer_register_block_generator w LL_CONTEXT_SOURCE "bar" 4100 8200 None = Returns w' /\
    cfg_lexer_find_generator (lexer w') LL_CONTEXT_SOURCE "foo" = Some first.
Proof.
  intros first w. eexists. split; [reflexivity|].
  exact (registration_keeps_earlier_answers w _ LL_CONTEXT_SOURCE "bar" 4100 8200 None
           eq_refl LL_CONTEXT_SOURCE "foo").
Defined.

(** ** The release of generator data *)

Lemma release_generators_app (l1 l2 : list CfgBlockGenerator) :
  release_generators (l1 ++ l2) = release_generators l1 ++ release_generators l2.
Proof.
  induction l1 as [|g l1 IH]; simpl; [reflexivity|].
  destruct (gen_generator_data_free g); [|exact IH].
  destruct (gen_generator_data g =? 0); [exact IH|]. simpl. rewrite IH. reflexivity.
Qed.

Lemma data_frees_app (evs1 evs2 : list Event) :
  data_frees (evs1 ++ evs2) = data_frees evs1 ++ data_frees evs2.
Proof. apply omap_app. Qed.

Lemma registration_releases_once {yyscan_t : Type} (w : World yyscan_t) (r : Registration) :
  well_formed_registration r ->
  exists w' : World yyscan_t,
    cfg_lexer_register_block_generator w (reg_context r) (reg_name r) (reg_generator r)
      (reg_data r) (Some (reg_notify r)) = Returns w' /\
    Permutation (data_frees (snd (cfg_lexer_free w')))
                (data_frees (snd (cfg_lexer_free w)) ++ [(reg_notify r, reg_data r)]).
Proof.
  intros [Hrange Hdata]. destruct (context_in_table _ Hrange) as [context_name Hname].
  unfold cfg_lexer_register_block_generator.
  destruct (cfg_lexer_find_generator (lexer w) (reg_context r) (reg_name r)).
  - rewrite Hname. eexists. split; [reflexivity|].
    unfold cfg_lexer_free. simpl. rewrite !data_frees_app. simpl.
    rewrite <- !app_assoc. apply Permutation_app_head.
    apply Permutation_cons_append.
  - eexists. split; [reflexivity|].
    unfold cfg_lexer_free. simpl. rewrite release_generators_app. simpl.
    apply Z.eqb_neq in Hdata. rewrite Hdata.
    rewrite !data_frees_app. simpl. rewrite <- app_assoc. reflexivity.
Qed.

(** X19.  The data of a registration is released exactly once.  A
    sequence of registrations that name contexts of the table and hand
    over data with a notifier always returns, and when the lexer is freed
    afterwards the notifier calls are those of freeing the lexer right
    away plus one call per registration, on its data: at once for a
    registration that was rejected, at the end for one that was
    accepted. *)
Theorem registered_data_released_once
    {yyscan_t : Type} (w : World yyscan_t) (l : list Registration) :
  Forall well_formed_registration l ->
  exists w' : World yyscan_t,
    register_all w l = Returns w' /\
    Permutation (data_frees (snd (cfg_lexer_free w')))
                (data_frees (snd (cfg_lexer_free w)) ++
                 map (fun r => (reg_notify r, reg_data r)) l).
Proof.
  intros Hwf. revert w. induction Hwf as [|r l Hr _ IH]; intros w.
  - exists w. split; [reflexivity|]. simpl. rewrite app_nil_r. reflexivity.
  - destruct (registration_releases_once w r Hr) as (w1 & Hreg & Hperm1).
    destruct (IH w1) as (w' & Hall & Hperm).
    exists w'. split; [simpl; rewrite Hreg; exact Hall|].
    rewrite Hperm, Hperm1. simpl. rewrite <- app_assoc. reflexivity.
Qed.

Lemma registered_data_released_once_witness :
  exists w' : World unit,
    register_all (initial_world tt 0x0300)
      [ {| reg_context := LL_CONTEXT_SOURCE; reg_name := "myblk"; reg_generator := 4096;
           reg_data := 8192; reg_notify := 12288 |};
        {| reg_context := LL_CONTEXT_SOURCE; reg_name := "myblk"; reg_generator := 4096;
           reg_data := 8200; reg_notify := 12288 |} ] = Returns w' /\
    Permutation (data_frees (snd (cfg_lexer_free w'))) [(12288, 8192); (12288, 8200)].
Proof.
  apply (registered_data_released_once (initial_world tt 0x0300)).
  repeat constructor; simpl; try lia; discriminate.
Defined.

(** ** The expansion of a block *)

Lemma subst_args_fails_odd {utils : StringUtils} {environ : ProcessEnvironment}
    (globals defs args : option CfgArgs) (cptr : string) :
  cfg_lexer_subst_args globals defs args cptr = None <-> unterminated_reference cptr.
Proof.
  rewrite unterminated_reference_odd. unfold cfg_lexer_subst_args.
  rewrite subst_scan_backtick. simpl.
  destruct (Nat.odd (count_backticks cptr)); split; congruence.
Qed.

Lemma substring_length (n : nat) (s : string) :
  String.length (String.substring 0 n s) = min n (String.length s).
Proof.
  revert s. induction n as [|n IH]; intros [|c s]; simpl; try reflexivity.
  rewrite IH. reflexivity.
Qed.

Lemma substring_all (n : nat) (s : string) :
  (String.length s <= n)%nat -> String.substring 0 n s = s.
Proof.
  revert s. induction n as [|n IH]; intros [|c s] Hlen; simpl in *; try reflexivity;
    [lia|].
  rewrite IH by lia. reflexivity.
Qed.

(** X20.  The two ways through [cfg_block_generate], for a context of the
    table of context names.  When the content of the block has an
    unterminated back-tick reference, whatever the arguments are, the call
    returns FALSE, reports one warning and pushes no buffer.  Otherwise it
    hands the substituted content with its length to
    [cfg_lexer_include_buffer], under the name made of the context name,
    [block] and the block name, cut at 255 characters, and returns what
    that call returns, which may be FALSE as well.  So a call that returns
    TRUE had a content whose references are all closed; a call that
    returns FALSE may have either cause. *)
Theorem block_generate_template_paths
    {utils : StringUtils} {environ : ProcessEnvironment} {table : HashTableOrder}
    {yyscan_t : Type} {collaborators : Collaborators yyscan_t}
    (w : World yyscan_t) (context : Z) (name : string) (args : CfgArgs) (block : CfgBlock) :
  0 <= context < Z.of_nat (length lexer_contexts) ->
  exists context_name : option string,
    cfg_lexer_lookup_context_name_by_type context = Returns context_name /\
    let args' := _fill_varargs block args in
    let buf := truncate_to 255 (printf_string context_name +:+ " block " +:+ name) in
    (String.length buf <= 255)%nat /\
    ((String.length (printf_string context_name +:+ " block " +:+ name) <= 255)%nat ->
     buf = printf_string context_name +:+ " block " +:+ name) /\
    (unterminated_reference (blk_content block) ->
     cfg_block_generate w context name args block =
       Returns (false, args', emit w [missing_backtick_warning context_name name])) /\
    (~ unterminated_reference (blk_content block) ->
     exists value : string,
       cfg_lexer_subst_args (Some (globals (lexer w))) (Some (blk_arg_defs block))
         (Some args') (blk_content block) = Some (value, Z.of_nat (String.length value)) /\
       cfg_block_generate w context name args block =
         Returns (let '(ok, w') :=
                    cfg_lexer_include_buffer w buf value (Z.of_nat (String.length value)) in
                  (ok, args', w'))) /\
    (forall (args'' : CfgArgs) (w' : World yyscan_t),
       cfg_block_generate w context name args block = Returns (true, args'', w') ->
       ~ unterminated_reference (blk_content block)).
Proof.
  intros Hrange. destruct (context_in_table context Hrange) as [context_name Hname].
  exists context_name. split; [exact Hname|]. intros args' buf.
  split; [unfold buf, truncate_to; rewrite substring_length; lia|].
  split; [intros Hlen; unfold buf, truncate_to; apply substring_all; exact Hlen|].
  assert (Hfail : unterminated_reference (blk_content block) ->
            cfg_block_generate w context name args block =
              Returns (false, args', emit w [missing_backtick_warning context_name name])).
  { intros Hunterminated. unfold cfg_block_generate. rewrite Hname. fold args'.
    apply (subst_args_fails_odd (Some (globals (lexer w))) (Some (blk_arg_defs block))
             (Some args')) in Hunterminated.
    rewrite Hunterminated. reflexivity. }
  split; [exact Hfail|]. split.
  - intros Hterminated. unfold cfg_block_generate. rewrite Hname. fold args'. fold buf.
    destruct (cfg_lexer_subst_args (Some (globals (lexer w))) (Some (blk_arg_defs block))
                (Some args') (blk_content block)) as [[value len]|] eqn:Hsubst.
    + assert (Hlen : len = Z.of_nat (String.length value)).
      { unfold cfg_lexer_subst_args in Hsubst.
        destruct (subst_backtick _); [discriminate|].
        injection Hsubst as <- <-. reflexivity. }
      subst len. exists value. split; [reflexivity|].
      destruct (cfg_lexer_include_buffer w buf value _); reflexivity.
    + exfalso. apply Hterminated.
      exact (proj1 (subst_args_fails_odd _ _ _ _) Hsubst).
  - intros args'' w' Hreturned Hunterminated.
    rewrite (Hfail Hunterminated) in Hreturned. discriminate.
Qed.

(** Both causes of FALSE: a content whose reference is left open, with one
    warning, and a content that is well formed whose buffer
    [cfg_lexer_include_buffer] refuses, without one. *)
Lemma block_generate_template_paths_witness :
  let utils := spec_string_utils in
  let table := sorted_table_order in
  let w := initial_world (yyscan_t := list ScriptedToken) [] 0x0300 in
  let open := cfg_block_new ("file(" +:+ String "`" "path);") ∅ in
  let closed := cfg_block_new ("file(" +:+ String "`" ("path" +:+ String "`" ");")) ∅ in
  let args := cfg_args_set cfg_args_new "path" "/tmp/x" in
  cfg_block_generate (environ := empty_environment)
    (collaborators := scripted_collaborators example_tokens)
    w LL_CONTEXT_SOURCE "myblk" args open =
  Returns (false, _fill_varargs open args,
           emit w [missing_backtick_warning (Some "source") "myblk"]) /\
  cfg_block_generate (environ := empty_environment)
    (collaborators := refusing_collaborators example_tokens)
    w LL_CONTEXT_SOURCE "myblk" args closed =
  Returns (false, _fill_varargs closed args, w).
Proof.
  intros utils table w open closed args. split.
  - destruct (block_generate_template_paths (utils := spec_string_utils)
                (environ := empty_environment) (table := sorted_table_order)
                (collaborators := scripted_collaborators example_tokens)
                w LL_CONTEXT_SOURCE "myblk" args open)
      as (context_name & Hname & _ & _ & Hfail & _).
    + vm_compute. split; [discriminate | reflexivity].
    + assert (Hsource : context_name = Some "source")
        by (vm_compute in Hname; congruence).
      rewrite <- Hsource. apply Hfail.
      exists "file(", "path);". repeat split.
  - destruct (block_generate_template_paths (utils := spec_string_utils)
                (environ := empty_environment) (table := sorted_table_order)
                (collaborators := refusing_collaborators example_tokens)
                w LL_CONTEXT_SOURCE "myblk" args closed)
      as (context_name & _ & _ & _ & _ & Hpass & _).
    + vm_compute. split; [discriminate | reflexivity].
    + destruct Hpass as (value & _ & Hresult).
      * rewrite <- (subst_args_fails_odd (utils := spec_string_utils)
                      (environ := empty_environment) None None None).
        vm_compute. discriminate.
      * exact Hresult.
Defined.

Lemma fill_varargs_lookup {utils : StringUtils} {table : HashTableOrder}
    (block : CfgBlock) (args : CfgArgs) :
  keys_normalized args ->
  cfg_args_get (_fill_varargs block args) "__VARARGS__" =
    Some (varargs_text (blk_arg_defs block) args).
Proof.
  intros Hnorm. rewrite fill_varargs_value. unfold cfg_args_get.
  destruct (decide (normalize_key "__VARARGS__" = "__VARARGS__")) as [Heq|Hne].
  - rewrite <- Heq at 1. rewrite lookup_insert_eq. reflexivity.
  - rewrite lookup_insert_ne by exact Hne.
    destruct (args !! "__VARARGS__") as [v|] eqn:Hraw.
    + exfalso. apply Hne. exact (Hnorm _ _ Hraw).
    + apply lookup_insert_eq.
Qed.

(** X21.  The arguments that the block does not define reach the
    expansion through [__VARARGS__].  With the argument map that
    [_fill_varargs] leaves, a map filled by [cfg_args_set], a reference to
    [__VARARGS__] in the content is replaced by the prints [name(value) ]
    of the arguments whose key the block does not define, one after the
    other in the order in which the hash table hands out its pairs,
    whatever that order is, and even when the definitions or the globals
    have a [__VARARGS__] of their own. *)
Theorem varargs_reference_expands
    {utils : StringUtils} {environ : ProcessEnvironment} {table : HashTableOrder}
    (globals defs : option CfgArgs) (block : CfgBlock) (args : CfgArgs)
    (pre post a b : string) (la lb : Z) :
  keys_normalized args ->
  let args' := Some (_fill_varargs block args) in
  let text :=
    concat_strings
      (map print_vararg
         (List.filter (is_vararg (blk_arg_defs block)) (g_hash_table_pairs args))) in
  cfg_lexer_subst_args globals defs args' pre = Some (a, la) ->
  cfg_lexer_subst_args globals defs args' post = Some (b, lb) ->
  cfg_lexer_subst_args globals defs args'
    (pre +:+ String "`" ("__VARARGS__" +:+ String "`" post)) =
    Some ((a +:+ text) +:+ b, Z.of_nat (String.length ((a +:+ text) +:+ b))).
Proof.
  intros Hnorm args' text Hpre Hpost.
  change text with (varargs_text (blk_arg_defs block) args).
  apply subst_args_Some in Hpre as [Hpre_b Hpre_r].
  apply subst_args_Some in Hpost as [Hpost_b Hpost_r].
  unfold cfg_lexer_subst_args.
  rewrite (subst_scan_around_reference globals defs args' pre "__VARARGS__" post Hpre_b)
    by (discriminate || reflexivity).
  unfold resolve_reference, args'. simpl.
  rewrite (fill_varargs_lookup block args Hnorm). simpl.
  unfold prepend. simpl. fold args'. rewrite Hpost_b, Hpre_r, Hpost_r. reflexivity.
Qed.

(** Two arguments that the block does not define, the pairs handed out by
    ascending key, and definitions with a [__VARARGS__] of their own. *)
Lemma varargs_reference_expands_witness :
  let utils := spec_string_utils in
  let table := sorted_table_order in
  let args := cfg_args_of [("path", "/tmp/x"); ("mode", "0644"); ("flags", "no-parse")] in
  let block := cfg_block_new ""
                 (cfg_args_of [("path", "/var/log/default"); ("__VARARGS__", "theirs")]) in
  cfg_lexer_subst_args (environ := empty_environment) None (Some (blk_arg_defs block))
    (Some (_fill_varargs block args))
    ("file(" +:+ String "`" ("__VARARGS__" +:+ String "`" ");")) =
  Some ("file(flags(no-parse) mode(0644) );", 34).
Proof.
  intros utils table args block.
  exact (varargs_reference_expands (utils := spec_string_utils)
           (environ := empty_environment) (table := sorted_table_order)
           None (Some (blk_arg_defs block)) block args
           "file(" ");" "file(" ");" 5 2
           (cfg_args_of_keys_normalized (utils := spec_string_utils)
              normalize_key_spec_idempotent
              [("path", "/tmp/x"); ("mode", "0644"); ("flags", "no-parse")])
           eq_refl eq_refl).
Defined.

(** ** What the driver leaves alone *)

Section DriverFrameFacts.
Context {yyscan_t : Type} {tokens : GrammarTokens}
        {collaborators : Collaborators yyscan_t}.
Variable Q : CfgLexer yyscan_t -> CfgLexer yyscan_t -> Prop.
Hypothesis frame : LexerFrame Q.
Hypothesis respectful : Respectful Q.

Lemma frame_fetch_token (w : World yyscan_t) (yylval : YYSTYPE) (yylloc : YYLTYPE)
    tok v l injected w1 :
  fetch_token w yylval yylloc = (tok, v, l, injected, w1) -> Q (lexer w) (lexer w1).
Proof.
  unfold fetch_token.
  destruct (next_injected_token (token_blocks (lexer w))) as [[token|] blocks].
  - intros [= _ _ _ _ <-]. apply (frame_token_blocks Q frame).
  - match goal with
    | |- context [_cfg_lexer_lex ?a ?b ?x] =>
        pose proof (scanner_respects Q respectful a b x) as Hscan;
        destruct (_cfg_lexer_lex a b x) as [[[tok2 v2] l2] w2]
    end.
    intros [= _ _ _ _ <-]. simpl in Hscan.
    refine (frame_trans Q frame _ _ _ _ (frame_echo Q frame _ _)).
    refine (frame_trans Q frame _ _ _ _ Hscan).
    refine (frame_trans Q frame _ _ _ (frame_token_blocks Q frame _ blocks) _).
    refine (frame_trans Q frame _ _ _ _ (frame_truncate Q frame _)).
    pose proof (block_state_respects Q respectful) as Hstate.
    destruct (_ =? LL_CONTEXT_BLOCK_CONTENT); [apply Hstate|].
    destruct (_ =? LL_CONTEXT_BLOCK_ARG); [apply Hstate | apply (frame_refl Q frame)].
Qed.

Lemma frame_deliver_token (w : World yyscan_t) (injected : bool) :
  Q (lexer w) (lexer (deliver_token w injected)).
Proof.
  unfold deliver_token.
  set (w' := if (version (configuration w) =? 0) && _ then _ else _).
  assert (Hversion : Q (lexer w) (lexer w')).
  { unfold w'. destruct (_ && _); [apply (set_version_respects Q respectful)|].
    destruct (_ && _); [|apply (frame_refl Q frame)].
    exact (set_version_respects Q respectful (emit w [no_version_warning]) _). }
  destruct (negb injected && _); [|exact Hversion].
  exact (frame_trans Q frame _ _ _ Hversion (frame_echo Q frame _ _)).
Qed.

Lemma frame_incr (w : World yyscan_t) : Q (lexer w) (lexer (suppress_tokens_incr w)).
Proof. apply (frame_suppress Q frame). Qed.

Lemma frame_decr (w : World yyscan_t) : Q (lexer w) (lexer (suppress_tokens_decr w)).
Proof. apply (frame_suppress Q frame). Qed.

Lemma cfg_lexer_lex_respects (fuel : nat) : lex_respects Q (cfg_lexer_lex fuel).
Proof.
  pose proof (frame_trans Q frame) as Htrans.
  induction fuel as [|fuel IH]; intros w yylval yylloc tok v' l' w' Hlex; [discriminate|].
  cbn [cfg_lexer_lex] in Hlex.
  destruct (fetch_token w yylval yylloc) as [[[[tok1 v1] l1] injected] w1] eqn:Hfetch.
  apply (Htrans _ (lexer w1)); [exact (frame_fetch_token _ _ _ _ _ _ _ _ Hfetch)|].
  clear Hfetch.
  destruct (tok1 =? LL_PRAGMA).
  { destruct (pragma_parser_parse (cfg_lexer_lex fuel) (echo w1 "@")) as [[ok w2]|] eqn:Hparse;
      [|discriminate].
    apply (Htrans _ (lexer (echo w1 "@"))); [apply (frame_echo Q frame)|].
    apply (Htrans _ (lexer w2)); [exact (pragma_respects Q respectful _ IH _ _ _ Hparse)|].
    destruct ok.
    - exact (IH _ _ _ _ _ _ _ Hlex).
    - injection Hlex as _ _ _ <-. apply (frame_refl Q frame). }
  destruct ((tok1 =? KW_INCLUDE) && _).
  { apply (Htrans _ (lexer (suppress_tokens_incr w1))); [apply frame_incr|].
    destruct (cfg_lexer_lex fuel (suppress_tokens_incr w1) v1 l1)
      as [[[[tok2 v2] l2] w2]|] eqn:Hpath; [|discriminate].
    apply (Htrans _ (lexer w2)); [exact (IH _ _ _ _ _ _ _ Hpath)|].
    destruct (negb (tok2 =? LL_STRING) && negb (tok2 =? LL_IDENTIFIER)).
    { injection Hlex as _ _ _ <-. apply frame_decr. }
    destruct (cfg_lexer_lex fuel w2 v2 l2) as [[[[tok3 v3] l3] w3]|] eqn:Hsemi; [|discriminate].
    apply (Htrans _ (lexer w3)); [exact (IH _ _ _ _ _ _ _ Hsemi)|].
    destruct (negb (tok3 =? 59)).
    { injection Hlex as _ _ _ <-. apply frame_decr. }
    pose proof (include_file_respects Q respectful w3 (yy_cptr v2)) as Hfile.
    destruct (cfg_lexer_include_file w3 (yy_cptr v2)) as [included w4]. simpl in Hfile.
    apply (Htrans _ (lexer w4)); [exact Hfile|].
    apply (Htrans _ (lexer (suppress_tokens_decr w4))); [apply frame_decr|].
    destruct included.
    - exact (IH _ _ _ _ _ _ _ Hlex).
    - injection Hlex as _ _ _ <-. apply (frame_refl Q frame). }
  destruct (if tok1 =? LL_IDENTIFIER then _ else None) as [gen|].
  { apply (Htrans _ (lexer (suppress_tokens_incr w1))); [apply frame_incr|].
    destruct (block_ref_parser_parse (cfg_lexer_lex fuel) (suppress_tokens_incr w1))
      as [[[args|] w2]|] eqn:Hparse; [| |discriminate].
    - apply (Htrans _ (lexer w2));
        [exact (block_ref_respects Q respectful _ IH _ _ _ Hparse)|].
      apply (Htrans _ (lexer (suppress_tokens_decr w2))); [apply frame_decr|].
      unfold cfg_lexer_generate_block in Hlex.
      match type of Hlex with
      | context [call_generator ?f ?x ?ctx ?n ?a ?d] =>
          pose proof (generator_respects Q respectful f x ctx n a d) as Hgen;
          destruct (call_generator f x ctx n a d) as [success w3]
      end.
      simpl in Hgen. apply (Htrans _ (lexer w3)); [exact Hgen|].
      destruct success.
      + exact (IH _ _ _ _ _ _ _ Hlex).
      + injection Hlex as _ _ _ <-. apply (frame_refl Q frame).
    - apply (Htrans _ (lexer w2));
        [exact (block_ref_respects Q respectful _ IH _ _ _ Hparse)|].
      injection Hlex as _ _ _ <-. apply frame_decr. }
  injection Hlex as _ _ _ <-. apply frame_deliver_token.
Qed.

End DriverFrameFacts.

Lemma same_context_stack_frame {yyscan_t : Type} :
  LexerFrame (same_context_stack (yyscan_t := yyscan_t)).
Proof.
  constructor; unfold same_context_stack; try reflexivity.
  intros s1 s2 s3 H12 H23. congruence.
Qed.

Lemma echo_extended_frame {yyscan_t : Type} :
  LexerFrame (echo_extended (yyscan_t := yyscan_t)).
Proof.
  constructor; unfold echo_extended.
  - intros s. exists "". rewrite string_app_nil_r. reflexivity.
  - intros s1 s2 s3 [x Hx] [y Hy]. exists (x +:+ y).
    rewrite Hy, Hx, string_app_assoc. reflexivity.
  - intros s l. exists "". rewrite string_app_nil_r. reflexivity.
  - intros s. exists "". rewrite string_app_nil_r. reflexivity.
  - intros s n. exists "". rewrite string_app_nil_r. reflexivity.
  - intros s x. exists x. reflexivity.
Qed.

Lemma scripted_respectful (tokens : GrammarTokens)
    (Q : CfgLexer (list ScriptedToken) -> CfgLexer (list ScriptedToken) -> Prop) :
  (forall s, Q s s) ->
  (forall v l w, Q (lexer w) (lexer (snd (scripted_scan v l w)))) ->
  Respectful (collaborators := scripted_collaborators tokens) Q.
Proof.
  intros Hrefl Hscan. constructor; simpl; try (intros; apply Hrefl).
  - exact Hscan.
  - intros lex Hlex w ok w' Hparse.
    destruct (lex w yylval_zero lloc_zero) as [[[[tok v] l] w1]|] eqn:Hcall; [|discriminate].
    injection Hparse as _ <-. exact (Hlex _ _ _ _ _ _ _ Hcall).
  - intros lex Hlex w args w' Hparse.
    destruct (lex w yylval_zero lloc_zero) as [[[[tok v] l] w1]|] eqn:Hcall; [|discriminate].
    injection Hparse as _ <-. exact (Hlex _ _ _ _ _ _ _ Hcall).
Qed.

Lemma scripted_scan_frame (v : YYSTYPE) (l : YYLTYPE) (w : World (list ScriptedToken)) :
  same_context_stack (lexer w) (lexer (snd (scripted_scan v l w))) /\
  echo_extended (lexer w) (lexer (snd (scripted_scan v l w))).
Proof.
  unfold scripted_scan, same_context_stack, echo_extended.
  destruct (state (lexer w)); simpl; (split; [reflexivity|]);
    exists ""; rewrite string_app_nil_r; reflexivity.
Qed.

(** X22.  The driver leaves the context stack alone.  With collaborators
    that return with the context stack they found (the parsers push and
    pop in pairs), every call of [cfg_lexer_lex] that returns, with a
    token or with the error token, returns with the context stack, and so
    the context type, that it was called with. *)
Theorem lex_keeps_context_stack
    {yyscan_t : Type} {tokens : GrammarTokens} {collaborators : Collaborators yyscan_t}
    (fuel : nat) (w : World yyscan_t) (yylval : YYSTYPE) (yylloc : YYLTYPE)
    (tok : Z) (yylval' : YYSTYPE) (yylloc' : YYLTYPE) (w' : World yyscan_t) :
  Respectful same_context_stack ->
  cfg_lexer_lex fuel w yylval yylloc = Some (tok, yylval', yylloc', w') ->
  context_stack (lexer w') = context_stack (lexer w) /\
  cfg_lexer_get_context_type (lexer w') = cfg_lexer_get_context_type (lexer w).
Proof.
  intros Hrespectful Hlex.
  pose proof (cfg_lexer_lex_respects same_context_stack same_context_stack_frame
                Hrespectful fuel _ _ _ _ _ _ _ Hlex) as Hsame.
  unfold same_context_stack in Hsame. split; [exact Hsame|].
  unfold cfg_lexer_get_context_type. rewrite Hsame. reflexivity.
Qed.

Lemma lex_keeps_context_stack_witness :
  exists (tok : Z) (v : YYSTYPE) (l : YYLTYPE) (w' : World (list ScriptedToken)),
    cfg_lexer_lex (tokens := example_tokens)
      (collaborators := scripted_collaborators example_tokens) 4
      (world_in_context (initial_world (include_script example_tokens) 0x0300)
                        LL_CONTEXT_SOURCE)
      yylval_zero lloc_zero = Some (tok, v, l, w') /\
    cfg_lexer_get_context_type (lexer w') = LL_CONTEXT_SOURCE.
Proof.
  do 4 eexists. split; [vm_compute; reflexivity|].
  refine (proj2 (lex_keeps_context_stack (tokens := example_tokens)
                   (collaborators := scripted_collaborators example_tokens) 4
                   (world_in_context (initial_world (include_script example_tokens) 0x0300)
                                     LL_CONTEXT_SOURCE)
                   yylval_zero lloc_zero _ _ _ _ _ _)).
  - apply scripted_respectful; [reflexivity|]. intros v l w. apply scripted_scan_frame.
  - vm_compute. reflexivity.
Defined.

(** X23.  The echo only grows.  With collaborators that at most append to
    the echo of the preprocessed text, every call of [cfg_lexer_lex] that
    returns leaves an echo that starts with the echo it found: nothing
    that was echoed is taken back, on the error paths either. *)
Theorem lex_echo_only_grows
    {yyscan_t : Type} {tokens : GrammarTokens} {collaborators : Collaborators yyscan_t}
    (fuel : nat) (w : World yyscan_t) (yylval : YYSTYPE) (yylloc : YYLTYPE)
    (tok : Z) (yylval' : YYSTYPE) (yylloc' : YYLTYPE) (w' : World yyscan_t) :
  Respectful echo_extended ->
  cfg_lexer_lex fuel w yylval yylloc = Some (tok, yylval', yylloc', w') ->
  exists x : string, preprocess_output (lexer w') = preprocess_output (lexer w) +:+ x.
Proof.
  intros Hrespectful Hlex.
  exact (cfg_lexer_lex_respects echo_extended echo_extended_frame
           Hrespectful fuel _ _ _ _ _ _ _ Hlex).
Qed.

Lemma lex_echo_only_grows_witness :
  exists (tok : Z) (v : YYSTYPE) (l : YYLTYPE) (w' : World (list ScriptedToken)) (x : string),
    cfg_lexer_lex (tokens := example_tokens)
      (collaborators := scripted_collaborators example_tokens) 4
      (echo (initial_world (include_script example_tokens) 0x0300) "@version: 3.0 ")
      yylval_zero lloc_zero = Some (tok, v, l, w') /\
    preprocess_output (lexer w') = "@version: 3.0 " +:+ x.
Proof.
  do 4 eexists.
  assert (Hlex : cfg_lexer_lex (tokens := example_tokens)
            (collaborators := scripted_collaborators example_tokens) 4
            (echo (initial_world (include_script example_tokens) 0x0300) "@version: 3.0 ")
            yylval_zero lloc_zero = Some (_, _, _, _)) by (vm_compute; reflexivity).
  destruct (lex_echo_only_grows (tokens := example_tokens)
              (collaborators := scripted_collaborators example_tokens) _ _ _ _ _ _ _ _
              ltac:(apply scripted_respectful;
                    [intros s; exists ""; rewrite string_app_nil_r; reflexivity
                    |intros v l w; apply scripted_scan_frame])
              Hlex) as [x Hx].
  exists x. split; [exact Hlex | exact Hx].
Defined.
